(** * space-data-project: LDPC error correction and priority scheduler

    A shallow embedding of
      - [src/fault_tolerance/ldpc_error_correction.py] (module [LDPC]), and
      - [src/messaging/priority_scheduler.py] (modules [Heapq], [Sched]),
    together with the properties of the specification that concern them.

    Conventions of the embedding.
      - Python [int] is [Z]; a Python [float] that carries a rate, a
        threshold or a time is an exact rational [Q].
      - A raised exception is the left injection of [exn + A].
      - Sources of nondeterminism (the random generator, the wall clock)
        are explicit arguments of the functions that consult them. *)

From Stdlib Require Import ZArith QArith Lia Bool.
From stdpp Require Import base option list gmap strings fin_maps functions.

Local Open Scope Z_scope.

(** ** Python-level helpers *)

Module Py.

Inductive exn :=
| ValueError (msg : string)
| MemoryError
| AttributeError (msg : string)
| ZeroDivisionError
| TypeError
| TimeoutError.

(** The values a metadata dictionary holds. *)
Inductive pyval :=
| VInt (z : Z)
| VFloat (q : Q)
| VStr (s : string).

Definition as_int (v : pyval) : exn + Z :=
  match v with VInt z => inr z | _ => inl TypeError end.

Definition as_number (v : pyval) : exn + Q :=
  match v with VInt z => inr (inject_Z z) | VFloat q => inr q | VStr _ => inl TypeError end.

(** The truth of [v > 0]. *)
Definition is_positive (v : pyval) : exn + bool :=
  match v with
  | VInt z => inr (0 <? z)
  | VFloat q => inr (negb (Qle_bool q 0))
  | VStr _ => inl TypeError
  end.

(** [deque(maxlen=cap).append(x)] *)
Definition deque_append {A} (cap : nat) (l : list A) (x : A) : list A :=
  let l' := l ++ [x] in drop (length l' - cap) l'.

Definition result (A : Type) : Type := exn + A.

Definition ret {A} (a : A) : result A := inr a.
Definition raise {A} (e : exn) : result A := inl e.
Definition bind {A B} (m : result A) (k : A -> result B) : result B :=
  match m with
  | inl e => inl e
  | inr a => k a
  end.

(** [int(q)]: truncation towards zero. *)
Definition int_of_Q (q : Q) : Z := Z.quot (Qnum q) (Zpos (Qden q)).

Definition Qltb (a b : Q) : bool := negb (Qle_bool b a).

(** [l[:n]] for a possibly negative [n]. *)
Definition slice_to {A} (l : list A) (n : Z) : list A :=
  if 0 <=? n then take (Z.to_nat n) l
  else take (Z.to_nat (Z.of_nat (length l) + n)) l.

(** [l[i:i+n]] for non-negative [i], [n]. *)
Definition slice {A} (l : list A) (i n : nat) : list A := take n (drop i l).

(** [range(0, len, step)] as the list of its start offsets. *)
Fixpoint range_step (fuel : nat) (i len step : nat) : list nat :=
  match fuel with
  | O => []
  | S fuel' => if (i <? len)%nat then i :: range_step fuel' (i + step) len step else []
  end.

End Py.

Import Py.

Notation "x <- m ;; k" := (Py.bind m (fun x => k))
  (at level 100, m at next level, right associativity).

(** ** LDPC encoder and decoder ([ldpc_error_correction.py]) *)

Module LDPC.

Inductive ErrorCorrectionMode := STANDARD | HIGH_REDUNDANCY | FAST | ADAPTIVE.

Inductive ChannelCondition := EXCELLENT | GOOD | POOR | SEVERE.

#[global] Instance ErrorCorrectionMode_eq_dec : EqDecision ErrorCorrectionMode.
Proof. solve_decision. Defined.

#[global] Instance ChannelCondition_eq_dec : EqDecision ChannelCondition.
Proof. solve_decision. Defined.

Record CodeParameters := mkCodeParameters {
  code_rate : Q;
  block_length : Z;
  max_iterations : Z;
  syndrome_threshold : Q
}.

(** [CodeParameters(...)], that is the dataclass constructor followed by
    [__post_init__]. *)
Definition CodeParameters_new (r : Q) (n it : Z) (th : Q) : result CodeParameters :=
  if negb (Qltb 0 r && Qltb r 1) then raise (ValueError "code_rate must be between 0 and 1")
  else if n <=? 0 then raise (ValueError "block_length must be positive")
  else if it <=? 0 then raise (ValueError "max_iterations must be positive")
  else ret (mkCodeParameters r n it th).

(** A syndrome norm is the square root of a sum of squares, or [inf]. *)
Inductive norm := Norm_sqrt (sq : Z) | Norm_inf.

(** Python's [max(a, b)]: [b] only when [b > a]. *)
Definition norm_max (a b : norm) : norm :=
  match a, b with
  | Norm_inf, _ => Norm_inf
  | Norm_sqrt _, Norm_inf => Norm_inf
  | Norm_sqrt x, Norm_sqrt y => if x <? y then b else a
  end.

Record DecodingResult := mkDecodingResult {
  success : bool;
  corrected_data : option (list Z);
  iterations_used : Z;
  syndrome_norm : norm;
  error_positions : list Z;
  decoding_time_ms : Q;
  bit_error_rate : Q
}.

(** *** numpy and scipy.sparse values

    Only two kinds of values occur: one-dimensional dense [uint8] arrays
    and sparse matrices.  The product of a sparse matrix and a
    one-dimensional dense array, on either side, is a dense array;
    [toarray] is a method of sparse matrices only. *)

Record sp_matrix := mkSp {
  nrows : nat;
  ncols : nat;
  rows : list (list Z)
}.

Inductive np_value :=
| ndarray (v : list Z)
| spmatrix (M : sp_matrix).

Definition uint8 (z : Z) : Z := z mod 256.

Definition dot (a b : list Z) : Z := foldr Z.add 0 (zip_with Z.mul a b).

Definition column (M : sp_matrix) (j : nat) : list Z :=
  map (fun row => nth j row 0) (rows M).

(** [v @ M] for a dense [v] of length [nrows M]. *)
Definition ndarray_matmul_sp (v : list Z) (M : sp_matrix) : result np_value :=
  if decide (length v = nrows M)
  then ret (ndarray (map (fun j => uint8 (dot v (column M j))) (seq 0 (ncols M))))
  else raise (ValueError "dimension mismatch").

(** [M @ v] for a dense [v] of length [ncols M]. *)
Definition sp_matmul_ndarray (M : sp_matrix) (v : list Z) : result np_value :=
  if decide (length v = ncols M)
  then ret (ndarray (map (fun row => uint8 (dot row v)) (rows M)))
  else raise (ValueError "dimension mismatch").

(** [x % 2], elementwise. *)
Definition np_mod2 (x : np_value) : np_value :=
  match x with
  | ndarray v => ndarray (map (fun z => z mod 2) v)
  | spmatrix M => spmatrix (mkSp (nrows M) (ncols M) (map (map (fun z => z mod 2)) (rows M)))
  end.

(** [x.toarray().flatten()] *)
Definition toarray_flatten (x : np_value) : result (list Z) :=
  match x with
  | spmatrix M => ret (concat (rows M))
  | ndarray _ => raise (AttributeError "'numpy.ndarray' object has no attribute 'toarray'")
  end.

(** *** Matrix generation *)

(** The random choices of one run of [_generate_ldpc_matrices]:
    [choice_cols] holds, row by row, the result of
    [np.random.choice(n, size=row_weight, replace=False)], and [random_P]
    the dense contents of [sp.random(k, m, density=0.1, dtype=np.uint8)]. *)
Record Draw := mkDraw {
  choice_cols : list (list nat);
  random_P : list (list Z)
}.

Definition row_weight_of (n : Z) : Z := Z.max 3 (Z.sqrt n / 2).

(** What the two random generators can return for dimensions [k], [n]. *)
Definition valid_draw (k n : Z) (d : Draw) : Prop :=
  let m := n - k in
  length (choice_cols d) = Z.to_nat m /\
  Forall (fun cols => length cols = Z.to_nat (row_weight_of n) /\ NoDup cols /\
                      Forall (fun j => (j < Z.to_nat n)%nat) cols) (choice_cols d) /\
  length (random_P d) = Z.to_nat k /\
  Forall (fun row => length row = Z.to_nat m /\ Forall (fun z => 0 <= z < 256) row) (random_P d).

(** Row [i] of the COO-built parity-check matrix: entry [j] counts the
    occurrences of [j] among the columns drawn for the row. *)
Definition H_row (n : nat) (cols : list nat) : list Z :=
  map (fun j => uint8 (Z.of_nat (length (filter (fun c => c = j) cols)))) (seq 0 n).

(** Row [i] of [hstack([I_k, P])] after [P.data = P.data % 2]. *)
Definition G_row (k : nat) (i : nat) (p_row : list Z) : list Z :=
  map (fun j => if decide (j = i) then 1 else 0) (seq 0 k) ++ map (fun z => z mod 2) p_row.

Definition _generate_ldpc_matrices (memory_limit_bytes : Z) (d : Draw)
    (code_rate : Q) (block_length : Z) : result (sp_matrix * sp_matrix) :=
  let k := int_of_Q (inject_Z block_length * code_rate) in
  let n := block_length in
  let m := n - k in
  let estimated_memory := (n * k + n * m) * 8 in
  if memory_limit_bytes <? estimated_memory then raise MemoryError
  else
    let row_weight := row_weight_of n in
    if (0 <? m) && (n <? row_weight)
    then raise (ValueError "Cannot take a larger sample than population when 'replace=False'")
    else
      let H := mkSp (Z.to_nat m) (Z.to_nat n)
                 (map (fun i => H_row (Z.to_nat n) (nth i (choice_cols d) []))
                      (seq 0 (Z.to_nat m))) in
      let G := mkSp (Z.to_nat k) (Z.to_nat n)
                 (map (fun i => G_row (Z.to_nat k) i (nth i (random_P d) []))
                      (seq 0 (Z.to_nat k))) in
      (* the densities in the debug message are computed eagerly *)
      if (m * n =? 0) || (k * n =? 0) then raise ZeroDivisionError
      else ret (G, H).

(** The mathematical content of [(block @ G) % 2] and [(H @ c) % 2]. *)
Definition encode_block (b : list Z) (G : sp_matrix) : list Z :=
  map (fun j => uint8 (dot b (column G j)) mod 2) (seq 0 (ncols G)).

Definition syndrome (H : sp_matrix) (c : list Z) : list Z :=
  map (fun row => uint8 (dot row c) mod 2) (rows H).

(** *** Performance tracker *)

Record PerformanceTracker := mkTracker {
  _encoding_times : list Q;
  _decoding_times : list Q;
  _success_rates : list Q;
  _bit_error_rates : list Q;
  _iterations_used : list Z;
  _channel_conditions : list ChannelCondition;
  _error_burst_detection : list Q
}.

Definition PerformanceTracker_new : PerformanceTracker :=
  mkTracker [] [] [] [] [] [] [].

Definition record_encoding (t : PerformanceTracker) (encoding_time : Q) : PerformanceTracker :=
  mkTracker (deque_append 1000 (_encoding_times t) encoding_time)
            (_decoding_times t) (_success_rates t) (_bit_error_rates t)
            (_iterations_used t) (_channel_conditions t) (_error_burst_detection t).

Definition classify (ber : Q) : ChannelCondition :=
  if Qltb ber (1 # 100) then EXCELLENT
  else if Qltb ber (5 # 100) then GOOD
  else if Qltb ber (15 # 100) then POOR
  else SEVERE.

Definition _assess_channel_condition (t : PerformanceTracker) (ber : Q) (current_time : Q)
    : PerformanceTracker :=
  let bursts := if Qltb (1 # 10) ber
                then _error_burst_detection t ++ [current_time]
                else _error_burst_detection t in
  let cutoff_time := (current_time - 60)%Q in
  mkTracker (_encoding_times t) (_decoding_times t) (_success_rates t)
            (_bit_error_rates t) (_iterations_used t)
            (deque_append 100 (_channel_conditions t) (classify ber))
            (filter (fun x => Qltb cutoff_time x = true) bursts).

Definition record_decoding (t : PerformanceTracker) (r : DecodingResult) (current_time : Q)
    : PerformanceTracker :=
  let t1 := mkTracker (_encoding_times t)
              (deque_append 1000 (_decoding_times t) (decoding_time_ms r / 1000)%Q)
              (deque_append 1000 (_success_rates t) (if success r then 1%Q else 0%Q))
              (deque_append 1000 (_bit_error_rates t) (bit_error_rate r))
              (deque_append 1000 (_iterations_used t) (iterations_used r))
              (_channel_conditions t) (_error_burst_detection t) in
  _assess_channel_condition t1 (bit_error_rate r) current_time.

Definition get_current_channel_condition (t : PerformanceTracker) : ChannelCondition :=
  match list.last (_channel_conditions t) with
  | None => GOOD
  | Some c => c
  end.

(** *** Encoder state *)

Definition cache_key : Type := Q * Z.

Definition key_eqb (a b : cache_key) : bool := Qeq_bool a.1 b.1 && (a.2 =? b.2).

(** A Python [dict] as an insertion-ordered association list. *)
Fixpoint dict_get {V} (d : list (cache_key * V)) (key : cache_key) : option V :=
  match d with
  | [] => None
  | (k', v) :: rest => if key_eqb k' key then Some v else dict_get rest key
  end.

Fixpoint dict_set {V} (d : list (cache_key * V)) (key : cache_key) (v : V)
    : list (cache_key * V) :=
  match d with
  | [] => [(key, v)]
  | (k', v') :: rest =>
      if key_eqb k' key then (k', v) :: rest else (k', v') :: dict_set rest key v
  end.

Definition dict_del {V} (d : list (cache_key * V)) (key : cache_key) : list (cache_key * V) :=
  filter (fun kv => key_eqb kv.1 key = false) d.

(** [min(d.keys(), key=d.get)]: the first key with the least value. *)
Fixpoint dict_argmin (d : list (cache_key * Q)) : option (cache_key * Q) :=
  match d with
  | [] => None
  | (k', v) :: rest =>
      match dict_argmin rest with
      | None => Some (k', v)
      | Some (k2, v2) => if Qltb v2 v then Some (k2, v2) else Some (k', v)
      end
  end.

Record LDPCEncoder := mkEncoder {
  code_params : CodeParameters;
  enable_adaptive_mode : bool;
  enable_performance_tracking : bool;
  memory_limit_bytes : Z;
  performance_tracker : PerformanceTracker;
  _current_mode : ErrorCorrectionMode;
  _mode_switch_history : list (Q * ErrorCorrectionMode * ErrorCorrectionMode);
  _matrix_cache : list (cache_key * (sp_matrix * sp_matrix));
  _cache_access_times : list (cache_key * Q);
  _consecutive_failures : Z;
  _last_failure_time : Q;
  _degraded_mode : bool
}.

(** [LDPCEncoder(code_parameters, ...)] *)
Definition LDPCEncoder_new (code_parameters : option CodeParameters)
    (adaptive tracking : bool) (memory_limit_mb : Z) : LDPCEncoder :=
  mkEncoder (default (mkCodeParameters (1 # 2) 1024 50 (1 # 1000000)) code_parameters)
            adaptive tracking (memory_limit_mb * 1024 * 1024)
            PerformanceTracker_new STANDARD [] [] [] 0 0%Q false.

Definition set_code_params (s : LDPCEncoder) (cp : CodeParameters) : LDPCEncoder :=
  mkEncoder cp (enable_adaptive_mode s) (enable_performance_tracking s)
            (memory_limit_bytes s) (performance_tracker s) (_current_mode s)
            (_mode_switch_history s) (_matrix_cache s) (_cache_access_times s)
            (_consecutive_failures s) (_last_failure_time s) (_degraded_mode s).

Definition set_tracker (s : LDPCEncoder) (t : PerformanceTracker) : LDPCEncoder :=
  mkEncoder (code_params s) (enable_adaptive_mode s) (enable_performance_tracking s)
            (memory_limit_bytes s) t (_current_mode s)
            (_mode_switch_history s) (_matrix_cache s) (_cache_access_times s)
            (_consecutive_failures s) (_last_failure_time s) (_degraded_mode s).

Definition set_mode (s : LDPCEncoder) (mode : ErrorCorrectionMode)
    (history : list (Q * ErrorCorrectionMode * ErrorCorrectionMode)) : LDPCEncoder :=
  mkEncoder (code_params s) (enable_adaptive_mode s) (enable_performance_tracking s)
            (memory_limit_bytes s) (performance_tracker s) mode
            history (_matrix_cache s) (_cache_access_times s)
            (_consecutive_failures s) (_last_failure_time s) (_degraded_mode s).

Definition set_caches (s : LDPCEncoder)
    (cache : list (cache_key * (sp_matrix * sp_matrix)))
    (times : list (cache_key * Q)) : LDPCEncoder :=
  mkEncoder (code_params s) (enable_adaptive_mode s) (enable_performance_tracking s)
            (memory_limit_bytes s) (performance_tracker s) (_current_mode s)
            (_mode_switch_history s) cache times
            (_consecutive_failures s) (_last_failure_time s) (_degraded_mode s).

Definition set_failures (s : LDPCEncoder) (failures : Z) (last : Q) (degraded : bool)
    : LDPCEncoder :=
  mkEncoder (code_params s) (enable_adaptive_mode s) (enable_performance_tracking s)
            (memory_limit_bytes s) (performance_tracker s) (_current_mode s)
            (_mode_switch_history s) (_matrix_cache s) (_cache_access_times s)
            failures last degraded.

(** The readings of [time.time()] during one call: at entry, inside
    [_get_matrices], at the timeout check of the [i]-th block, and at the end. *)
Record Clock := mkClock {
  t_start : Q;
  t_cache : Q;
  t_loop : nat -> Q;
  t_end : Q
}.

Definition _get_matrices (s : LDPCEncoder) (d : Draw) (clk : Clock)
    : LDPCEncoder * result (sp_matrix * sp_matrix) :=
  let key := (code_rate (code_params s), block_length (code_params s)) in
  match dict_get (_matrix_cache s) key with
  | Some GH =>
      (set_caches s (_matrix_cache s) (dict_set (_cache_access_times s) key (t_cache clk)),
       ret GH)
  | None =>
      match _generate_ldpc_matrices (memory_limit_bytes s) d
              (code_rate (code_params s)) (block_length (code_params s)) with
      | inl e => (s, raise e)
      | inr GH =>
          if (length (_matrix_cache s) <? 5)%nat
          then (set_caches s (dict_set (_matrix_cache s) key GH)
                             (dict_set (_cache_access_times s) key (t_cache clk)),
                ret GH)
          else
            match dict_argmin (_cache_access_times s) with
            | None => (s, raise (ValueError "min() arg is an empty sequence"))
            | Some (oldest_key, _) =>
                (set_caches s
                   (dict_set (dict_del (_matrix_cache s) oldest_key) key GH)
                   (dict_set (dict_del (_cache_access_times s) oldest_key) key (t_cache clk)),
                 ret GH)
            end
      end
  end.

(** *** Adaptation *)

Definition mode_params (mode : ErrorCorrectionMode) : Q * Z :=
  match mode with
  | FAST => (75 # 100, 1024)
  | STANDARD => (1 # 2, 1024)
  | HIGH_REDUNDANCY => (33 # 100, 1024)
  | ADAPTIVE => (1 # 2, 1024)
  end.

Definition _switch_to_mode (s : LDPCEncoder) (mode : ErrorCorrectionMode)
    : result LDPCEncoder :=
  let '(new_rate, new_length) := mode_params mode in
  cp <- CodeParameters_new new_rate new_length
          (max_iterations (code_params s)) (syndrome_threshold (code_params s)) ;;
  ret (set_caches (set_code_params s cp) [] []).

Definition mode_for (c : ChannelCondition) : ErrorCorrectionMode :=
  match c with
  | EXCELLENT => FAST
  | GOOD => STANDARD
  | POOR => HIGH_REDUNDANCY
  | SEVERE => HIGH_REDUNDANCY
  end.

Definition _adapt_code_parameters (s : LDPCEncoder) (now : Q) : LDPCEncoder :=
  if negb (enable_adaptive_mode s) || negb (enable_performance_tracking s) then s
  else
    let channel_condition := get_current_channel_condition (performance_tracker s) in
    let new_mode := mode_for channel_condition in
    if decide (new_mode <> _current_mode s) then
      match _switch_to_mode s new_mode with
      | inl _ => s                        (* logged by the handler *)
      | inr s1 =>
          set_mode s1 new_mode
            (deque_append 10 (_mode_switch_history s1) (now, _current_mode s1, new_mode))
      end
    else s.

(** [reset_performance_counters()] *)
Definition reset_performance_counters (s : LDPCEncoder) : LDPCEncoder :=
  let s := if enable_performance_tracking s
           then set_tracker s PerformanceTracker_new
           else s in
  set_mode (set_failures s 0 0%Q false) (_current_mode s) [].

(** *** Encoding and decoding *)

Section Codec.

(** [hashlib.md5(bits).hexdigest()] *)
Variable md5 : list Z -> string.

Definition is_binary (bits : list Z) : bool :=
  forallb (fun z => (z =? 0) || (z =? 1)) bits.

Fixpoint encode_loop (G : sp_matrix) (binary_data : list Z) (k : nat)
    (timeout_seconds : Q) (clk : Clock) (offsets : list nat) (idx : nat)
    (encoded_blocks : list (list Z)) : result (list (list Z)) :=
  match offsets with
  | [] => ret encoded_blocks
  | i :: rest =>
      let block := slice binary_data i k in
      product <- ndarray_matmul_sp block G ;;
      let encoded_block := np_mod2 product in
      flat <- toarray_flatten encoded_block ;;
      if Qltb timeout_seconds (t_loop clk idx - t_start clk)%Q then raise TimeoutError
      else encode_loop G binary_data k timeout_seconds clk rest (S idx)
             (encoded_blocks ++ [flat])
  end.

(** [np.concatenate(blocks)] refuses an empty list of arrays. *)
Definition np_concatenate (blocks : list (list Z)) : result (list Z) :=
  match blocks with
  | [] => raise (ValueError "need at least one array to concatenate")
  | _ => ret (concat blocks)
  end.

Definition mode_value (mode : ErrorCorrectionMode) : string :=
  match mode with
  | STANDARD => "standard"
  | HIGH_REDUNDANCY => "high"
  | FAST => "fast"
  | ADAPTIVE => "adaptive"
  end.

(** The [try] block of [encode]; state changes made before an exception stay. *)
Definition encode_body (s : LDPCEncoder) (data : list Z) (timeout_seconds : Q)
    (d : Draw) (clk : Clock) : LDPCEncoder * result (list Z * gmap string pyval) :=
  let s := _adapt_code_parameters s (t_start clk) in
  let binary_data := data in
  if negb (is_binary binary_data)
  then (s, raise (ValueError "Data must be binary (0s and 1s only)"))
  else
    let '(s, GH) := _get_matrices s d clk in
    (s,
     GH <- GH ;;
     let G := GH.1 in
     let k := int_of_Q (inject_Z (block_length (code_params s)) * code_rate (code_params s)) in
     if k =? 0 then raise ZeroDivisionError
     else
       let padding_needed := (k - (Z.of_nat (length binary_data) mod k)) mod k in
       let binary_data :=
         if 0 <? padding_needed
         then binary_data ++ replicate (Z.to_nat padding_needed) 0
         else binary_data in
       let original_length := Z.of_nat (length binary_data) - padding_needed in
       encoded_blocks <-
         encode_loop G binary_data (Z.to_nat k) timeout_seconds clk
           (range_step (length binary_data) 0 (length binary_data) (Z.to_nat k)) 0 [] ;;
       encoded_data <- np_concatenate encoded_blocks ;;
       let encoding_time := (t_end clk - t_start clk)%Q in
       let metadata : gmap string pyval :=
         <["original_length" := VInt original_length]>
         (<["encoded_length" := VInt (Z.of_nat (length encoded_data))]>
         (<["code_rate" := VFloat (code_rate (code_params s))]>
         (<["block_length" := VInt (block_length (code_params s))]>
         (<["padding_bits" := VInt padding_needed]>
         (<["encoding_time_ms" := VFloat (encoding_time * 1000)%Q]>
         (<["mode" := VStr (mode_value (_current_mode s))]>
         (<["checksum" := VStr (md5 binary_data)]> ∅))))))) in
       ret (encoded_data, metadata)).

Definition encode (s : LDPCEncoder) (data : list Z) (timeout_seconds : Q)
    (d : Draw) (clk : Clock) : LDPCEncoder * result (list Z * gmap string pyval) :=
  match encode_body s data timeout_seconds d clk with
  | (s1, inr (encoded_data, metadata)) =>
      let s2 := if enable_performance_tracking s1
                then set_tracker s1 (record_encoding (performance_tracker s1)
                                       (t_end clk - t_start clk)%Q)
                else s1 in
      (s2, ret (encoded_data, metadata))
  | (s1, inl e) =>
      let failures := _consecutive_failures s1 + 1 in
      (set_failures s1 failures (t_end clk)
         (if 5 <? failures then true else _degraded_mode s1),
       raise e)
  end.

(** [norm < threshold] for [norm = sqrt sq], decided without the root. *)
Definition norm_ltb (sq : Z) (threshold : Q) : bool :=
  Qltb 0 threshold && Qltb (inject_Z sq) (threshold * threshold)%Q.

Definition sum_sq (v : list Z) : Z := foldr Z.add 0 (map (fun z => z * z) v).

(** [H.getrow(i).indices]: the columns row [i] stores. *)
Definition row_indices (row : list Z) : list nat :=
  filter (fun j => nth j row 0 <> 0) (seq 0 (length row)).

Definition parity_of (received_block : list Z) (var_nodes : list nat) : Z :=
  foldr Z.add 0 (map (fun j => nth j received_block 0) var_nodes) mod 2.

(** One pass over the checks: the votes after the [for check_idx] loop. *)
Definition error_votes_of (H : sp_matrix) (received_block : list Z) : list Z :=
  foldl (fun votes row =>
           let var_nodes := row_indices row in
           if (0 <? length var_nodes)%nat && negb (parity_of received_block var_nodes =? 0)
           then imap (fun j v => if decide (j ∈ var_nodes) then v + 1 else v) votes
           else votes)
        (replicate (length received_block) 0) (rows H).

(** [v > np.mean(votes) + np.std(votes)], decided over the integers:
    with [n] votes of sum [S] and sum of squares [S2] it reads
    [n v - S > sqrt (n S2 - S^2)]. *)
Definition above_flip_threshold (votes : list Z) (v : Z) : bool :=
  let n := Z.of_nat (length votes) in
  let S := foldr Z.add 0 votes in
  let S2 := sum_sq votes in
  (0 <? n * v - S) && (n * S2 - S * S <? (n * v - S) * (n * v - S)).

Definition flip_positions_of (votes : list Z) : list nat :=
  filter (fun j => above_flip_threshold votes (nth j votes 0) = true) (seq 0 (length votes)).

(** The [for iteration in range(max_iterations)] loop of [_decode_block].
    It returns the current [received_block] next to the outcome: the
    handler and the code after the loop both read it.  [None] stands for
    leaving the loop without [return]. *)
Fixpoint decode_iterations (cp : CodeParameters) (H : sp_matrix) (k : Z)
    (remaining : nat) (iteration : Z) (received_block : list Z)
    : list Z * result (option (list Z * Z * norm * list Z)) :=
  match remaining with
  | O => (received_block, ret None)
  | S remaining' =>
      match (product <- sp_matmul_ndarray H received_block ;;
             toarray_flatten (np_mod2 product)) with
      | inl e => (received_block, raise e)
      | inr syn =>
          let sq := sum_sq syn in
          if norm_ltb sq (syndrome_threshold cp)
          then (received_block,
                ret (Some (slice_to received_block k, iteration + 1, Norm_sqrt sq, [])))
          else
            let error_votes := error_votes_of H received_block in
            let flip_positions := flip_positions_of error_votes in
            if (0 <? length flip_positions)%nat
            then decode_iterations cp H k remaining' (iteration + 1)
                   (imap (fun j b => if decide (j ∈ flip_positions) then uint8 (1 - b) else b)
                         received_block)
            else (received_block, ret None)
      end
  end.

Definition _decode_block (cp : CodeParameters) (received_block : list Z)
    (H : sp_matrix) (k : Z) : list Z * Z * norm * list Z :=
  match decode_iterations cp H k (Z.to_nat (max_iterations cp)) 0 received_block with
  | (_, inr (Some r)) => r
  | (received_block, inr None) =>
      (* Failed to converge *)
      (slice_to received_block k, max_iterations cp, Norm_inf,
       map Z.of_nat (seq 0 (Nat.min 10 (length received_block))))
  | (received_block, inl _) =>
      (* Return original block on error *)
      (if k <=? Z.of_nat (length received_block)
       then slice_to received_block k else received_block,
       0, Norm_inf, [])
  end.

Fixpoint decode_loop (cp : CodeParameters) (H : sp_matrix) (k n : Z)
    (encoded_data : list Z) (timeout_seconds : Q) (clk : Clock)
    (offsets : list nat) (idx : nat)
    (decoded_blocks : list (list Z)) (total_iterations : Z)
    (max_syndrome_norm : norm) (error_positions : list Z)
    : result (list (list Z) * Z * norm * list Z) :=
  match offsets with
  | [] => ret (decoded_blocks, total_iterations, max_syndrome_norm, error_positions)
  | i :: rest =>
      if Qltb timeout_seconds (t_loop clk idx - t_start clk)%Q then raise TimeoutError
      else
        let block := slice encoded_data i (Z.to_nat n) in
        let block :=
          if (length block <? Z.to_nat n)%nat
          then block ++ replicate (Z.to_nat n - length block) 0
          else block in
        let '(decoded_block, iterations, syndrome_norm, block_errors) :=
          _decode_block cp block H k in
        decode_loop cp H k n encoded_data timeout_seconds clk rest (S idx)
          (decoded_blocks ++ [decoded_block])
          (total_iterations + iterations)
          (norm_max max_syndrome_norm syndrome_norm)
          (error_positions ++ map (fun pos => pos + Z.of_nat i * k) block_errors)
  end.

(** [computed_checksum == expected_checksum] *)
Definition checksum_matches (computed : string) (expected : pyval) : bool :=
  match expected with
  | VStr e => String.eqb computed e
  | _ => false
  end.

(** [padding_bits] is read only under the guard [padding_bits > 0], and
    then as a slice bound and an array length: its value when the guard
    holds, and [0] otherwise. *)
Definition guarded_padding (padding_bits_v : pyval) : result Z :=
  positive <- is_positive padding_bits_v ;;
  if positive then as_int padding_bits_v else ret 0.

(** The inner [try] block of [decode], run with the temporary parameters
    already installed in [s].  A metadata value of the wrong type raises
    [TypeError] where it is first used as a number; for [code_rate] and
    [block_length] that is taken to be the construction of the parameters. *)
Definition decode_try (s : LDPCEncoder) (encoded_data : list Z)
    (metadata : gmap string pyval) (original_length_v padding_bits_v : pyval)
    (timeout_seconds : Q) (d : Draw) (clk : Clock)
    : LDPCEncoder * result DecodingResult :=
  let cp := code_params s in
  let '(s, GH) := _get_matrices s d clk in
  let outcome : result DecodingResult :=
    GH <- GH ;;
    let H := GH.2 in
    let k := int_of_Q (inject_Z (block_length cp) * code_rate cp) in
    let n := block_length cp in
    acc <- decode_loop cp H k n encoded_data timeout_seconds clk
             (range_step (length encoded_data) 0 (length encoded_data) (Z.to_nat n)) 0
             [] 0 (Norm_sqrt 0) [] ;;
    let '(decoded_blocks, total_iterations, max_syndrome_norm, error_positions) := acc in
    decoded_data <- np_concatenate decoded_blocks ;;
    padding_bits <- guarded_padding padding_bits_v ;;
    let decoded_data :=
      if 0 <? padding_bits then slice_to decoded_data (- padding_bits) else decoded_data in
    original_length <- as_int original_length_v ;;
    let decoded_data := slice_to decoded_data original_length in
    let decoding_time := ((t_end clk - t_start clk) * 1000)%Q in
    let bit_error_rate :=
      (inject_Z (Z.of_nat (length error_positions)) /
       inject_Z (Z.max (Z.of_nat (length encoded_data)) 1))%Q in
    let success :=
      match metadata !! "checksum" with
      | None => true
      | Some expected_checksum =>
          let verify_data :=
            if 0 <? padding_bits
            then decoded_data ++ replicate (Z.to_nat padding_bits) 0
            else decoded_data in
          checksum_matches (md5 verify_data) expected_checksum
      end in
    ret (mkDecodingResult success (Some decoded_data) total_iterations
           max_syndrome_norm error_positions decoding_time bit_error_rate) in
  match outcome with
  | inl e => (s, raise e)
  | inr r =>
      let s := if enable_performance_tracking s
               then set_tracker s (record_decoding (performance_tracker s) r (t_end clk))
               else s in
      let s := if success r
               then set_failures s 0 (_last_failure_time s) false
               else s in
      (s, ret r)
  end.

(** The outer [except Exception] handler of [decode]. *)
Definition decode_failed (s : LDPCEncoder) (clk : Clock)
    : LDPCEncoder * result DecodingResult :=
  let failures := _consecutive_failures s + 1 in
  let s := set_failures s failures (t_end clk)
             (if 3 <? failures then true else _degraded_mode s) in
  let r := mkDecodingResult false None 0 Norm_inf []
             ((t_end clk - t_start clk) * 1000)%Q 1%Q in
  let s := if enable_performance_tracking s
           then set_tracker s (record_decoding (performance_tracker s) r (t_end clk))
           else s in
  (s, ret r).

Definition decode (s : LDPCEncoder) (encoded_data : list Z)
    (metadata : gmap string pyval) (timeout_seconds : Q) (d : Draw) (clk : Clock)
    : LDPCEncoder * result DecodingResult :=
  match metadata !! "original_length" with
  | None =>
      (* raise ValueError("metadata missing original_length"), inside the try *)
      decode_failed s clk
  | Some original_length_v =>
      let code_rate_v := default (VFloat (code_rate (code_params s))) (metadata !! "code_rate") in
      let block_length_v :=
        default (VInt (block_length (code_params s))) (metadata !! "block_length") in
      let padding_bits_v := default (VInt 0) (metadata !! "padding_bits") in
      let original_params := code_params s in
      match (r <- as_number code_rate_v ;;
             n <- as_int block_length_v ;;
             CodeParameters_new r n (max_iterations original_params)
               (syndrome_threshold original_params)) with
      | inl _ => decode_failed s clk
      | inr temporary =>
          let s := set_code_params s temporary in
          let '(s, outcome) :=
            decode_try s encoded_data metadata original_length_v padding_bits_v
              timeout_seconds d clk in
          (* finally: restore original parameters *)
          let s := set_code_params s original_params in
          match outcome with
          | inr r => (s, ret r)
          | inl _ => decode_failed s clk
          end
      end
  end.

(** The states of an encoder that its public methods lead to. *)
Inductive encoder_state : LDPCEncoder -> Prop :=
| state_new code_parameters adaptive tracking memory_limit_mb :
    encoder_state (LDPCEncoder_new code_parameters adaptive tracking memory_limit_mb)
| state_encode s data timeout_seconds d clk :
    encoder_state s -> encoder_state (encode s data timeout_seconds d clk).1
| state_decode s encoded_data metadata timeout_seconds d clk :
    encoder_state s ->
    encoder_state (decode s encoded_data metadata timeout_seconds d clk).1
| state_reset s :
    encoder_state s -> encoder_state (reset_performance_counters s).

End Codec.

(** *** Channel simulation *)

(** The random draws of one call of [simulate_channel_errors]:
    [bit_noise i] and [burst_noise i] are the [i]-th entries of the two
    arrays returned by [np.random.random(len(data))], and [burst_draw j]
    is what the [j]-th call of [np.random.poisson(burst_length)] ends in,
    a count or the exception of a rejected [burst_length]. *)
Record Noise := mkNoise {
  bit_noise : nat -> Q;
  burst_noise : nat -> Q;
  burst_draw : nat -> result nat
}.

(** [1 - x] on a [uint8] array. *)
Definition flip (z : Z) : Z := uint8 (1 - z).

(** [v[start:stop] = 1 - v[start:stop]] *)
Definition flip_slice (start stop : nat) (v : list Z) : list Z :=
  imap (fun i z => if decide (start <= i < stop)%nat then flip z else z) v.

(** The [for start_pos in burst_positions] loop; [j] counts the draws. *)
Fixpoint burst_loop (noise : Noise) (len : nat) (burst_positions : list nat) (j : nat)
    (corrupted_data : list Z) : result (list Z) :=
  match burst_positions with
  | [] => ret corrupted_data
  | start_pos :: rest =>
      burst_len <- burst_draw noise j ;;
      let end_pos := Nat.min (start_pos + burst_len) len in
      burst_loop noise len rest (S j) (flip_slice start_pos end_pos corrupted_data)
  end.

Definition simulate_channel_errors (data : list Z) (error_rate burst_probability : Q)
    (noise : Noise) : result (list Z) :=
  if negb (Qle_bool 0 error_rate && Qle_bool error_rate 1)
  then raise (ValueError "error_rate must be between 0.0 and 1.0")
  else
    let corrupted_data :=
      imap (fun i z => if Qltb (bit_noise noise i) error_rate then flip z else z) data in
    if Qltb 0 burst_probability then
      let burst_positions :=
        filter (fun i => Qltb (burst_noise noise i) burst_probability = true)
               (seq 0 (length data)) in
      burst_loop noise (length data) burst_positions 0 corrupted_data
    else ret corrupted_data.

(** *** Properties of the generator *)

(** C1.  The generator does not tie [G] to [H].  At rate 1/2 and block
    length 4 (so [k = 2], [m = 2], row weight 3), with the rows of [H] drawn
    as columns {0,1,2} and {0,1,3} and an all-zero [P], the information
    block [1,0] is encoded as [1,0,0,0], whose syndrome is [1,1], not zero. *)
Lemma generated_code_not_orthogonal :
  let d := mkDraw [[0; 1; 2]; [0; 1; 3]]%nat [[0; 0]; [0; 0]] in
  valid_draw 2 4 d /\
  exists G H,
    _generate_ldpc_matrices (256 * 1024 * 1024) d (1 # 2) 4 = inr (G, H) /\
    encode_block [1; 0] G = [1; 0; 0; 0] /\
    syndrome H (encode_block [1; 0] G) = [1; 1].
Proof.
  split.
  - unfold valid_draw; cbn.
    assert (Hnd : forall a b c : nat, a <> b -> a <> c -> b <> c -> NoDup [a; b; c]).
    { intros a b c Hab Hac Hbc.
      apply NoDup_cons_2; [rewrite !not_elem_of_cons; auto using not_elem_of_nil |].
      apply NoDup_cons_2; [rewrite !not_elem_of_cons; auto using not_elem_of_nil |].
      apply NoDup_singleton. }
    split; [reflexivity |]. split.
    { repeat (apply Forall_cons_2); try apply Forall_nil_2;
        (split; [reflexivity | split; [apply Hnd; lia |]]);
        repeat (apply Forall_cons_2); try apply Forall_nil_2; lia. }
    split; [reflexivity |].
    repeat (apply Forall_cons_2); try apply Forall_nil_2;
      (split; [reflexivity |]); repeat (apply Forall_cons_2); try apply Forall_nil_2; lia.
  - eexists _, _. split; [vm_compute; reflexivity |].
    split; vm_compute; reflexivity.
Qed.

(** *** Properties of the adaptation controller *)

Lemma switch_to_mode_params (s s' : LDPCEncoder) (mode : ErrorCorrectionMode) :
  _switch_to_mode s mode = inr s' ->
  code_rate (code_params s') = (mode_params mode).1 /\
  block_length (code_params s') = (mode_params mode).2 /\
  max_iterations (code_params s') = max_iterations (code_params s) /\
  syndrome_threshold (code_params s') = syndrome_threshold (code_params s) /\
  _matrix_cache s' = [] /\ _cache_access_times s' = [] /\
  _current_mode s' = _current_mode s.
Proof.
  unfold _switch_to_mode.
  destruct (mode_params mode) as [new_rate new_length] eqn:Hmp.
  unfold CodeParameters_new.
  destruct (negb _); [discriminate |].
  destruct (new_length <=? 0); [discriminate |].
  destruct (max_iterations (code_params s) <=? 0); [discriminate |].
  cbn. intros [= <-]. cbn. auto 10.
Qed.

(** An encoder configured with 2048-bit blocks whose tracker has just seen
    an error-free block. *)
Definition encoder_2048 : LDPCEncoder :=
  let s := LDPCEncoder_new (Some (mkCodeParameters (1 # 2) 2048 50 (1 # 1000000)))
             true true 256 in
  set_tracker s
    (record_decoding (performance_tracker s)
       (mkDecodingResult true (Some []) 1 (Norm_sqrt 0) [] 0 0) 0).

(** C9, as stated, fails: the switch from STANDARD to FAST turns a block
    length of 2048 into 1024. *)
Lemma mode_change_resets_block_length :
  let s' := _adapt_code_parameters encoder_2048 0 in
  _current_mode encoder_2048 = STANDARD /\
  _current_mode s' = FAST /\
  block_length (code_params encoder_2048) = 2048 /\
  block_length (code_params s') = 1024.
Proof. vm_compute. auto. Qed.

(** C9, amended.  Whenever [_adapt_code_parameters] changes the mode, the
    new parameters carry the code rate and the block length of the new
    mode's table entry (the block length is 1024 for every mode), the
    iteration cap and the syndrome threshold are the previous ones, and both
    the matrix cache and its access times are empty. *)
Theorem adapt_mode_change (s : LDPCEncoder) (now : Q) :
  let s' := _adapt_code_parameters s now in
  _current_mode s' <> _current_mode s ->
  code_rate (code_params s') = (mode_params (_current_mode s')).1 /\
  block_length (code_params s') = 1024 /\
  max_iterations (code_params s') = max_iterations (code_params s) /\
  syndrome_threshold (code_params s') = syndrome_threshold (code_params s) /\
  _matrix_cache s' = [] /\ _cache_access_times s' = [].
Proof.
  cbn zeta. unfold _adapt_code_parameters.
  destruct (negb (enable_adaptive_mode s) || negb (enable_performance_tracking s));
    [congruence |].
  destruct (decide _) as [Hne | Heq]; [| congruence].
  destruct (_switch_to_mode s _) as [e | s1] eqn:Hsw; [congruence |].
  apply switch_to_mode_params in Hsw as (Hr & Hn & Hit & Hth & Hc & Ht & Hm).
  intros _. cbn.
  repeat split; try assumption.
  rewrite Hn. by destruct (mode_for _).
Qed.

Lemma adapt_mode_change_witness :
  let s' := _adapt_code_parameters encoder_2048 0 in
  _current_mode s' <> _current_mode encoder_2048 /\
  block_length (code_params s') = 1024 /\
  max_iterations (code_params s') = 50 /\
  _matrix_cache s' = [].
Proof.
  assert (Hne : _current_mode (_adapt_code_parameters encoder_2048 0)
                <> _current_mode encoder_2048) by (vm_compute; discriminate).
  destruct (adapt_mode_change encoder_2048 0 Hne) as (_ & Hn & Hit & _ & Hc & _).
  cbn zeta. repeat split; assumption.
Defined.

(** *** Properties of [encode] and [decode] *)

Section CodecProperties.

Variable md5 : list Z -> string.

Lemma toarray_of_product_raises (x : result np_value) (v : list Z) :
  x = ret (ndarray v) \/ (exists e, x = raise e) ->
  exists e, (product <- x ;; toarray_flatten (np_mod2 product)) = inl e.
Proof. intros [-> | [e ->]]; cbn; eauto. Qed.

Lemma ndarray_matmul_sp_dense (v : list Z) (M : sp_matrix) :
  (exists w, ndarray_matmul_sp v M = ret (ndarray w)) \/
  (exists e, ndarray_matmul_sp v M = raise e).
Proof. unfold ndarray_matmul_sp. destruct (decide _); eauto. Qed.

Lemma sp_matmul_ndarray_dense (M : sp_matrix) (v : list Z) :
  (exists w, sp_matmul_ndarray M v = ret (ndarray w)) \/
  (exists e, sp_matmul_ndarray M v = raise e).
Proof. unfold sp_matmul_ndarray. destruct (decide _); eauto. Qed.

(** The first block already fails: its encoded form is a dense array,
    on which [toarray] is looked up. *)
Lemma encode_loop_raises G binary_data k timeout_seconds clk i rest idx acc :
  exists e,
    encode_loop G binary_data k timeout_seconds clk (i :: rest) idx acc = inl e.
Proof.
  cbn [encode_loop].
  destruct (ndarray_matmul_sp_dense (slice binary_data i k) G) as [[w ->] | [e ->]];
    cbn; eauto.
Qed.

Lemma encode_body_raises (s : LDPCEncoder) data timeout_seconds d clk :
  exists e, (encode_body md5 s data timeout_seconds d clk).2 = inl e.
Proof.
  unfold encode_body.
  destruct (negb (is_binary data)); [cbn; eauto |].
  destruct (_get_matrices _ d clk) as [s1 [e | GH]]; cbn; [eauto |].
  destruct (_ =? 0); [eauto |].
  match goal with
  | |- context [range_step ?f 0 ?len ?st] => destruct (range_step f 0 len st) as [| i rest]
  end.
  - cbn. eauto.
  - match goal with
    | |- context [encode_loop ?G ?b ?k ?t ?c (i :: rest) ?idx ?acc] =>
        destruct (encode_loop_raises G b k t c i rest idx acc) as [e ->]
    end.
    cbn. eauto.
Qed.

(** C2.  [encode] never returns a codeword: every call ends in an
    exception (for a non-empty input, the [AttributeError] of looking up
    [toarray] on the dense product [block @ G]), so there is no output to
    hand to [decode]. *)
Theorem encode_always_raises (s : LDPCEncoder) data timeout_seconds d clk :
  exists s' e, encode md5 s data timeout_seconds d clk = (s', inl e).
Proof.
  unfold encode.
  destruct (encode_body_raises s data timeout_seconds d clk) as [e He].
  unfold encode_body in *.
  destruct (negb (is_binary data)); cbn in *.
  - injection He as <-. eauto.
  - destruct (_get_matrices _ d clk) as [s1 r1]. cbn in *. rewrite He. eauto.
Qed.

(** C2, on a concrete call: rate 1/2, block length 8, the bits [1,0,1,1]. *)
Example encode_1011_raises :
  exists s',
    encode md5
      (LDPCEncoder_new (Some (mkCodeParameters (1 # 2) 8 50 (1 # 1000000))) true true 256)
      [1; 0; 1; 1] 10
      (mkDraw [[0; 1; 2]; [0; 3; 4]; [0; 5; 6]; [1; 2; 3]]%nat (replicate 4 (replicate 4 0)))
      (mkClock 0 0 (fun _ => 0%Q) 0)
    = (s', inl (AttributeError "'numpy.ndarray' object has no attribute 'toarray'")).
Proof. eexists. vm_compute. reflexivity. Qed.

Lemma CodeParameters_new_inv r n it th cp :
  CodeParameters_new r n it th = inr cp ->
  cp = mkCodeParameters r n it th /\ 0 < n /\ 0 < it.
Proof.
  unfold CodeParameters_new.
  destruct (negb _); [discriminate |].
  destruct (n <=? 0) eqn:Hn; [discriminate |].
  destruct (it <=? 0) eqn:Hit; [discriminate |].
  intros [= <-]. repeat split; lia.
Qed.

(** With at least one iteration allowed, the block decoder leaves through
    its exception handler: the syndrome [(H @ block) % 2] is a dense array. *)
Lemma decode_block_falls_back (cp : CodeParameters) received_block H k :
  0 < max_iterations cp ->
  _decode_block cp received_block H k =
    (if k <=? Z.of_nat (length received_block)
     then slice_to received_block k else received_block,
     0, Norm_inf, []).
Proof.
  intros Hit. unfold _decode_block.
  destruct (Z.to_nat (max_iterations cp)) as [| n] eqn:Hn; [lia |].
  cbn [decode_iterations].
  destruct (toarray_of_product_raises (sp_matmul_ndarray H received_block))
    with (v := match sp_matmul_ndarray H received_block with
               | inr (ndarray w) => w | _ => [] end) as [e ->].
  - destruct (sp_matmul_ndarray_dense H received_block) as [[w ->] | [e ->]]; eauto.
  - reflexivity.
Qed.

Lemma decode_loop_iterations (cp : CodeParameters) H k n encoded_data timeout_seconds clk
    offsets idx blocks total nrm errs blocks' total' nrm' errs' :
  0 < max_iterations cp ->
  decode_loop cp H k n encoded_data timeout_seconds clk offsets idx blocks total nrm errs
    = inr (blocks', total', nrm', errs') ->
  total' = total /\ errs' = errs.
Proof.
  intros Hit.
  revert idx blocks total nrm errs.
  induction offsets as [| i rest IH]; intros idx blocks total nrm errs; cbn [decode_loop].
  - intros [= <- <- <- <-]. auto.
  - destruct (Qltb _ _); [discriminate |].
    rewrite decode_block_falls_back by assumption.
    intros Hloop. apply IH in Hloop as [-> ->].
    split; [lia | apply app_nil_r].
Qed.

Lemma get_matrices_code_params (s : LDPCEncoder) d clk :
  code_params (_get_matrices s d clk).1 = code_params s.
Proof.
  unfold _get_matrices.
  destruct (dict_get _ _); [reflexivity |].
  destruct (_generate_ldpc_matrices _ _ _ _); [reflexivity |].
  destruct (_ <? _)%nat; [reflexivity |].
  destruct (dict_argmin _) as [[? ?] |]; reflexivity.
Qed.

Lemma decode_failed_spec (s : LDPCEncoder) clk :
  exists s',
    decode_failed s clk =
      (s', inr (mkDecodingResult false None 0 Norm_inf []
                  ((t_end clk - t_start clk) * 1000)%Q 1%Q)) /\
    code_params s' = code_params s.
Proof.
  unfold decode_failed. eexists. split; [reflexivity |].
  cbn. destruct (enable_performance_tracking s); reflexivity.
Qed.

Lemma decode_try_iterations (s s' : LDPCEncoder) encoded_data metadata ol pb
    timeout_seconds d clk r :
  0 < max_iterations (code_params s) ->
  decode_try md5 s encoded_data metadata ol pb timeout_seconds d clk = (s', inr r) ->
  iterations_used r = 0.
Proof.
  intros Hit. unfold decode_try.
  destruct (_get_matrices s d clk) as [s1 [e | GH]]; cbn [bind]; [discriminate |].
  destruct (decode_loop _ _ _ _ _ _ _ _ _ _ _ _ _) as [e | [[[bl tot] nrm] errs]] eqn:Hloop;
    cbn [bind]; [discriminate |].
  apply decode_loop_iterations in Hloop as [-> ->]; [| assumption].
  destruct (np_concatenate bl); cbn [bind]; [discriminate |].
  destruct (guarded_padding pb); cbn [bind]; [discriminate |].
  destruct (as_int ol); cbn [bind]; [discriminate |].
  cbn [ret]. intros [= _ <-]. reflexivity.
Qed.

(** Every call of [decode] returns a [DecodingResult]; none raises. *)
Lemma decode_returns (s : LDPCEncoder) encoded_data metadata timeout_seconds d clk :
  exists s' r, decode md5 s encoded_data metadata timeout_seconds d clk = (s', inr r).
Proof.
  unfold decode.
  destruct (metadata !! "original_length") as [ol |].
  2: { destruct (decode_failed_spec s clk) as (s' & -> & _). eauto. }
  destruct (bind _ _) as [e | temporary].
  { destruct (decode_failed_spec s clk) as (s' & -> & _). eauto. }
  destruct (decode_try _ _ _ _ _ _ _ _ _) as [s1 [e | r]].
  - destruct (decode_failed_spec (set_code_params s1 (code_params s)) clk) as (s' & -> & _).
    eauto.
  - eauto.
Qed.

(** A timeout noticed at the first block ends in a failed result. *)
Lemma decode_timeout_fails (s : LDPCEncoder) x rest metadata timeout_seconds d clk :
  Qltb timeout_seconds (t_loop clk 0 - t_start clk)%Q = true ->
  exists s',
    decode md5 s (x :: rest) metadata timeout_seconds d clk =
      (s', inr (mkDecodingResult false None 0 Norm_inf []
                  ((t_end clk - t_start clk) * 1000)%Q 1%Q)).
Proof.
  intros Hlate. unfold decode.
  destruct (metadata !! "original_length") as [ol |].
  2: { destruct (decode_failed_spec s clk) as (s' & -> & _). eauto. }
  destruct (bind _ _) as [e | temporary].
  { destruct (decode_failed_spec s clk) as (s' & -> & _). eauto. }
  unfold decode_try.
  destruct (_get_matrices _ d clk) as [s1 [e | GH]]; cbn [bind length range_step].
  - destruct (decode_failed_spec (set_code_params s1 (code_params s)) clk) as (s' & -> & _).
    eauto.
  - cbn [Nat.ltb Nat.leb decode_loop]. rewrite Hlate. cbn [bind raise].
    destruct (decode_failed_spec (set_code_params s1 (code_params s)) clk) as (s' & -> & _).
    eauto.
Qed.

(** C6.  Metadata without [original_length] does not make [decode] raise:
    the [ValueError] is raised inside the [try] whose handler turns every
    exception into a failed [DecodingResult]. *)
Theorem decode_missing_original_length (s : LDPCEncoder) encoded_data metadata
    timeout_seconds d clk :
  exists s',
    decode md5 s encoded_data (delete "original_length" metadata) timeout_seconds d clk =
      (s', inr (mkDecodingResult false None 0 Norm_inf []
                  ((t_end clk - t_start clk) * 1000)%Q 1%Q)).
Proof.
  unfold decode. rewrite lookup_delete_eq.
  destruct (decode_failed_spec s clk) as (s' & -> & _). eauto.
Qed.

(** C7.  The iteration count reported by [decode] is at most the
    configured [max_iterations], whatever the number of blocks: every block
    contributes [0], because the block decoder leaves through its exception
    handler, and a failed result reports [0] as well. *)
Theorem decode_iterations_bounded (s : LDPCEncoder) encoded_data metadata
    timeout_seconds d clk :
  0 < max_iterations (code_params s) ->
  exists s' r,
    decode md5 s encoded_data metadata timeout_seconds d clk = (s', inr r) /\
    iterations_used r <= max_iterations (code_params s).
Proof.
  intros Hit. unfold decode.
  destruct (metadata !! "original_length") as [ol |].
  2: { destruct (decode_failed_spec s clk) as (s' & -> & _).
       eexists _, _. split; [reflexivity | cbn; lia]. }
  destruct (bind _ _) as [e | temporary] eqn:Htmp.
  { destruct (decode_failed_spec s clk) as (s' & -> & _).
    eexists _, _. split; [reflexivity | cbn; lia]. }
  assert (Htemp : 0 < max_iterations temporary).
  { destruct (as_number _) as [| r]; [discriminate |].
    destruct (as_int _) as [| n]; [discriminate |].
    cbn in Htmp. apply CodeParameters_new_inv in Htmp as (-> & _ & ?). assumption. }
  destruct (decode_try _ _ _ _ _ _ _ _ _) as [s1 [e | r]] eqn:Htry.
  - destruct (decode_failed_spec (set_code_params s1 (code_params s)) clk) as (s' & -> & _).
    eexists _, _. split; [reflexivity | cbn; lia].
  - apply decode_try_iterations in Htry; [| exact Htemp].
    eexists _, _. split; [reflexivity | lia].
Qed.

(** C10.  [decode] leaves [code_params] as it found it, on every path. *)
Theorem decode_restores_code_params (s : LDPCEncoder) encoded_data metadata
    timeout_seconds d clk :
  code_params (decode md5 s encoded_data metadata timeout_seconds d clk).1 = code_params s.
Proof.
  unfold decode.
  destruct (metadata !! "original_length") as [ol |].
  2: { destruct (decode_failed_spec s clk) as (s' & -> & Hcp). exact Hcp. }
  destruct (bind _ _) as [e | temporary].
  { destruct (decode_failed_spec s clk) as (s' & -> & Hcp). exact Hcp. }
  destruct (decode_try _ _ _ _ _ _ _ _ _) as [s1 [e | r]].
  - destruct (decode_failed_spec (set_code_params s1 (code_params s)) clk)
      as (s' & -> & Hcp).
    exact Hcp.
  - reflexivity.
Qed.

End CodecProperties.

Definition demo_encoder : LDPCEncoder :=
  LDPCEncoder_new (Some (mkCodeParameters (1 # 2) 8 50 (1 # 1000000))) true true 256.

Definition demo_draw : Draw :=
  mkDraw [[0; 1; 2]; [0; 3; 4]; [0; 5; 6]; [1; 2; 3]]%nat (replicate 4 (replicate 4 0)).

Definition demo_clock : Clock := mkClock 0 0 (fun _ => 0%Q) 0.

Definition demo_metadata : gmap string pyval :=
  <["original_length" := VInt 4]> (<["padding_bits" := VInt 0]> ∅).

Lemma decode_iterations_bounded_witness :
  0 < max_iterations (code_params demo_encoder) /\
  exists s' r,
    decode (fun _ => "") demo_encoder
      [1; 0; 0; 0; 0; 0; 0; 0; 0; 1; 0; 0; 0; 0; 0; 0] demo_metadata 30
      demo_draw demo_clock = (s', inr r) /\
    iterations_used r <= 50.
Proof.
  split; [reflexivity |].
  apply (decode_iterations_bounded (fun _ => "") demo_encoder
           [1; 0; 0; 0; 0; 0; 0; 0; 0; 1; 0; 0; 0; 0; 0; 0] demo_metadata 30
           demo_draw demo_clock).
  reflexivity.
Defined.

(** *** Further properties of the generator *)

Lemma generate_inv (limit : Z) d rate n G H :
  _generate_ldpc_matrices limit d rate n = inr (G, H) ->
  let k := int_of_Q (inject_Z n * rate) in
  G = mkSp (Z.to_nat k) (Z.to_nat n)
        (map (fun i => G_row (Z.to_nat k) i (nth i (random_P d) [])) (seq 0 (Z.to_nat k))) /\
  H = mkSp (Z.to_nat (n - k)) (Z.to_nat n)
        (map (fun i => H_row (Z.to_nat n) (nth i (choice_cols d) []))
             (seq 0 (Z.to_nat (n - k)))) /\
  k * n <> 0 /\ (n - k) * n <> 0.
Proof.
  unfold _generate_ldpc_matrices. cbn zeta.
  destruct (limit <? _); [done |]. destruct (_ && _); [done |].
  destruct (_ || _) eqn:Hz; [done |].
  apply orb_false_iff in Hz as [Hm Hk]. apply Z.eqb_neq in Hm, Hk.
  intros [= <- <-]. done.
Qed.

(** The dot product with the [j]-th unit vector. *)
Lemma dot_unit (b : list Z) (j off : nat) :
  dot b (map (fun i => if decide (j = i) then 1 else 0) (seq off (length b))) =
    if decide (off <= j < off + length b)%nat then nth (j - off) b 0 else 0.
Proof.
  unfold dot. revert off.
  induction b as [| x b IH]; intros off; cbn [length seq map zip_with foldr].
  - rewrite decide_False by lia. done.
  - rewrite IH.
    destruct (decide (j = off)) as [-> | Hne].
    + rewrite Nat.sub_diag. rewrite decide_False by lia. rewrite decide_True by lia. cbn. lia.
    + destruct (decide (S off <= j < S off + length b)%nat) as [Hin | Hout].
      * rewrite decide_True by lia.
        replace (j - off)%nat with (S (j - S off)) by lia. cbn. lia.
      * rewrite decide_False by lia. lia.
Qed.

Lemma column_G (k : nat) (P : list (list Z)) (j : nat) :
  (j < k)%nat ->
  map (fun row => nth j row 0) (map (fun i => G_row k i (nth i P [])) (seq 0 k)) =
  map (fun i => if decide (j = i) then 1 else 0) (seq 0 k).
Proof.
  intros Hj. rewrite map_map. apply map_ext_in. intros i _.
  unfold G_row. rewrite nth_lookup.
  rewrite lookup_app_l by (rewrite length_map, length_seq; lia).
  rewrite list_lookup_fmap, lookup_seq_lt by done. done.
Qed.

(** X1.  The generator matrix is systematic.  For the [G] that
    [_generate_ldpc_matrices] returns, with [k = int(n * rate)] at most [n],
    and a block [b] of [k] bits, [(b @ G) % 2] is a dense array of [n]
    bits whose first [k] entries are [b] itself. *)
Theorem generated_G_systematic (limit : Z) d rate n G H (b : list Z) :
  let k := int_of_Q (inject_Z n * rate) in
  _generate_ldpc_matrices limit d rate n = inr (G, H) ->
  k <= n ->
  length b = Z.to_nat k -> Forall (fun z => z = 0 \/ z = 1) b ->
  (exists product, ndarray_matmul_sp b G = inr product /\
                   np_mod2 product = ndarray (encode_block b G)) /\
  length (encode_block b G) = Z.to_nat n /\
  take (Z.to_nat k) (encode_block b G) = b.
Proof.
  intros k Hgen Hkn Hlen Hbits.
  apply generate_inv in Hgen as (-> & _ & Hk & _). fold k in Hk |- *.
  split_and!.
  - unfold ndarray_matmul_sp, encode_block. cbn [nrows ncols].
    rewrite decide_True by done. eexists. split; [reflexivity |]. cbn. by rewrite map_map.
  - unfold encode_block. cbn [ncols]. by rewrite length_map, length_seq.
  - unfold encode_block. cbn [ncols].
    replace (Z.to_nat n) with (Z.to_nat k + (Z.to_nat n - Z.to_nat k))%nat by lia.
    rewrite seq_app, map_app, take_app_length' by (by rewrite length_map, length_seq).
    apply list_eq. intros j.
    destruct (decide (j < Z.to_nat k)%nat) as [Hj | Hj].
    2: { rewrite !lookup_ge_None_2; [done | lia | rewrite length_map, length_seq; lia]. }
    rewrite list_lookup_fmap, lookup_seq_lt by done. cbn.
    unfold column. cbn [rows]. rewrite column_G by done.
    rewrite <- Hlen in Hj |- *. rewrite dot_unit, decide_True by lia.
    rewrite Nat.sub_0_r.
    destruct (lookup_lt_is_Some_2 b j) as [x Hx]; [lia |].
    rewrite (nth_lookup_Some _ _ _ _ Hx), Hx. f_equal.
    by destruct (Forall_lookup_1 _ _ _ _ Hbits Hx) as [-> | ->].
Qed.

Lemma sum_indicator (c off n : nat) :
  foldr Z.add 0 (map (fun j => if decide (c = j) then 1 else 0) (seq off n)) =
    if decide (off <= c < off + n)%nat then 1 else 0.
Proof.
  revert off. induction n as [| n IH]; intros off; cbn [seq map foldr].
  - by rewrite decide_False by lia.
  - rewrite IH. destruct (decide (c = off)) as [-> | Hne].
    + rewrite decide_False by lia. by rewrite decide_True by lia.
    + destruct (decide (S off <= c < S off + n)%nat).
      * by rewrite decide_True by lia.
      * by rewrite decide_False by lia.
Qed.

Lemma sum_add (f g : nat -> Z) (l : list nat) :
  foldr Z.add 0 (map (fun j => f j + g j) l) =
    foldr Z.add 0 (map f l) + foldr Z.add 0 (map g l).
Proof. induction l as [| x l IH]; cbn; lia. Qed.

Lemma count_cons (c j : nat) (cols : list nat) :
  Z.of_nat (length (filter (fun c' => c' = j) (c :: cols))) =
    (if decide (c = j) then 1 else 0) + Z.of_nat (length (filter (fun c' => c' = j) cols)).
Proof. rewrite filter_cons. destruct (decide (c = j)); cbn [length]; lia. Qed.

(** Every drawn column is counted once. *)
Lemma count_sum (cols : list nat) (n : nat) :
  Forall (fun j => (j < n)%nat) cols ->
  foldr Z.add 0 (map (fun j => Z.of_nat (length (filter (fun c => c = j) cols))) (seq 0 n)) =
    Z.of_nat (length cols).
Proof.
  induction 1 as [| c cols Hc _ IH].
  - cbn. induction (seq 0 n); cbn; lia.
  - rewrite (map_ext _ _ (fun j => count_cons c j cols)).
    rewrite sum_add, IH, sum_indicator, decide_True by lia. cbn [length]. lia.
Qed.

Lemma count_absent (cols : list nat) (j : nat) :
  j ∉ cols -> filter (fun c => c = j) cols = [].
Proof.
  induction cols as [| c cols IH]; [done |].
  intros [Hne Hrest]%not_elem_of_cons.
  rewrite filter_cons, decide_False by done. by apply IH.
Qed.

Lemma count_NoDup (cols : list nat) (j : nat) :
  NoDup cols -> (length (filter (fun c => c = j) cols) <= 1)%nat.
Proof.
  induction 1 as [| c cols Hc _ IH]; [cbn; lia |].
  rewrite filter_cons. destruct (decide (c = j)) as [-> | Hne]; [| done].
  rewrite count_absent by done. cbn. lia.
Qed.

Lemma H_row_spec (n : nat) (cols : list nat) :
  NoDup cols -> Forall (fun j => (j < n)%nat) cols ->
  length (H_row n cols) = n /\
  Forall (fun z => z = 0 \/ z = 1) (H_row n cols) /\
  foldr Z.add 0 (H_row n cols) = Z.of_nat (length cols).
Proof.
  intros Hnd Hlt.
  assert (Hsmall : forall j,
            uint8 (Z.of_nat (length (filter (fun c => c = j) cols))) =
            Z.of_nat (length (filter (fun c => c = j) cols))).
  { intros j. pose proof (count_NoDup cols j Hnd). unfold uint8.
    apply Z.mod_small. lia. }
  unfold H_row. rewrite (map_ext _ _ Hsmall).
  split_and!.
  - by rewrite length_map, length_seq.
  - apply Forall_fmap, Forall_seq. intros j _. cbn.
    pose proof (count_NoDup cols j Hnd). lia.
  - by apply count_sum.
Qed.

(** X2.  Every row of the generated parity-check matrix [H] has [n]
    entries, all 0 or 1, exactly [row_weight = max(3, int(sqrt(n) / 2))] of
    them being 1; [H] has [n - k] rows. *)
Theorem generated_H_row_weight (limit : Z) d rate n G H :
  let k := int_of_Q (inject_Z n * rate) in
  _generate_ldpc_matrices limit d rate n = inr (G, H) ->
  valid_draw k n d ->
  length (rows H) = Z.to_nat (n - k) /\
  Forall (fun row => length row = Z.to_nat n /\
                     Forall (fun z => z = 0 \/ z = 1) row /\
                     foldr Z.add 0 row = row_weight_of n) (rows H).
Proof.
  intros k Hgen (Hrows & Hcols & _).
  apply generate_inv in Hgen as (_ & -> & _). fold k. cbn [rows].
  split; [by rewrite length_map, length_seq |].
  apply Forall_fmap, Forall_seq. intros i Hi. cbn.
  destruct (lookup_lt_is_Some_2 (choice_cols d) i) as [cols Hc]; [lia |].
  rewrite (nth_lookup_Some _ _ _ _ Hc).
  destruct (Forall_lookup_1 _ _ _ _ Hcols Hc) as (Hlen & Hnd & Hlt).
  destruct (H_row_spec (Z.to_nat n) cols Hnd Hlt) as (H1 & H2 & H3).
  split_and!; [done | done |].
  rewrite H3, Hlen. unfold row_weight_of. lia.
Qed.

(** *** The matrix cache *)

Lemma key_eqb_refl (k : cache_key) : key_eqb k k = true.
Proof.
  unfold key_eqb. rewrite Z.eqb_refl, andb_true_r. apply Qeq_bool_iff. reflexivity.
Qed.

Lemma dict_get_set_eq {V} (d : list (cache_key * V)) key v :
  dict_get (dict_set d key v) key = Some v.
Proof.
  induction d as [| [k' v'] d IH]; cbn.
  - by rewrite key_eqb_refl.
  - destruct (key_eqb k' key) eqn:E; cbn; by rewrite E.
Qed.

Lemma dict_set_keys {V W} (d : list (cache_key * V)) (e : list (cache_key * W)) key v w :
  d.*1 = e.*1 -> (dict_set d key v).*1 = (dict_set e key w).*1.
Proof.
  revert e. induction d as [| [k1 v1] d IH]; intros [| [k2 w2] e]; cbn; try done.
  intros [= -> Hrest]. destruct (key_eqb k2 key); cbn; [by rewrite Hrest |].
  f_equal. by apply IH.
Qed.

Lemma dict_del_keys {V W} (d : list (cache_key * V)) (e : list (cache_key * W)) key :
  d.*1 = e.*1 -> (dict_del d key).*1 = (dict_del e key).*1.
Proof.
  unfold dict_del.
  revert e. induction d as [| [k1 v1] d IH]; intros [| [k2 w2] e] Hk; try done.
  cbn in Hk. injection Hk as -> Hrest. rewrite !filter_cons. cbn.
  destruct (decide (key_eqb k2 key = false)); cbn; [f_equal |]; by apply IH.
Qed.

Lemma dict_set_keys_present {V W} (d : list (cache_key * V)) (e : list (cache_key * W))
    key v w :
  dict_get d key = Some v -> d.*1 = e.*1 -> (dict_set e key w).*1 = e.*1.
Proof.
  revert e. induction d as [| [k1 v1] d IH]; intros [| [k2 w2] e] Hget Hk; try done.
  cbn in *. injection Hk as -> Hrest.
  destruct (key_eqb k2 key); cbn; [done |]. f_equal. by apply IH.
Qed.

Lemma dict_set_length {V} (d : list (cache_key * V)) key v :
  (length (dict_set d key v) <= S (length d))%nat.
Proof.
  induction d as [| [k' v'] d IH]; cbn; [lia |].
  destruct (key_eqb k' key); cbn; lia.
Qed.

Lemma dict_del_length {V} (d : list (cache_key * V)) key :
  key ∈ d.*1 -> (length (dict_del d key) < length d)%nat.
Proof.
  unfold dict_del. induction d as [| [k' v'] d IH].
  - intros Hin. by apply elem_of_nil in Hin.
  - rewrite filter_cons. cbn. intros Hin.
    pose proof (length_filter (fun kv : cache_key * V => key_eqb kv.1 key = false) d).
    destruct (decide (key_eqb k' key = false)) as [Hne | _]; cbn; [| lia].
    apply elem_of_cons in Hin as [-> | Hin].
    + by rewrite key_eqb_refl in Hne.
    + specialize (IH Hin). lia.
Qed.

Lemma dict_argmin_elem (d : list (cache_key * Q)) k t :
  dict_argmin d = Some (k, t) -> (k, t) ∈ d.
Proof.
  revert k t. induction d as [| [k' v] d IH]; intros k t; cbn; [done |].
  destruct (dict_argmin d) as [[k2 v2] |].
  - destruct (Qltb v2 v); intros [= <- <-]; [right; by apply IH | by left].
  - intros [= <- <-]. by left.
Qed.

(** The entry chosen for eviction has the least access time. *)
Lemma dict_argmin_least (d : list (cache_key * Q)) k t :
  dict_argmin d = Some (k, t) -> forall k' t', (k', t') ∈ d -> (t <= t')%Q.
Proof.
  revert k t. induction d as [| [k0 v] d IH]; intros k t; cbn; [done |].
  destruct (dict_argmin d) as [[k2 v2] |] eqn:Hmin.
  - specialize (IH _ _ eq_refl).
    destruct (Qltb v2 v) eqn:Hlt; intros [= <- <-] k' t' Hin;
      apply elem_of_cons in Hin as [[= -> ->] | Hin].
    + unfold Qltb in Hlt. apply negb_true_iff in Hlt.
      destruct (Qlt_le_dec v2 v) as [? | Hle]; [by apply Qlt_le_weak |].
      apply Qle_bool_iff in Hle. congruence.
    + by eapply IH.
    + apply Qle_refl.
    + unfold Qltb in Hlt. apply negb_false_iff, Qle_bool_iff in Hlt.
      eapply Qle_trans; [exact Hlt | by eapply IH].
  - destruct d as [| [k3 v3] d]; [| cbn in Hmin; destruct (dict_argmin d) as [[? ?] |];
                                    [destruct (Qltb _ _) |]; done].
    intros [= <- <-] k' t' Hin. apply list_elem_of_singleton in Hin as [= -> ->].
    apply Qle_refl.
Qed.

(** The two dictionaries of the cache list the same keys, and there are
    at most five of them. *)
Definition cache_inv (s : LDPCEncoder) : Prop :=
  (_matrix_cache s).*1 = (_cache_access_times s).*1 /\
  (length (_matrix_cache s) <= 5)%nat.

Lemma get_matrices_cache_inv (s : LDPCEncoder) d clk :
  cache_inv s -> cache_inv (_get_matrices s d clk).1.
Proof.
  intros [Hkeys Hlen]. unfold _get_matrices.
  set (key := (code_rate (code_params s), block_length (code_params s))).
  destruct (dict_get _ _) as [GH |] eqn:Hget.
  - split; cbn; [| done].
    rewrite Hkeys. symmetry. by eapply dict_set_keys_present.
  - destruct (_generate_ldpc_matrices _ _ _ _) as [e | GH]; [done |].
    destruct (length (_matrix_cache s) <? 5)%nat eqn:Hroom.
    + apply Nat.ltb_lt in Hroom. split; cbn.
      * by apply dict_set_keys.
      * pose proof (dict_set_length (_matrix_cache s) key GH). lia.
    + destruct (dict_argmin _) as [[oldest_key t] |] eqn:Hmin; [| done].
      split; cbn.
      * by apply dict_set_keys, dict_del_keys.
      * pose proof (dict_set_length (dict_del (_matrix_cache s) oldest_key) key GH).
        apply dict_argmin_elem in Hmin.
        assert (oldest_key ∈ (_matrix_cache s).*1).
        { rewrite Hkeys. apply list_elem_of_fmap. by exists (oldest_key, t). }
        pose proof (dict_del_length (_matrix_cache s) oldest_key H0). lia.
Qed.

Lemma set_caches_id (s : LDPCEncoder) :
  set_caches s (_matrix_cache s) (_cache_access_times s) = s.
Proof. by destruct s. Qed.

(** [_get_matrices] writes the two dictionaries of the cache only. *)
Lemma get_matrices_frame (s : LDPCEncoder) d clk :
  exists cache times, (_get_matrices s d clk).1 = set_caches s cache times.
Proof.
  unfold _get_matrices.
  destruct (dict_get _ _); [by eexists _, _ |].
  destruct (_generate_ldpc_matrices _ _ _ _); [eexists _, _; by rewrite set_caches_id |].
  destruct (_ <? _)%nat; [by eexists _, _ |].
  destruct (dict_argmin _) as [[? ?] |]; [by eexists _, _ |].
  eexists _, _; by rewrite set_caches_id.
Qed.

(** X4.  A call of [_get_matrices] that raises leaves the encoder as it
    was: neither cache dictionary is written. *)
Theorem get_matrices_failure_unchanged (s : LDPCEncoder) d clk e :
  (_get_matrices s d clk).2 = inl e -> (_get_matrices s d clk).1 = s.
Proof.
  unfold _get_matrices.
  destruct (dict_get _ _); [done |].
  destruct (_generate_ldpc_matrices _ _ _ _); [done |].
  destruct (_ <? _)%nat; [done |].
  by destruct (dict_argmin _) as [[? ?] |].
Qed.

Lemma get_matrices_cached_after (s : LDPCEncoder) d clk GH :
  (_get_matrices s d clk).2 = inr GH ->
  dict_get (_matrix_cache (_get_matrices s d clk).1)
    (code_rate (code_params s), block_length (code_params s)) = Some GH.
Proof.
  unfold _get_matrices.
  destruct (dict_get _ _) as [GH0 |] eqn:Hget; [by intros [= <-] |].
  destruct (_generate_ldpc_matrices _ _ _ _) as [| GH0]; [done |].
  destruct (_ <? _)%nat; [intros [= <-]; apply dict_get_set_eq |].
  destruct (dict_argmin _) as [[? ?] |]; [| done].
  intros [= <-]. apply dict_get_set_eq.
Qed.

(** X5.  After a successful [_get_matrices], a second call under the same
    code parameters returns the same pair of matrices, whatever the random
    generator would draw, and leaves the matrix cache as it is. *)
Theorem get_matrices_cache_hit (s : LDPCEncoder) d clk GH d' clk' :
  (_get_matrices s d clk).2 = inr GH ->
  (_get_matrices (_get_matrices s d clk).1 d' clk').2 = inr GH /\
  _matrix_cache (_get_matrices (_get_matrices s d clk).1 d' clk').1 =
    _matrix_cache (_get_matrices s d clk).1.
Proof.
  intros Hok. pose proof (get_matrices_cached_after s d clk GH Hok) as Hget.
  rewrite <- (get_matrices_code_params s d clk) in Hget.
  set (s1 := (_get_matrices s d clk).1) in *.
  unfold _get_matrices. by rewrite Hget.
Qed.

(** X3.  The memory estimate of [_generate_ldpc_matrices] does not depend
    on the code rate: [(n * k + n * m) * 8] is [8 * n * n], and the call
    raises [MemoryError] exactly when the limit is below that. *)
Theorem generate_memory_estimate (limit : Z) d rate n :
  _generate_ldpc_matrices limit d rate n = inl MemoryError <-> limit < 8 * n * n.
Proof.
  unfold _generate_ldpc_matrices.
  set (k := int_of_Q (inject_Z n * rate)).
  replace ((n * k + n * (n - k)) * 8) with (8 * n * n) by lia.
  destruct (limit <? 8 * n * n) eqn:Hlim.
  - apply Z.ltb_lt in Hlim. done.
  - apply Z.ltb_ge in Hlim.
    split; [| lia].
    destruct (_ && _); [done |]. destruct (_ || _); done.
Qed.

(** *** Adaptation *)

Lemma switch_to_mode_ok (s : LDPCEncoder) mode :
  0 < max_iterations (code_params s) -> exists s', _switch_to_mode s mode = inr s'.
Proof.
  intros Hit. apply Z.leb_gt in Hit.
  unfold _switch_to_mode.
  destruct mode; cbn [mode_params]; unfold CodeParameters_new; rewrite Hit; cbn; eauto.
Qed.

(** X7.  [_adapt_code_parameters] is idempotent: with no decode recorded
    in between, a second call changes nothing. *)
Theorem adapt_idempotent (s : LDPCEncoder) (now now' : Q) :
  _adapt_code_parameters (_adapt_code_parameters s now) now' = _adapt_code_parameters s now.
Proof.
  destruct (negb (enable_adaptive_mode s) || negb (enable_performance_tracking s)) eqn:Hoff.
  { unfold _adapt_code_parameters. by rewrite !Hoff. }
  destruct (decide (mode_for (get_current_channel_condition (performance_tracker s))
                    <> _current_mode s)) as [Hne | Heq].
  2: { unfold _adapt_code_parameters. rewrite Hoff, decide_False by done.
       by rewrite Hoff, decide_False by done. }
  destruct (_switch_to_mode s (mode_for (get_current_channel_condition (performance_tracker s))))
    as [e | s1] eqn:Hsw.
  { unfold _adapt_code_parameters. rewrite Hoff, decide_True, Hsw by done.
    by rewrite Hoff, decide_True, Hsw by done. }
  assert (Hs1 : exists cp, s1 = set_caches (set_code_params s cp) [] []).
  { unfold _switch_to_mode in Hsw.
    destruct (mode_params _) as [new_rate new_length].
    destruct (CodeParameters_new _ _ _ _) as [| cp]; [done |].
    cbn in Hsw. injection Hsw as <-. eauto. }
  destruct Hs1 as [cp ->].
  unfold _adapt_code_parameters at 2 3. rewrite Hoff, decide_True, Hsw by done.
  unfold _adapt_code_parameters. cbn. rewrite Hoff.
  rewrite decide_False; [done |]. intros H. by apply H.
Qed.

Lemma adapt_mode (s : LDPCEncoder) (now : Q) :
  enable_adaptive_mode s = true -> enable_performance_tracking s = true ->
  0 < max_iterations (code_params s) ->
  _current_mode (_adapt_code_parameters s now) =
    mode_for (get_current_channel_condition (performance_tracker s)).
Proof.
  intros Ha Ht Hit. unfold _adapt_code_parameters. rewrite Ha, Ht. cbn [negb orb].
  destruct (decide _) as [Hne | Heq].
  - destruct (switch_to_mode_ok s
                (mode_for (get_current_channel_condition (performance_tracker s))) Hit)
      as [s1 ->].
    done.
  - by destruct (decide (mode_for (get_current_channel_condition (performance_tracker s))
                         = _current_mode s)) as [<- | ?].
Qed.

(** X8.  With adaptation and tracking enabled and a positive iteration
    cap, the mode after [_adapt_code_parameters] is the one assigned to the
    current channel condition, and it is never ADAPTIVE. *)
Theorem adapt_tracks_channel (s : LDPCEncoder) (now : Q) :
  enable_adaptive_mode s = true -> enable_performance_tracking s = true ->
  0 < max_iterations (code_params s) ->
  let s' := _adapt_code_parameters s now in
  _current_mode s' = mode_for (get_current_channel_condition (performance_tracker s)) /\
  _current_mode s' <> ADAPTIVE.
Proof.
  intros Ha Ht Hit. cbn zeta. rewrite adapt_mode by done.
  split; [done |]. by destruct (get_current_channel_condition _).
Qed.

Lemma adapt_cache_inv (s : LDPCEncoder) now :
  cache_inv s -> cache_inv (_adapt_code_parameters s now).
Proof.
  intros Hinv. unfold _adapt_code_parameters.
  destruct (_ || _); [done |]. destruct (decide _); [| done].
  destruct (_switch_to_mode s _) as [e | s1] eqn:Hsw; [done |].
  apply switch_to_mode_params in Hsw as (_ & _ & _ & _ & Hc & Ht & _).
  split; cbn; rewrite Hc; [by rewrite Ht | cbn; lia].
Qed.

(** *** What a call of [encode] or [decode] leaves behind *)

Lemma last_deque_append {A} (cap : nat) (l : list A) (x : A) :
  (0 < cap)%nat -> list.last (deque_append cap l x) = Some x.
Proof.
  intros Hcap. unfold deque_append.
  rewrite length_app. cbn [length].
  rewrite drop_app_le by lia. apply last_snoc.
Qed.

Lemma deque_append_length {A} (cap : nat) (l : list A) (x : A) :
  (length (deque_append cap l x) <= Nat.max cap 1)%nat.
Proof. unfold deque_append. rewrite length_drop, length_app. cbn. lia. Qed.

Lemma record_decoding_condition (t : PerformanceTracker) (r : DecodingResult) now :
  get_current_channel_condition (record_decoding t r now) = classify (bit_error_rate r).
Proof.
  unfold get_current_channel_condition, record_decoding, _assess_channel_condition.
  cbn [_channel_conditions]. by rewrite last_deque_append by lia.
Qed.

(** The result of the outer handler of [decode]. *)
Definition failed_result (clk : Clock) : DecodingResult :=
  mkDecodingResult false None 0 Norm_inf [] ((t_end clk - t_start clk) * 1000)%Q 1%Q.

Section Accounting.

Variable md5 : list Z -> string.

Lemma encode_body_state (s : LDPCEncoder) data timeout_seconds d clk :
  (encode_body md5 s data timeout_seconds d clk).1 =
    if is_binary data
    then (_get_matrices (_adapt_code_parameters s (t_start clk)) d clk).1
    else _adapt_code_parameters s (t_start clk).
Proof.
  unfold encode_body. destruct (is_binary data); cbn; [| done].
  by destruct (_get_matrices _ d clk).
Qed.

Lemma encode_state (s : LDPCEncoder) data timeout_seconds d clk :
  (encode md5 s data timeout_seconds d clk).1 =
    let s1 := (encode_body md5 s data timeout_seconds d clk).1 in
    set_failures s1 (_consecutive_failures s1 + 1) (t_end clk)
      (if 5 <? _consecutive_failures s1 + 1 then true else _degraded_mode s1).
Proof.
  unfold encode.
  destruct (encode_body_raises md5 s data timeout_seconds d clk) as [e He].
  destruct (encode_body md5 s data timeout_seconds d clk) as [s1 [e' | [? ?]]]; done.
Qed.

Lemma decode_failed_state (s : LDPCEncoder) clk :
  decode_failed s clk =
    (let s1 := set_failures s (_consecutive_failures s + 1) (t_end clk)
                 (if 3 <? _consecutive_failures s + 1 then true else _degraded_mode s) in
     if enable_performance_tracking s
     then set_tracker s1 (record_decoding (performance_tracker s) (failed_result clk) (t_end clk))
     else s1,
     inr (failed_result clk)).
Proof. done. Qed.

Lemma decode_try_result (s s' : LDPCEncoder) encoded_data metadata ol pb
    timeout_seconds d clk r :
  0 < max_iterations (code_params s) ->
  decode_try md5 s encoded_data metadata ol pb timeout_seconds d clk = (s', inr r) ->
  corrected_data r <> None /\ error_positions r = [] /\ iterations_used r = 0 /\
  (bit_error_rate r == 0)%Q /\
  s' = (let s1 := (_get_matrices s d clk).1 in
        let s2 := if enable_performance_tracking s1
                  then set_tracker s1 (record_decoding (performance_tracker s1) r (t_end clk))
                  else s1 in
        if success r then set_failures s2 0 (_last_failure_time s2) false else s2).
Proof.
  intros Hit. unfold decode_try.
  destruct (_get_matrices s d clk) as [s1 [e | GH]]; cbn [bind fst]; [discriminate |].
  destruct (decode_loop _ _ _ _ _ _ _ _ _ _ _ _ _) as [e | [[[bl tot] nrm] errs]] eqn:Hloop;
    cbn [bind]; [discriminate |].
  apply decode_loop_iterations in Hloop as [-> ->]; [| assumption].
  destruct (np_concatenate bl); cbn [bind]; [discriminate |].
  destruct (guarded_padding pb); cbn [bind]; [discriminate |].
  destruct (as_int ol); cbn [bind]; [discriminate |].
  cbn [ret]. intros [= <- <-]. cbn. split_and!; done.
Qed.

Lemma decode_try_error (s s' : LDPCEncoder) encoded_data metadata ol pb
    timeout_seconds d clk e :
  decode_try md5 s encoded_data metadata ol pb timeout_seconds d clk = (s', inl e) ->
  s' = (_get_matrices s d clk).1.
Proof.
  unfold decode_try.
  destruct (_get_matrices s d clk) as [s1 GH]. cbn [fst].
  destruct (bind GH _); [by intros [= <- _] | discriminate].
Qed.

(** The two ways in which [decode] ends. *)
Lemma decode_cases (s : LDPCEncoder) encoded_data metadata timeout_seconds d clk :
  exists s' r base,
    decode md5 s encoded_data metadata timeout_seconds d clk = (s', inr r) /\
    (base = s \/ exists temporary, base = (_get_matrices (set_code_params s temporary) d clk).1) /\
    _matrix_cache s' = _matrix_cache base /\
    _cache_access_times s' = _cache_access_times base /\
    enable_performance_tracking s' = enable_performance_tracking s /\
    performance_tracker s' =
      (if enable_performance_tracking s
       then record_decoding (performance_tracker s) r (t_end clk)
       else performance_tracker s) /\
    ((r = failed_result clk /\
      _consecutive_failures s' = _consecutive_failures s + 1 /\
      _degraded_mode s' =
        (if 3 <? _consecutive_failures s + 1 then true else _degraded_mode s)) \/
     (corrected_data r <> None /\ error_positions r = [] /\ iterations_used r = 0 /\
      (bit_error_rate r == 0)%Q /\
      _consecutive_failures s' = (if success r then 0 else _consecutive_failures s) /\
      _degraded_mode s' = (if success r then false else _degraded_mode s))).
Proof.
  assert (Hfail : forall base,
    (base = s \/ exists temporary, base = (_get_matrices (set_code_params s temporary) d clk).1) ->
    exists s' r base0,
      decode_failed (set_code_params base (code_params s)) clk = (s', inr r) /\
      (base0 = s \/
       exists temporary, base0 = (_get_matrices (set_code_params s temporary) d clk).1) /\
      _matrix_cache s' = _matrix_cache base0 /\
      _cache_access_times s' = _cache_access_times base0 /\
      enable_performance_tracking s' = enable_performance_tracking s /\
      performance_tracker s' =
        (if enable_performance_tracking s
         then record_decoding (performance_tracker s) r (t_end clk)
         else performance_tracker s) /\
      ((r = failed_result clk /\
        _consecutive_failures s' = _consecutive_failures s + 1 /\
        _degraded_mode s' =
          (if 3 <? _consecutive_failures s + 1 then true else _degraded_mode s)) \/
       (corrected_data r <> None /\ error_positions r = [] /\ iterations_used r = 0 /\
        (bit_error_rate r == 0)%Q /\
        _consecutive_failures s' = (if success r then 0 else _consecutive_failures s) /\
        _degraded_mode s' = (if success r then false else _degraded_mode s)))).
  { intros base Hbase. rewrite decode_failed_state.
    assert (Hfr : enable_performance_tracking base = enable_performance_tracking s /\
                  performance_tracker base = performance_tracker s /\
                  _consecutive_failures base = _consecutive_failures s /\
                  _degraded_mode base = _degraded_mode s).
    { destruct Hbase as [-> | [temporary ->]]; [done |].
      destruct (get_matrices_frame (set_code_params s temporary) d clk) as (c & t & ->).
      done. }
    destruct Hfr as (Htr & Hpt & Hcf & Hdm).
    eexists _, _, base. split; [reflexivity |]. split; [done |]. cbn.
    rewrite Htr, Hpt, Hcf, Hdm.
    destruct (enable_performance_tracking s); cbn; split_and!; try done; try (by left). }
  unfold decode.
  destruct (metadata !! "original_length") as [ol |].
  2: { destruct (Hfail s (or_introl eq_refl)) as (s' & r & base & Heq & H).
       exists s', r, base. split; [| done]. rewrite <- Heq. by destruct s. }
  destruct (bind _ _) as [e | temporary] eqn:Htmp.
  { destruct (Hfail s (or_introl eq_refl)) as (s' & r & base & Heq & H).
    exists s', r, base. split; [| done]. rewrite <- Heq. by destruct s. }
  assert (Htemp : 0 < max_iterations temporary).
  { destruct (as_number _) as [| q]; [discriminate |].
    destruct (as_int _) as [| n]; [discriminate |].
    cbn in Htmp. apply CodeParameters_new_inv in Htmp as (-> & _ & ?). assumption. }
  destruct (decode_try _ _ _ _ _ _ _ _ _) as [s1 [e | r]] eqn:Htry.
  - apply decode_try_error in Htry as ->.
    apply Hfail. right. by exists temporary.
  - apply decode_try_result in Htry as (Hcd & Hep & Hiu & Hber & ->); [| exact Htemp].
    destruct (get_matrices_frame (set_code_params s temporary) d clk) as (c & t & Hfr).
    exists (set_code_params
              (let s1 := (_get_matrices (set_code_params s temporary) d clk).1 in
               let s2 := if enable_performance_tracking s1
                         then set_tracker s1
                                (record_decoding (performance_tracker s1) r (t_end clk))
                         else s1 in
               if success r then set_failures s2 0 (_last_failure_time s2) false else s2)
              (code_params s)), r,
           (_get_matrices (set_code_params s temporary) d clk).1.
    split; [done |]. split; [right; by exists temporary |].
    cbn zeta. rewrite Hfr. cbn.
    destruct (enable_performance_tracking s) eqn:Htr, (success r) eqn:Hsuc; cbn;
      rewrite ?Hsuc; split_and!; try done; right; split_and!; done.
Qed.

Lemma classify_zero (ber : Q) : (ber == 0)%Q -> classify ber = EXCELLENT.
Proof.
  intros Hber. unfold classify, Qltb.
  destruct (Qle_bool (1 # 100) ber) eqn:Hle; [| done].
  apply Qle_bool_iff in Hle. rewrite Hber in Hle. by apply Qle_bool_iff in Hle.
Qed.

(** X11.  With tracking enabled, the channel condition after a [decode]
    is EXCELLENT when the result carries data and SEVERE when it does not:
    the reported bit error rate is 0 on the first path, also when the
    checksum does not match, and 1 on the second. *)
Theorem decode_updates_channel_estimate (s : LDPCEncoder) encoded_data metadata
    timeout_seconds d clk :
  enable_performance_tracking s = true ->
  exists s' r,
    decode md5 s encoded_data metadata timeout_seconds d clk = (s', inr r) /\
    get_current_channel_condition (performance_tracker s') =
      match corrected_data r with
      | Some _ => EXCELLENT
      | None => SEVERE
      end.
Proof.
  intros Htr.
  destruct (decode_cases s encoded_data metadata timeout_seconds d clk)
    as (s' & r & base & Hdec & _ & _ & _ & _ & Hpt & Hcases).
  exists s', r. split; [done |].
  rewrite Hpt, Htr, record_decoding_condition.
  destruct Hcases as [(-> & _) | (Hcd & _ & _ & Hber & _)]; [done |].
  rewrite (classify_zero _ Hber). by destruct (corrected_data r).
Qed.

(** X10.  Failure accounting of [decode].  A successful result resets the
    failure counter and leaves degraded mode; a result without data adds
    one failure and enters degraded mode once there are more than three; a
    result with data whose checksum does not match does neither. *)
Theorem decode_failure_accounting (s : LDPCEncoder) encoded_data metadata
    timeout_seconds d clk :
  exists s' r,
    decode md5 s encoded_data metadata timeout_seconds d clk = (s', inr r) /\
    (success r = true ->
     _consecutive_failures s' = 0 /\ _degraded_mode s' = false) /\
    (corrected_data r = None ->
     _consecutive_failures s' = _consecutive_failures s + 1 /\
     _degraded_mode s' = (if 3 <? _consecutive_failures s + 1 then true else _degraded_mode s)) /\
    (success r = false -> corrected_data r <> None ->
     _consecutive_failures s' = _consecutive_failures s /\
     _degraded_mode s' = _degraded_mode s).
Proof.
  destruct (decode_cases s encoded_data metadata timeout_seconds d clk)
    as (s' & r & base & Hdec & _ & _ & _ & _ & _ & Hcases).
  exists s', r. split; [done |].
  destruct Hcases as [(-> & Hf & Hd) | (Hcd & _ & _ & _ & Hf & Hd)].
  - split_and!; [done | done | intros _ Hne; by destruct Hne].
  - split_and!.
    + intros Hs. by rewrite Hs in Hf, Hd.
    + done.
    + intros Hs _. by rewrite Hs in Hf, Hd.
Qed.

Lemma adapt_frame (s : LDPCEncoder) now :
  _consecutive_failures (_adapt_code_parameters s now) = _consecutive_failures s /\
  _degraded_mode (_adapt_code_parameters s now) = _degraded_mode s /\
  performance_tracker (_adapt_code_parameters s now) = performance_tracker s.
Proof.
  unfold _adapt_code_parameters.
  destruct (_ || _); [done |]. destruct (decide _); [| done].
  destruct (_switch_to_mode s _) as [e | s1] eqn:Hsw; [done |].
  unfold _switch_to_mode in Hsw.
  destruct (mode_params _) as [new_rate new_length].
  destruct (CodeParameters_new _ _ _ _) as [| cp]; [done |].
  cbn in Hsw. by injection Hsw as <-.
Qed.

(** X9.  Every call of [encode] adds one to the failure counter, and the
    encoder is in degraded mode afterwards if the counter exceeds five or
    if it was in degraded mode before. *)
Theorem encode_counts_failure (s : LDPCEncoder) data timeout_seconds d clk :
  let s' := (encode md5 s data timeout_seconds d clk).1 in
  _consecutive_failures s' = _consecutive_failures s + 1 /\
  _degraded_mode s' = (if 5 <? _consecutive_failures s + 1 then true else _degraded_mode s).
Proof.
  cbn zeta. rewrite encode_state, encode_body_state. cbn zeta.
  destruct (adapt_frame s (t_start clk)) as (Hf & Hd & _).
  destruct (is_binary data).
  - destruct (get_matrices_frame (_adapt_code_parameters s (t_start clk)) d clk)
      as (c & t & ->).
    cbn. by rewrite Hf, Hd.
  - cbn. by rewrite Hf, Hd.
Qed.

(** X12.  After [reset_performance_counters], the next adaptation selects
    STANDARD with a zero failure counter and degraded mode off; if the mode
    was another one, the code parameters become rate 1/2 and block length
    1024 and the matrix cache is emptied. *)
Theorem reset_then_adapt (s : LDPCEncoder) (now : Q) :
  enable_adaptive_mode s = true -> enable_performance_tracking s = true ->
  0 < max_iterations (code_params s) ->
  let s' := _adapt_code_parameters (reset_performance_counters s) now in
  _current_mode s' = STANDARD /\
  _consecutive_failures s' = 0 /\ _degraded_mode s' = false /\
  (_current_mode s <> STANDARD ->
   code_rate (code_params s') = (1 # 2)%Q /\ block_length (code_params s') = 1024 /\
   _matrix_cache s' = []).
Proof.
  intros Ha Ht Hit. cbn zeta.
  assert (Hr : reset_performance_counters s =
               set_mode (set_failures (set_tracker s PerformanceTracker_new) 0 0%Q false)
                 (_current_mode s) []).
  { unfold reset_performance_counters. by rewrite Ht. }
  rewrite Hr. clear Hr.
  set (s0 := set_mode _ _ _).
  assert (Hmode : _current_mode (_adapt_code_parameters s0 now) = STANDARD).
  { rewrite adapt_mode; done. }
  destruct (adapt_frame s0 now) as (Hf & Hd & _).
  split_and!; [done | by rewrite Hf | by rewrite Hd |].
  intros Hne.
  assert (Hchg : _current_mode (_adapt_code_parameters s0 now) <> _current_mode s0)
    by (by rewrite Hmode).
  unfold _adapt_code_parameters in *.
  destruct (_ || _); [done |]. destruct (decide _); [| done].
  destruct (_switch_to_mode s0 _) as [e | s1] eqn:Hsw; [done |].
  apply switch_to_mode_params in Hsw as (Hr & Hn & _ & _ & Hc & _).
  cbn. by rewrite Hr, Hn, Hc.
Qed.

(** X13.  In every state that [encode], [decode] and
    [reset_performance_counters] lead to from a new encoder, the matrix
    cache holds at most five entries, and the cache and its access times
    have the same keys in the same order. *)
Theorem matrix_cache_bounded (s : LDPCEncoder) :
  encoder_state md5 s ->
  (length (_matrix_cache s) <= 5)%nat /\
  (_matrix_cache s).*1 = (_cache_access_times s).*1.
Proof.
  intros Hs. enough (cache_inv s) as [? ?] by done.
  induction Hs as [cp a t lim | s data timeout d clk _ IH
                  | s enc meta timeout d clk _ IH | s _ IH].
  - split; cbn; [done | lia].
  - rewrite encode_state, encode_body_state. cbn zeta.
    assert (Hinv : cache_inv (if is_binary data
                              then (_get_matrices (_adapt_code_parameters s (t_start clk)) d clk).1
                              else _adapt_code_parameters s (t_start clk))).
    { destruct (is_binary data); [apply get_matrices_cache_inv |]; by apply adapt_cache_inv. }
    exact Hinv.
  - destruct (decode_cases s enc meta timeout d clk)
      as (s' & r & base & Hdec & Hbase & Hc & Ht & _).
    rewrite Hdec. cbn [fst]. unfold cache_inv. rewrite Hc, Ht.
    destruct Hbase as [-> | [temporary ->]]; [done |].
    by apply get_matrices_cache_inv.
  - unfold reset_performance_counters. by destruct (enable_performance_tracking s).
Qed.

(** *** What [decode] returns for a stream of whole blocks *)

(** [k = int(n * rate)] lies between [0] and [n] for a rate in (0, 1). *)
Lemma info_length_bounds (rate : Q) (n : Z) :
  Qltb 0 rate && Qltb rate 1 = true -> 0 < n ->
  0 <= int_of_Q (inject_Z n * rate) <= n.
Proof.
  intros [H0 H1]%andb_true_iff Hn.
  unfold Qltb in *. apply negb_true_iff in H0, H1.
  assert (Hpos : (0 < rate)%Q).
  { destruct (Qlt_le_dec 0 rate) as [? | Hle]; [done |].
    apply Qle_bool_iff in Hle. congruence. }
  assert (Hlt : (rate < 1)%Q).
  { destruct (Qlt_le_dec rate 1) as [? | Hle]; [done |].
    apply Qle_bool_iff in Hle. congruence. }
  destruct rate as [num den]. unfold Qlt in *. cbn in *.
  unfold int_of_Q. cbn.
  split.
  - apply Z.quot_pos; lia.
  - apply Z.quot_le_upper_bound; nia.
Qed.

Lemma concat_blocks_length (n : nat) (blocks : list (list Z)) :
  Forall (fun b => length b = n) blocks -> length (concat blocks) = (n * length blocks)%nat.
Proof.
  induction 1 as [| b blocks Hb _ IH]; cbn; [lia |].
  rewrite length_app, IH, Hb. lia.
Qed.

Lemma decode_loop_blocks (cp : CodeParameters) H (k n : Z) (blocks : list (list Z))
    timeout_seconds clk :
  0 < max_iterations cp -> 0 <= k <= n -> 0 < n ->
  Forall (fun b => length b = Z.to_nat n) blocks ->
  (forall i, Qltb timeout_seconds (t_loop clk i - t_start clk)%Q = false) ->
  forall pre fuel idx acc tot nrm errs,
    (length blocks <= fuel)%nat ->
    exists nrm',
      decode_loop cp H k n (pre ++ concat blocks) timeout_seconds clk
        (range_step fuel (length pre) (length (pre ++ concat blocks)) (Z.to_nat n))
        idx acc tot nrm errs
      = inr (acc ++ map (take (Z.to_nat k)) blocks, tot, nrm', errs).
Proof.
  intros Hit Hk Hn Hblocks Hclk.
  induction Hblocks as [| b blocks Hb _ IH]; intros pre fuel idx acc tot nrm errs Hfuel.
  - cbn [concat]. rewrite app_nil_r.
    destruct fuel as [| fuel]; cbn [range_step].
    + cbn. rewrite app_nil_r. eauto.
    + rewrite (proj2 (Nat.ltb_ge _ _)) by lia. cbn. rewrite app_nil_r. eauto.
  - destruct fuel as [| fuel]; [cbn in Hfuel; lia |].
    cbn [range_step concat].
    rewrite (proj2 (Nat.ltb_lt _ _)) by (rewrite !length_app, Hb; lia).
    cbn [decode_loop]. rewrite Hclk.
    assert (Hslice : slice (pre ++ b ++ concat blocks) (length pre) (Z.to_nat n) = b).
    { unfold slice. rewrite drop_app_length. by rewrite take_app_length'. }
    rewrite Hslice, Hb, Nat.ltb_irrefl.
    rewrite decode_block_falls_back by done.
    rewrite (proj2 (Z.leb_le _ _)) by (rewrite Hb; lia).
    unfold slice_to at 1. rewrite (proj2 (Z.leb_le _ _)) by lia.
    cbn [map]. rewrite app_nil_r.
    specialize (IH (pre ++ b) fuel (S idx) (acc ++ [take (Z.to_nat k) b]) (tot + 0)
                  (norm_max nrm Norm_inf) errs).
    destruct IH as [nrm' IH]; [cbn in Hfuel; lia |].
    rewrite length_app, Hb in IH. rewrite <- !app_assoc in IH. cbn [app] in IH.
    exists nrm'. rewrite IH. by rewrite Z.add_0_r.
Qed.

(** X14.  What [decode] returns for a stream of whole blocks.  Let the
    encoder hold valid parameters with block length [n] and
    [k = int(n * rate)], let the metadata give no parameters of its own, and
    let [original_length = L] and [padding_bits = p] add up to [k] times the
    number of blocks.  If the matrices are available and no timeout
    strikes, [decode] returns the first [k] bits of every received block,
    cut to [L] bits, unchanged: no iteration is run and no bit is
    corrected.  The result is successful if there is no checksum or if the
    checksum equals that of these bits followed by [p] zeros. *)
Theorem decode_returns_information_bits (s : LDPCEncoder) (blocks : list (list Z))
    (metadata : gmap string pyval) (L p : Z) timeout_seconds d clk GH :
  let cp := code_params s in
  let n := block_length cp in
  let k := int_of_Q (inject_Z n * code_rate cp) in
  Qltb 0 (code_rate cp) && Qltb (code_rate cp) 1 = true ->
  0 < n -> 0 < max_iterations cp ->
  metadata !! "code_rate" = None -> metadata !! "block_length" = None ->
  metadata !! "original_length" = Some (VInt L) ->
  metadata !! "padding_bits" = Some (VInt p) ->
  0 <= p -> 0 <= L -> L + p = k * Z.of_nat (length blocks) ->
  blocks <> [] -> Forall (fun b => length b = Z.to_nat n) blocks ->
  (forall i, Qltb timeout_seconds (t_loop clk i - t_start clk)%Q = false) ->
  (_get_matrices s d clk).2 = inr GH ->
  exists s' r,
    decode md5 s (concat blocks) metadata timeout_seconds d clk = (s', inr r) /\
    let bits := take (Z.to_nat L) (concat (map (take (Z.to_nat k)) blocks)) in
    corrected_data r = Some bits /\
    success r = match metadata !! "checksum" with
                | None => true
                | Some expected =>
                    checksum_matches (md5 (bits ++ replicate (Z.to_nat p) 0)) expected
                end /\
    iterations_used r = 0 /\ error_positions r = [].
Proof.
  intros cp n k Hrate Hn Hit Hmr Hmn Hml Hmp Hp HL Hlen Hne Hblocks Hclk Hget.
  pose proof (info_length_bounds _ _ Hrate Hn) as Hk. fold k in Hk.
  unfold decode. rewrite Hml, Hmr, Hmn, Hmp. cbn [default from_option id as_number as_int bind].
  assert (Hnew : CodeParameters_new (code_rate (code_params s)) (block_length (code_params s))
                   (max_iterations (code_params s)) (syndrome_threshold (code_params s))
                 = inr (code_params s)).
  { unfold CodeParameters_new. subst cp n. rewrite Hrate. cbn [negb].
    rewrite (proj2 (Z.leb_gt _ _) Hn), (proj2 (Z.leb_gt _ _) Hit).
    by destruct (code_params s). }
  rewrite Hnew.
  assert (Hs : set_code_params s (code_params s) = s) by (by destruct s).
  rewrite Hs. unfold decode_try.
  destruct (_get_matrices s d clk) as [s1 [e | GH1]] eqn:Hgm; [done |].
  cbn [bind]. fold cp. fold n. fold k.
  destruct (decode_loop_blocks cp GH1.2 k n blocks timeout_seconds clk Hit Hk Hn Hblocks Hclk
              [] (length (concat blocks)) 0%nat [] 0 (Norm_sqrt 0) [])
    as [nrm' Hloop].
  { rewrite (concat_blocks_length _ _ Hblocks). nia. }
  cbn [app length] in Hloop. rewrite Hloop. cbn [bind app].
  destruct (map (take (Z.to_nat k)) blocks) as [| b0 bl] eqn:Hmap.
  { destruct blocks; done. }
  cbn [np_concatenate ret bind]. rewrite <- Hmap.
  unfold guarded_padding. cbn [is_positive bind ret as_int].
  set (dd := concat (map (take (Z.to_nat k)) blocks)).
  assert (Hdd : Z.of_nat (length dd) = k * Z.of_nat (length blocks)).
  { subst dd. rewrite (concat_blocks_length (Z.to_nat k)).
    - rewrite length_map. lia.
    - apply Forall_fmap. eapply Forall_impl; [| exact Hblocks].
      intros b Hb. cbn in *. rewrite length_take. lia. }
  assert (Hstrip : slice_to (if 0 <? (if 0 <? p then p else 0)
                             then slice_to dd (- (if 0 <? p then p else 0)) else dd) L
                   = take (Z.to_nat L) dd).
  { destruct (0 <? p) eqn:Hp0.
    - rewrite Hp0. pose proof (proj1 (Z.ltb_lt _ _) Hp0). unfold slice_to.
      rewrite (proj2 (Z.leb_gt 0 (- p))) by lia. rewrite (proj2 (Z.leb_le 0 L)) by lia.
      rewrite take_take. f_equal. lia.
    - cbn. unfold slice_to. by rewrite (proj2 (Z.leb_le _ _)) by lia. }
  destruct (0 <? p) eqn:Hp0; cbn [bind ret].
  - rewrite !Hp0 in Hstrip. rewrite !Hp0, Hstrip.
    eexists _, _. split; [reflexivity |]. cbn. done.
  - change (0 <? 0) with false in *. cbv iota in Hstrip |- *. rewrite Hstrip.
    eexists _, _. split; [reflexivity |]. cbn.
    assert (p = 0) as -> by (apply Z.ltb_ge in Hp0; lia).
    cbn. by rewrite app_nil_r.
Qed.

End Accounting.

(** *** Eviction *)

Lemma key_eqb_sym (a b : cache_key) : key_eqb a b = key_eqb b a.
Proof.
  unfold key_eqb. rewrite (Z.eqb_sym a.2 b.2). f_equal.
  destruct (Qeq_bool a.1 b.1) eqn:E1, (Qeq_bool b.1 a.1) eqn:E2; try done.
  - apply Qeq_bool_iff in E1. symmetry in E1. apply Qeq_bool_iff in E1. congruence.
  - apply Qeq_bool_iff in E2. symmetry in E2. apply Qeq_bool_iff in E2. congruence.
Qed.

Lemma dict_get_del {V} (d : list (cache_key * V)) key :
  dict_get (dict_del d key) key = None.
Proof.
  unfold dict_del. induction d as [| [k' v'] d IH]; [done |].
  rewrite filter_cons. cbn. destruct (decide (key_eqb k' key = false)) as [Hne | _]; [| done].
  cbn. by rewrite Hne.
Qed.

Lemma dict_get_set_other {V} (d : list (cache_key * V)) key v other :
  dict_get d other = None -> key_eqb key other = false ->
  dict_get (dict_set d key v) other = None.
Proof.
  intros Hget Hne. induction d as [| [k' v'] d IH]; cbn in *.
  - by rewrite Hne.
  - destruct (key_eqb k' other) eqn:E; [done |].
    destruct (key_eqb k' key); cbn; rewrite E; [done | by apply IH].
Qed.

Lemma dict_get_None_elem {V} (d : list (cache_key * V)) key k' :
  dict_get d key = None -> k' ∈ d.*1 -> key_eqb k' key = false.
Proof.
  induction d as [| [k0 v0] d IH]; cbn; [by intros _ ?%elem_of_nil |].
  destruct (key_eqb k0 key) eqn:E; [done |].
  intros Hget [-> | Hin]%elem_of_cons; [done | by apply IH].
Qed.

(** X6.  Eviction is least-recently-used.  When the cache holds five
    entries and the requested key is not among them, a successful
    [_get_matrices] removes an entry whose access time is the least of all,
    stores the new matrices under the requested key, and keeps five
    entries at most. *)
Theorem get_matrices_evicts_least_recent (s : LDPCEncoder) d clk GH :
  let key := (code_rate (code_params s), block_length (code_params s)) in
  cache_inv s -> length (_matrix_cache s) = 5%nat ->
  dict_get (_matrix_cache s) key = None ->
  (_get_matrices s d clk).2 = inr GH ->
  exists oldest t,
    (oldest, t) ∈ _cache_access_times s /\
    (forall k' t', (k', t') ∈ _cache_access_times s -> (t <= t')%Q) /\
    dict_get (_matrix_cache (_get_matrices s d clk).1) oldest = None /\
    dict_get (_matrix_cache (_get_matrices s d clk).1) key = Some GH /\
    (length (_matrix_cache (_get_matrices s d clk).1) <= 5)%nat.
Proof.
  intros key [Hkeys _] Hfull Hmiss Hok.
  pose proof (get_matrices_cached_after s d clk GH Hok) as Hhit. fold key in Hhit.
  pose proof (get_matrices_cache_inv s d clk (conj Hkeys (Nat.eq_le_incl _ _ Hfull)))
    as [_ Hlen].
  revert Hok Hhit Hlen. unfold _get_matrices. fold key. rewrite Hmiss.
  destruct (_generate_ldpc_matrices _ _ _ _) as [| GH0]; [done |].
  rewrite Hfull. cbn [Nat.ltb Nat.leb].
  destruct (dict_argmin _) as [[oldest t] |] eqn:Hmin; [| done].
  cbn [fst snd _matrix_cache set_caches]. intros [= <-] Hhit Hlen.
  exists oldest, t.
  pose proof (dict_argmin_elem _ _ _ Hmin) as Hin.
  split_and!; [done | by eapply dict_argmin_least | | done | done].
  apply dict_get_set_other; [apply dict_get_del |].
  rewrite key_eqb_sym. eapply dict_get_None_elem; [exact Hmiss |].
  rewrite Hkeys. apply list_elem_of_fmap. by exists (oldest, t).
Qed.

Lemma flip_binary (z : Z) : z = 0 \/ z = 1 -> flip z = 0 \/ flip z = 1.
Proof. intros [-> | ->]; cbn; auto. Qed.

Lemma flip_slice_spec (start stop : nat) (v : list Z) :
  Forall (fun z => z = 0 \/ z = 1) v ->
  length (flip_slice start stop v) = length v /\
  Forall (fun z => z = 0 \/ z = 1) (flip_slice start stop v).
Proof.
  intros Hv. unfold flip_slice. split; [apply length_imap |].
  apply Forall_lookup_2. intros i x. rewrite list_lookup_imap.
  destruct (v !! i) as [z |] eqn:Hz; [| done]. cbn. intros [= <-].
  pose proof (Forall_lookup_1 _ _ _ _ Hv Hz).
  destruct (decide _); [by apply flip_binary | done].
Qed.

Lemma burst_loop_spec (noise : Noise) (len : nat) (burst_positions : list nat) (j : nat)
    (c : list Z) :
  Forall (fun z => z = 0 \/ z = 1) c ->
  match burst_loop noise len burst_positions j c with
  | inl e => exists i, burst_draw noise i = inl e
  | inr c' => length c' = length c /\ Forall (fun z => z = 0 \/ z = 1) c'
  end.
Proof.
  revert j c. induction burst_positions as [| start rest IH]; intros j c Hc; cbn.
  - done.
  - destruct (burst_draw noise j) as [e | burst_len] eqn:Hdraw; cbn; [by exists j |].
    destruct (flip_slice_spec start (Nat.min (start + burst_len) len) c Hc) as [Hlen Hbits].
    specialize (IH (S j) _ Hbits).
    destruct (burst_loop _ _ _ _ _); [done |]. by rewrite <- Hlen.
Qed.

(** X15.  [simulate_channel_errors] on an array of bits.  An [error_rate]
    outside [0, 1] is refused with [ValueError] before anything is drawn;
    otherwise the only exceptions are those of a Poisson draw.  A returned
    array has the length of the input and holds bits, and with no bursts
    ([burst_probability <= 0]) bit [i] is complemented exactly when the
    [i]-th random number is below [error_rate]. *)
Theorem simulate_channel_errors_spec (data : list Z) (error_rate burst_probability : Q)
    (noise : Noise) :
  Forall (fun z => z = 0 \/ z = 1) data ->
  match simulate_channel_errors data error_rate burst_probability noise with
  | inl e =>
      (e = ValueError "error_rate must be between 0.0 and 1.0" /\
       ~ (0 <= error_rate <= 1)%Q) \/
      ((0 <= error_rate <= 1)%Q /\ exists j, burst_draw noise j = inl e)
  | inr corrupted =>
      (0 <= error_rate <= 1)%Q /\
      length corrupted = length data /\
      Forall (fun z => z = 0 \/ z = 1) corrupted /\
      (Qltb 0 burst_probability = false ->
       forall i, corrupted !! i =
                 (fun z => if Qltb (bit_noise noise i) error_rate then 1 - z else z)
                   <$> data !! i)
  end.
Proof.
  intros Hdata. unfold simulate_channel_errors.
  destruct (Qle_bool 0 error_rate) eqn:H0; cbn [andb negb].
  2: { left. split; [done |]. intros [Hle _]. apply Qle_bool_iff in Hle. congruence. }
  destruct (Qle_bool error_rate 1) eqn:H1; cbn [negb].
  2: { left. split; [done |]. intros [_ Hle]. apply Qle_bool_iff in Hle. congruence. }
  apply Qle_bool_iff in H0, H1.
  set (c0 := imap _ data).
  assert (Hc0 : length c0 = length data /\ Forall (fun z => z = 0 \/ z = 1) c0).
  { subst c0. split; [apply length_imap |].
    apply Forall_lookup_2. intros i x. rewrite list_lookup_imap.
    destruct (data !! i) as [z |] eqn:Hz; [| done]. cbn. intros [= <-].
    pose proof (Forall_lookup_1 _ _ _ _ Hdata Hz).
    destruct (Qltb _ _); [by apply flip_binary | done]. }
  destruct Hc0 as [Hlen0 Hbits0].
  destruct (Qltb 0 burst_probability) eqn:Hb; cbn [ret].
  - match goal with
    | |- context [burst_loop noise ?len ?pos 0%nat c0] =>
        pose proof (burst_loop_spec noise len pos 0%nat c0 Hbits0) as Hloop;
        destruct (burst_loop noise len pos 0%nat c0) as [e | c']
    end.
    + right. by split.
    + destruct Hloop as [Hlen Hbits]. split_and!; [done | done | congruence | done | done].
  - split_and!; try done.
    intros _ i. subst c0. rewrite list_lookup_imap.
    destruct (data !! i) as [z |] eqn:Hz; [| done]. cbn.
    destruct (Qltb (bit_noise noise i) error_rate); [f_equal | reflexivity].
    by destruct (Forall_lookup_1 _ _ _ _ Hdata Hz) as [-> | ->].
Qed.

(** *** Concrete calls *)

Lemma demo_draw_valid : valid_draw 4 8 demo_draw.
Proof.
  assert (Hnd : forall a b c : nat, a <> b -> a <> c -> b <> c -> NoDup [a; b; c]).
  { intros a b c Hab Hac Hbc.
    apply NoDup_cons_2; [rewrite !not_elem_of_cons; auto using not_elem_of_nil |].
    apply NoDup_cons_2; [rewrite !not_elem_of_cons; auto using not_elem_of_nil |].
    apply NoDup_singleton. }
  unfold valid_draw, demo_draw; cbn.
  split; [reflexivity |]. split.
  { repeat (apply Forall_cons_2); try apply Forall_nil_2;
      (split; [reflexivity | split; [apply Hnd; lia |]]);
      repeat (apply Forall_cons_2); try apply Forall_nil_2; lia. }
  split; [reflexivity |].
  repeat (apply Forall_cons_2); try apply Forall_nil_2;
    (split; [reflexivity |]); repeat (apply Forall_cons_2); try apply Forall_nil_2; lia.
Qed.

Local Ltac all_bits := repeat (apply Forall_cons_2; [auto |]); apply Forall_nil_2.

Lemma generated_G_systematic_witness :
  match _generate_ldpc_matrices (256 * 1024 * 1024) demo_draw (1 # 2) 8 with
  | inr (G, _) => take 4 (encode_block [1; 0; 1; 1] G) = [1; 0; 1; 1]
  | inl _ => False
  end.
Proof.
  destruct (_generate_ldpc_matrices (256 * 1024 * 1024) demo_draw (1 # 2) 8)
    as [e | [G H]] eqn:Hgen.
  - vm_compute in Hgen. discriminate.
  - destruct (generated_G_systematic _ _ _ _ G H [1; 0; 1; 1] Hgen) as (_ & _ & Hsys).
    + vm_compute. discriminate.
    + reflexivity.
    + all_bits.
    + exact Hsys.
Defined.

Lemma generated_H_row_weight_witness :
  match _generate_ldpc_matrices (256 * 1024 * 1024) demo_draw (1 # 2) 8 with
  | inr (_, H) =>
      length (rows H) = 4%nat /\
      Forall (fun row => length row = 8%nat /\
                         Forall (fun z => z = 0 \/ z = 1) row /\
                         foldr Z.add 0 row = 3) (rows H)
  | inl _ => False
  end.
Proof.
  destruct (_generate_ldpc_matrices (256 * 1024 * 1024) demo_draw (1 # 2) 8)
    as [e | [G H]] eqn:Hgen.
  - vm_compute in Hgen. discriminate.
  - exact (generated_H_row_weight _ _ _ _ G H Hgen demo_draw_valid).
Defined.

(** An encoder that is allowed no memory at all. *)
Definition starved_encoder : LDPCEncoder :=
  LDPCEncoder_new (Some (mkCodeParameters (1 # 2) 8 50 (1 # 1000000))) true true 0.

Lemma get_matrices_failure_unchanged_witness :
  (_get_matrices starved_encoder demo_draw demo_clock).2 = inl MemoryError /\
  (_get_matrices starved_encoder demo_draw demo_clock).1 = starved_encoder.
Proof.
  split; [reflexivity |].
  apply (get_matrices_failure_unchanged starved_encoder demo_draw demo_clock MemoryError).
  reflexivity.
Defined.

Lemma get_matrices_cache_hit_witness :
  match (_get_matrices demo_encoder demo_draw demo_clock).2 with
  | inr GH =>
      (_get_matrices (_get_matrices demo_encoder demo_draw demo_clock).1
         (mkDraw [] []) demo_clock).2 = inr GH
  | inl _ => False
  end.
Proof.
  destruct (_get_matrices demo_encoder demo_draw demo_clock).2 as [e | GH] eqn:Hok.
  - vm_compute in Hok. discriminate.
  - exact (proj1 (get_matrices_cache_hit demo_encoder demo_draw demo_clock GH
                    (mkDraw [] []) demo_clock Hok)).
Defined.

(** An encoder whose cache holds five entries for other parameters; the
    entry of rate 1/5 was used least recently. *)
Definition full_cache_encoder : LDPCEncoder :=
  let none := (mkSp 0 0 [], mkSp 0 0 []) in
  mkEncoder (mkCodeParameters (1 # 2) 8 50 (1 # 1000000)) true true (256 * 1024 * 1024)
    PerformanceTracker_new STANDARD []
    [((1 # 3, 8), none); ((1 # 4, 8), none); ((1 # 5, 8), none);
     ((1 # 6, 8), none); ((1 # 7, 8), none)]
    [((1 # 3, 8), 5%Q); ((1 # 4, 8), 3%Q); ((1 # 5, 8), 1%Q);
     ((1 # 6, 8), 4%Q); ((1 # 7, 8), 2%Q)]
    0 0%Q false.

Lemma get_matrices_evicts_least_recent_witness :
  match (_get_matrices full_cache_encoder demo_draw demo_clock).2 with
  | inr GH =>
      exists oldest t,
        (oldest, t) ∈ _cache_access_times full_cache_encoder /\
        (forall k' t', (k', t') ∈ _cache_access_times full_cache_encoder -> (t <= t')%Q) /\
        dict_get (_matrix_cache (_get_matrices full_cache_encoder demo_draw demo_clock).1)
          oldest = None /\
        dict_get (_matrix_cache (_get_matrices full_cache_encoder demo_draw demo_clock).1)
          (1 # 2, 8) = Some GH /\
        (length (_matrix_cache (_get_matrices full_cache_encoder demo_draw demo_clock).1)
         <= 5)%nat
  | inl _ => False
  end.
Proof.
  destruct (_get_matrices full_cache_encoder demo_draw demo_clock).2 as [e | GH] eqn:Hok.
  - vm_compute in Hok. discriminate.
  - apply (get_matrices_evicts_least_recent full_cache_encoder demo_draw demo_clock GH).
    + split; [reflexivity | cbn; lia].
    + reflexivity.
    + reflexivity.
    + exact Hok.
Defined.

Lemma adapt_tracks_channel_witness :
  _current_mode (_adapt_code_parameters encoder_2048 0) =
    mode_for (get_current_channel_condition (performance_tracker encoder_2048)) /\
  _current_mode (_adapt_code_parameters encoder_2048 0) <> ADAPTIVE.
Proof.
  apply (adapt_tracks_channel encoder_2048 0); [reflexivity | reflexivity | reflexivity].
Defined.

Lemma reset_then_adapt_witness :
  _current_mode (_adapt_code_parameters (reset_performance_counters encoder_2048) 0)
    = STANDARD.
Proof.
  apply (reset_then_adapt encoder_2048 0); [reflexivity | reflexivity | reflexivity].
Defined.

Lemma decode_updates_channel_estimate_witness :
  exists s' r,
    decode (fun _ => "") demo_encoder [1; 0; 0; 0; 0; 0; 0; 0] demo_metadata 30
      demo_draw demo_clock = (s', inr r) /\
    get_current_channel_condition (performance_tracker s') =
      match corrected_data r with
      | Some _ => EXCELLENT
      | None => SEVERE
      end.
Proof.
  apply (decode_updates_channel_estimate (fun _ => "") demo_encoder
           [1; 0; 0; 0; 0; 0; 0; 0] demo_metadata 30 demo_draw demo_clock).
  reflexivity.
Defined.

Lemma matrix_cache_bounded_witness :
  let s := (decode (fun _ => "") demo_encoder [1; 0; 0; 0; 0; 0; 0; 0] demo_metadata 30
              demo_draw demo_clock).1 in
  (length (_matrix_cache s) <= 5)%nat /\
  (_matrix_cache s).*1 = (_cache_access_times s).*1.
Proof.
  apply (matrix_cache_bounded (fun _ => "")).
  apply state_decode. apply (state_new _ (Some (mkCodeParameters (1 # 2) 8 50 (1 # 1000000)))
                               true true 256).
Defined.

(** Two received blocks of eight bits; the last of the eight information
    bits is padding. *)
Definition demo_blocks : list (list Z) :=
  [[1; 0; 1; 1; 0; 1; 0; 0]; [0; 1; 1; 0; 1; 1; 1; 0]].

Definition demo_padded_metadata : gmap string pyval :=
  <["original_length" := VInt 7]> (<["padding_bits" := VInt 1]> ∅).

Lemma decode_returns_information_bits_witness :
  exists s' r,
    decode (fun _ => "") demo_encoder (concat demo_blocks) demo_padded_metadata 30
      demo_draw demo_clock = (s', inr r) /\
    corrected_data r = Some [1; 0; 1; 1; 0; 1; 1] /\
    success r = true.
Proof.
  destruct (_get_matrices demo_encoder demo_draw demo_clock).2 as [e | GH] eqn:Hok.
  { vm_compute in Hok. discriminate. }
  destruct (decode_returns_information_bits (fun _ => "") demo_encoder demo_blocks
              demo_padded_metadata 7 1 30 demo_draw demo_clock GH)
    as (s' & r & Hdec & Hbits & Hsucc & _).
  - reflexivity.
  - reflexivity.
  - reflexivity.
  - reflexivity.
  - reflexivity.
  - reflexivity.
  - reflexivity.
  - lia.
  - lia.
  - reflexivity.
  - discriminate.
  - repeat (apply Forall_cons_2; [reflexivity |]); apply Forall_nil_2.
  - intros i. reflexivity.
  - exact Hok.
  - exists s', r. split; [exact Hdec |]. split; [exact Hbits | exact Hsucc].
Defined.

Lemma simulate_channel_errors_spec_witness :
  match simulate_channel_errors [1; 0; 1] (1 # 2) 0
          (mkNoise (fun i => if decide (i = 1%nat) then 0%Q else 1%Q)
                   (fun _ => 0%Q) (fun _ => inr 0%nat)) with
  | inr corrupted => length corrupted = 3%nat /\ corrupted !! 1%nat = Some 1
  | inl _ => False
  end.
Proof.
  pose proof (simulate_channel_errors_spec [1; 0; 1] (1 # 2) 0
                (mkNoise (fun i => if decide (i = 1%nat) then 0%Q else 1%Q)
                         (fun _ => 0%Q) (fun _ => inr 0%nat))) as Hspec.
  destruct (simulate_channel_errors _ _ _ _) as [e | corrupted].
  - destruct Hspec as [[_ Hout] | [_ [j Hj]]];
      [repeat (apply Forall_cons_2; [auto |]); apply Forall_nil_2 | | discriminate].
    apply Hout. split; vm_compute; discriminate.
  - destruct Hspec as (_ & Hlen & _ & Hbits);
      [repeat (apply Forall_cons_2; [auto |]); apply Forall_nil_2 |].
    split; [exact Hlen |]. exact (Hbits eq_refl 1%nat).
Defined.

End LDPC.

(** ** Python's [heapq] on a list *)

Module Heapq.

Local Open Scope nat_scope.

Section Heapq.

Context {A : Type}.

(** The comparison [a < b] of the items, that is [a.__lt__(b)]. *)
Variable lt : A -> A -> bool.

(** [(pos - 1) >> 1] *)
Definition parent (pos : nat) : nat := (pos - 1) / 2.

(** The loops of [heapq] move a hole through the list and fill it at the
    end; here the item travels with the hole, by exchanges.  The list
    after each loop is the same. *)
Definition swap (heap : list A) (i j : nat) : list A :=
  match heap !! i, heap !! j with
  | Some x, Some y => <[i := y]> (<[j := x]> heap)
  | _, _ => heap
  end.

(** [_siftdown(heap, startpos, pos)]: the item at [pos] moves up while it
    is smaller than its parent. *)
Fixpoint _siftdown (fuel : nat) (heap : list A) (startpos pos : nat) : list A :=
  match fuel with
  | O => heap
  | S fuel' =>
      if decide (startpos < pos)%nat then
        let parentpos := parent pos in
        match heap !! pos, heap !! parentpos with
        | Some newitem, Some parent_item =>
            if lt newitem parent_item
            then _siftdown fuel' (swap heap pos parentpos) startpos parentpos
            else heap
        | _, _ => heap
        end
      else heap
  end.

(** The first loop of [_siftup(heap, pos)]: the item at [pos] moves down
    to a leaf, each time below the smaller child. *)
Fixpoint _siftup_loop (fuel : nat) (heap : list A) (pos : nat) : list A * nat :=
  match fuel with
  | O => (heap, pos)
  | S fuel' =>
      let endpos := length heap in
      let childpos := (2 * pos + 1)%nat in
      if decide (childpos < endpos)%nat then
        let rightpos := (childpos + 1)%nat in
        let childpos :=
          match heap !! childpos, heap !! rightpos with
          | Some left_item, Some right_item =>
              if negb (lt left_item right_item) then rightpos else childpos
          | _, _ => childpos
          end in
        _siftup_loop fuel' (swap heap pos childpos) childpos
      else (heap, pos)
  end.

Definition _siftup (heap : list A) (pos : nat) : list A :=
  let '(heap, leaf) := _siftup_loop (length heap) heap pos in
  _siftdown leaf heap pos leaf.

Definition heappush (heap : list A) (item : A) : list A :=
  _siftdown (length heap) (heap ++ [item]) 0 (length heap).

(** [heappop(heap)]; [None] stands for the [IndexError] on an empty list. *)
Definition heappop (heap : list A) : option (A * list A) :=
  match list.last heap with
  | None => None
  | Some lastelt =>
      match take (length heap - 1) heap with
      | [] => Some (lastelt, [])
      | returnitem :: rest => Some (returnitem, _siftup (lastelt :: rest) 0)
      end
  end.

(** *** Exchanges *)

Lemma swap_length heap i j : length (swap heap i j) = length heap.
Proof.
  unfold swap. destruct (heap !! i), (heap !! j); try reflexivity.
  by rewrite !length_insert.
Qed.

Lemma swap_lookup_l heap i j x y :
  heap !! i = Some x -> heap !! j = Some y -> swap heap i j !! i = Some y.
Proof.
  intros Hi Hj. unfold swap. rewrite Hi, Hj.
  apply list_lookup_insert_eq. rewrite length_insert. by eapply lookup_lt_Some.
Qed.

Lemma swap_lookup_r heap i j x y :
  heap !! i = Some x -> heap !! j = Some y -> swap heap i j !! j = Some x.
Proof.
  intros Hi Hj. unfold swap. rewrite Hi, Hj.
  destruct (decide (i = j)) as [-> | Hne].
  - rewrite list_lookup_insert_eq; [congruence |].
    rewrite length_insert. by eapply lookup_lt_Some.
  - rewrite list_lookup_insert_ne by done.
    apply list_lookup_insert_eq. by eapply lookup_lt_Some.
Qed.

Lemma swap_lookup_ne heap i j k :
  k <> i -> k <> j -> swap heap i j !! k = heap !! k.
Proof.
  intros Hi Hj. unfold swap. destruct (heap !! i), (heap !! j); try reflexivity.
  by rewrite !list_lookup_insert_ne.
Qed.

Lemma insert_head_perm (l : list A) j a y :
  l !! j = Some y -> y :: <[j := a]> l ≡ₚ a :: l.
Proof.
  revert j. induction l as [| b l IH]; intros [| j] Hj; simplify_eq/=.
  - apply perm_swap.
  - etrans; [apply perm_swap |].
    etrans; [apply perm_skip, (IH j Hj) | apply perm_swap].
Qed.

Lemma swap_perm heap i j : swap heap i j ≡ₚ heap.
Proof.
  unfold swap.
  destruct (heap !! i) as [x |] eqn:Hi; [| reflexivity].
  destruct (heap !! j) as [y |] eqn:Hj; [| reflexivity].
  revert i j Hi Hj. induction heap as [| a l IH]; intros [| i] [| j] Hi Hj; simplify_eq/=.
  - reflexivity.
  - by apply insert_head_perm.
  - by apply insert_head_perm.
  - f_equiv. by apply IH.
Qed.

(** *** Heap order *)

(** [le a b]: [b] is not smaller than [a]. *)
Definition le (a b : A) : Prop := lt b a = false.

(** The heap invariant of [heapq]: no item is smaller than its parent. *)
Definition heap_inv (heap : list A) : Prop :=
  forall i x p, (0 < i)%nat -> heap !! i = Some x -> heap !! parent i = Some p -> le p x.

(** The invariant with the item at [j] still on its way up: it may be
    smaller than its parent, and its children are compared to its parent. *)
Definition up_inv (heap : list A) (j : nat) : Prop :=
  (forall i x p, (0 < i)%nat -> i <> j ->
     heap !! i = Some x -> heap !! parent i = Some p -> le p x) /\
  (forall c x g, (0 < j)%nat -> (0 < c)%nat -> parent c = j ->
     heap !! c = Some x -> heap !! parent j = Some g -> le g x).

(** The invariant with the item at [j] on its way down: it may be larger
    than its children and smaller than its parent. *)
Definition down_inv (heap : list A) (j : nat) : Prop :=
  (forall i x p, (0 < i)%nat -> i <> j -> parent i <> j ->
     heap !! i = Some x -> heap !! parent i = Some p -> le p x) /\
  (forall c x g, (0 < j)%nat -> (0 < c)%nat -> parent c = j ->
     heap !! c = Some x -> heap !! parent j = Some g -> le g x).

Lemma parent_lt i : (0 < i)%nat -> (parent i < i)%nat.
Proof. unfold parent. intros Hi. apply Nat.Div0.div_lt_upper_bound. lia. Qed.

Lemma parent_child c j : (0 < c)%nat -> parent c = j -> (c = 2 * j + 1 \/ c = 2 * j + 2)%nat.
Proof.
  unfold parent. intros Hc <-.
  pose proof (Nat.div_mod_eq (c - 1) 2) as Hd.
  pose proof (Nat.mod_upper_bound (c - 1) 2). lia.
Qed.

Lemma parent_left j : parent (2 * j + 1) = j.
Proof.
  unfold parent. replace (2 * j + 1 - 1)%nat with (j * 2)%nat by lia.
  apply Nat.div_mul. lia.
Qed.

Lemma parent_right j : parent (2 * j + 2) = j.
Proof.
  unfold parent. replace (2 * j + 2 - 1)%nat with (1 + j * 2)%nat by lia.
  rewrite Nat.div_add by lia. reflexivity.
Qed.

Section Order.

Hypothesis lt_asym : forall a b, lt a b = true -> lt b a = false.
Hypothesis lt_negtrans : forall a b c, lt a b = false -> lt b c = false -> lt a c = false.

Lemma le_refl a : le a a.
Proof. unfold le. destruct (lt a a) eqn:E; [| done]. by rewrite (lt_asym _ _ E) in E. Qed.

Lemma le_trans a b c : le a b -> le b c -> le a c.
Proof. unfold le. intros Hab Hbc. by eapply lt_negtrans. Qed.

Lemma lt_le a b : lt a b = true -> le a b.
Proof. apply lt_asym. Qed.

Lemma not_lt_le a b : lt a b = false -> le b a.
Proof. done. Qed.

Lemma up_inv_root heap : up_inv heap 0 -> heap_inv heap.
Proof. intros [Ha _] i x p Hi. apply Ha; lia. Qed.

Lemma up_inv_settled heap j x p :
  up_inv heap j -> heap !! j = Some x -> heap !! parent j = Some p -> le p x ->
  heap_inv heap.
Proof.
  intros [Ha _] Hx Hp Hle i y q Hi Hy Hq.
  destruct (decide (i = j)) as [-> | Hne]; [| by eapply Ha].
  by simplify_eq.
Qed.

(** One exchange with the parent keeps the upward invariant. *)
Lemma up_inv_step heap j x p :
  (0 < j)%nat -> up_inv heap j ->
  heap !! j = Some x -> heap !! parent j = Some p -> lt x p = true ->
  up_inv (swap heap j (parent j)) (parent j).
Proof.
  intros Hj [Ha Hb] Hx Hp Hlt.
  pose proof (parent_lt j Hj) as Hpj.
  assert (Hsj : swap heap j (parent j) !! j = Some p) by (by eapply swap_lookup_l).
  assert (Hsp : swap heap j (parent j) !! parent j = Some x) by (by eapply swap_lookup_r).
  split.
  - intros i y q Hi Hne Hy Hq.
    destruct (decide (i = j)) as [-> | Hij].
    + simplify_eq. by apply lt_le.
    + rewrite swap_lookup_ne in Hy by done.
      destruct (decide (parent i = j)) as [Hpi | Hpi].
      * rewrite Hpi, Hsj in Hq. simplify_eq. by eapply (Hb i).
      * destruct (decide (parent i = parent j)) as [Hpp | Hpp].
        -- rewrite Hpp, Hsp in Hq. simplify_eq.
           eapply le_trans; [by apply lt_le |].
           eapply (Ha i); [done | done | done |]. by rewrite Hpp.
        -- rewrite swap_lookup_ne in Hq by done. by eapply (Ha i).
  - intros c y g Hpj0 Hc Hpc Hy Hg.
    pose proof (parent_lt _ Hpj0) as Hppj.
    rewrite swap_lookup_ne in Hg by lia.
    assert (Hgp : le g p) by (eapply (Ha (parent j)); [done | lia | done | done]).
    destruct (decide (c = j)) as [-> | Hcj].
    + by simplify_eq.
    + pose proof (parent_lt c Hc).
      rewrite swap_lookup_ne in Hy by lia.
      eapply le_trans; [exact Hgp |].
      eapply (Ha c); [done | done | done |]. by rewrite Hpc.
Qed.

Lemma siftdown_heap fuel heap j :
  (j <= fuel)%nat -> (j < length heap)%nat -> up_inv heap j ->
  heap_inv (_siftdown fuel heap 0 j).
Proof.
  revert heap j. induction fuel as [| fuel IH]; intros heap j Hfuel Hlen Hinv.
  - assert (j = 0)%nat as -> by lia. cbn. by apply up_inv_root.
  - cbn [_siftdown]. destruct (decide (0 < j)%nat) as [Hj | Hj].
    2: { assert (j = 0)%nat as -> by lia. by apply up_inv_root. }
    pose proof (parent_lt j Hj) as Hpj.
    destruct (lookup_lt_is_Some_2 heap j Hlen) as [x Hx].
    destruct (lookup_lt_is_Some_2 heap (parent j) ltac:(lia)) as [p Hp].
    rewrite Hx, Hp.
    destruct (lt x p) eqn:Hlt.
    + apply IH; [lia | rewrite swap_length; lia | by eapply up_inv_step].
    + by eapply up_inv_settled.
Qed.

Lemma siftdown_perm fuel heap startpos j : _siftdown fuel heap startpos j ≡ₚ heap.
Proof.
  revert heap j. induction fuel as [| fuel IH]; intros heap j; [reflexivity |].
  cbn [_siftdown]. destruct (decide _); [| reflexivity].
  destruct (heap !! j), (heap !! parent j); try reflexivity.
  destruct (lt _ _); [| reflexivity].
  rewrite IH. apply swap_perm.
Qed.

Lemma down_inv_leaf heap j :
  (length heap <= 2 * j + 1)%nat -> down_inv heap j -> up_inv heap j.
Proof.
  intros Hlen [Ha Hb]. split; [| exact Hb].
  intros i x p Hi Hne Hx Hp.
  destruct (decide (parent i = j)) as [Hpi | Hpi]; [| by eapply Ha].
  apply lookup_lt_Some in Hx.
  destruct (parent_child i j Hi Hpi); lia.
Qed.

(** One exchange with a child that no other child is smaller than keeps
    the downward invariant. *)
Lemma down_inv_step heap j c x y :
  down_inv heap j -> heap !! j = Some x -> heap !! c = Some y ->
  (0 < c)%nat -> parent c = j ->
  (forall c' z, (0 < c')%nat -> parent c' = j -> heap !! c' = Some z -> le y z) ->
  down_inv (swap heap j c) c.
Proof.
  intros [Ha Hb] Hx Hy Hc Hpc Hmin.
  pose proof (parent_lt c Hc) as Hjc. rewrite Hpc in Hjc.
  assert (Hsj : swap heap j c !! j = Some y) by (by eapply swap_lookup_l).
  split.
  - intros i v q Hi Hic Hpic Hv Hq.
    destruct (decide (i = j)) as [-> | Hij].
    + pose proof (parent_lt j Hi).
      rewrite Hsj in Hv. rewrite swap_lookup_ne in Hq by lia. simplify_eq.
      by eapply (Hb c).
    + rewrite swap_lookup_ne in Hv by done.
      destruct (decide (parent i = j)) as [Hpi | Hpi].
      * rewrite Hpi, Hsj in Hq. simplify_eq. by eapply Hmin.
      * rewrite swap_lookup_ne in Hq by done. by eapply (Ha i).
  - intros c2 v g _ Hc2 Hpc2 Hv Hg.
    pose proof (parent_lt c2 Hc2) as Hc2c. rewrite Hpc2 in Hc2c.
    rewrite swap_lookup_ne in Hv by lia.
    rewrite Hpc, Hsj in Hg. simplify_eq.
    eapply (Ha c2); [done | lia | lia | done | done].
Qed.

Lemma siftup_loop_spec fuel heap j heap' j' :
  _siftup_loop fuel heap j = (heap', j') ->
  (length heap <= fuel + j)%nat -> (j < length heap)%nat -> down_inv heap j ->
  up_inv heap' j' /\ (j' < length heap')%nat /\ heap' ≡ₚ heap.
Proof.
  revert heap j. induction fuel as [| fuel IH]; intros heap j Hloop Hfuel Hlen Hinv.
  { lia. }
  cbn [_siftup_loop] in Hloop.
  destruct (decide (2 * j + 1 < length heap)%nat) as [Hchild | Hleaf].
  2: { simplify_eq. split; [apply down_inv_leaf; [lia | done] | done]. }
  destruct (lookup_lt_is_Some_2 heap j Hlen) as [x Hx].
  destruct (lookup_lt_is_Some_2 heap _ Hchild) as [l Hl].
  rewrite Hl in Hloop.
  assert (Hstep : forall c y,
             heap !! c = Some y -> (c = 2 * j + 1 \/ c = 2 * j + 2)%nat ->
             (forall c' z, (0 < c')%nat -> parent c' = j -> heap !! c' = Some z -> le y z) ->
             _siftup_loop fuel (swap heap j c) c = (heap', j') ->
             up_inv heap' j' /\ (j' < length heap')%nat /\ heap' ≡ₚ heap).
  { intros c y Hy Hc Hmin Hrec.
    assert (Hpc : parent c = j) by (destruct Hc as [-> | ->]; [apply parent_left | apply parent_right]).
    apply IH in Hrec as (Hup & Hlt & Hperm).
    - split; [done |]. split; [done |]. by rewrite Hperm, swap_perm.
    - rewrite swap_length. lia.
    - rewrite swap_length. apply lookup_lt_Some in Hy. done.
    - eapply down_inv_step; [done | done | done | lia | done | done]. }
  destruct (heap !! (2 * j + 1 + 1)%nat) as [r |] eqn:Hr.
  - destruct (lt l r) eqn:Hlr; cbn [negb] in Hloop.
    + eapply (Hstep _ l); [done | lia | | done].
      intros c' z Hc' Hpc' Hz.
      destruct (parent_child c' j Hc' Hpc') as [-> | ->].
      * simplify_eq. apply le_refl.
      * replace (2 * j + 2)%nat with (2 * j + 1 + 1)%nat in Hz by lia.
        simplify_eq. by apply lt_le.
    + eapply (Hstep _ r); [done | lia | | done].
      intros c' z Hc' Hpc' Hz.
      destruct (parent_child c' j Hc' Hpc') as [-> | ->].
      * simplify_eq. by apply not_lt_le.
      * replace (2 * j + 2)%nat with (2 * j + 1 + 1)%nat in Hz by lia.
        simplify_eq. apply le_refl.
  - eapply (Hstep _ l); [done | lia | | done].
    intros c' z Hc' Hpc' Hz.
    destruct (parent_child c' j Hc' Hpc') as [-> | ->].
    + simplify_eq. apply le_refl.
    + replace (2 * j + 2)%nat with (2 * j + 1 + 1)%nat in Hz by lia. simplify_eq.
Qed.

Lemma siftup_heap heap :
  (0 < length heap)%nat -> down_inv heap 0 -> heap_inv (_siftup heap 0).
Proof.
  intros Hlen Hinv. unfold _siftup.
  destruct (_siftup_loop (length heap) heap 0) as [heap' leaf] eqn:Hloop.
  apply siftup_loop_spec in Hloop as (Hup & Hlt & _); [| lia | done | done].
  by apply siftdown_heap.
Qed.

Lemma siftup_perm heap pos : _siftup heap pos ≡ₚ heap.
Proof.
  unfold _siftup.
  destruct (_siftup_loop (length heap) heap pos) as [heap' leaf] eqn:Hloop.
  rewrite siftdown_perm.
  clear -Hloop. revert Hloop. generalize (length heap) as fuel. intros fuel.
  revert heap pos. induction fuel as [| fuel IH]; intros heap pos Hloop.
  - by simplify_eq/=.
  - cbn [_siftup_loop] in Hloop. destruct (decide _); [| by simplify_eq].
    apply IH in Hloop. by rewrite Hloop, swap_perm.
Qed.

(** *** [heappush] and [heappop] *)

Lemma heappush_perm heap item : heappush heap item ≡ₚ item :: heap.
Proof.
  unfold heappush. rewrite siftdown_perm. by rewrite Permutation_app_comm.
Qed.

Lemma heappush_heap heap item : heap_inv heap -> heap_inv (heappush heap item).
Proof.
  intros Hinv. unfold heappush. apply siftdown_heap; [lia | |].
  { rewrite length_app. cbn. lia. }
  split.
  - intros i x p Hi Hne Hx Hp.
    assert (i < length heap)%nat.
    { apply lookup_lt_Some in Hx. rewrite length_app in Hx. cbn in Hx. lia. }
    pose proof (parent_lt i Hi).
    rewrite lookup_app_l in Hx, Hp by lia. by eapply Hinv.
  - intros c x g _ Hc Hpc Hx _.
    apply lookup_lt_Some in Hx. rewrite length_app in Hx. cbn in Hx.
    destruct (parent_child c _ Hc Hpc); lia.
Qed.

(** The root of a heap is a least item. *)
Lemma heap_root_min heap root :
  heap_inv heap -> heap !! 0%nat = Some root ->
  forall i x, heap !! i = Some x -> le root x.
Proof.
  intros Hinv Hroot i. induction i as [i IH] using lt_wf_ind. intros x Hx.
  destruct (decide (i = 0)) as [-> | Hi].
  - simplify_eq. apply le_refl.
  - pose proof (parent_lt i ltac:(lia)) as Hp.
    destruct (lookup_lt_is_Some_2 heap (parent i)) as [p Hpx].
    { apply lookup_lt_Some in Hx. lia. }
    eapply le_trans; [by eapply (IH (parent i)) |].
    eapply Hinv; [| done | done]. lia.
Qed.


Lemma heappop_perm heap item heap' :
  heappop heap = Some (item, heap') -> heap ≡ₚ item :: heap'.
Proof.
  unfold heappop. destruct (list.last heap) as [lastelt |] eqn:Hlast; [| done].
  apply last_Some in Hlast as [front ->].
  rewrite length_app. cbn [length].
  replace (length front + 1 - 1)%nat with (length front) by lia.
  rewrite take_app_length.
  destruct front as [| returnitem rest]; intros [= <- <-].
  - reflexivity.
  - rewrite siftup_perm. cbn. f_equiv. by rewrite Permutation_app_comm.
Qed.

Lemma heappop_heap heap item heap' :
  heap_inv heap -> heappop heap = Some (item, heap') -> heap_inv heap'.
Proof.
  intros Hinv. unfold heappop.
  destruct (list.last heap) as [lastelt |] eqn:Hlast; [| done].
  apply last_Some in Hlast as [front ->].
  rewrite length_app. cbn [length].
  replace (length front + 1 - 1)%nat with (length front) by lia.
  rewrite take_app_length.
  destruct front as [| returnitem rest]; intros [= <- <-].
  - intros i x p _ Hx. by rewrite lookup_nil in Hx.
  - apply siftup_heap; [cbn; lia |]. split.
    + intros i x p Hi _ Hpi Hx Hp.
      destruct i as [| i]; [lia |].
      destruct (parent (S i)) as [| q] eqn:Hq; [done |].
      cbn in Hx, Hp.
      eapply (Hinv (S i)); [lia | |].
      * cbn. by apply lookup_app_l_Some.
      * rewrite Hq. cbn. by apply lookup_app_l_Some.
    + intros; lia.
Qed.

(** [heappop] returns an item that no item of the heap is smaller than. *)
Lemma heappop_min heap item heap' :
  heap_inv heap -> heappop heap = Some (item, heap') ->
  forall x, x ∈ heap -> lt x item = false.
Proof.
  intros Hinv Hpop x Hx.
  apply list_elem_of_lookup in Hx as [i Hi].
  change (le item x). eapply (heap_root_min heap); [done | | done].
  revert Hpop. unfold heappop.
  destruct (list.last heap) as [lastelt |] eqn:Hlast; [| done].
  apply last_Some in Hlast as [front ->].
  rewrite length_app. cbn [length].
  replace (length front + 1 - 1)%nat with (length front) by lia.
  rewrite take_app_length.
  destruct front as [| returnitem rest]; intros [= <- <-]; reflexivity.
Qed.

End Order.

End Heapq.

End Heapq.

(** ** Priority scheduler ([priority_scheduler.py]) *)

Module Sched.

Import Heapq.

Inductive MessagePriority := CRITICAL | HIGH | MEDIUM | LOW.

#[global] Instance MessagePriority_eq_dec : EqDecision MessagePriority.
Proof. solve_decision. Defined.

(** [priority.value] *)
Definition priority_value (p : MessagePriority) : Z :=
  match p with
  | CRITICAL => 3
  | HIGH => 2
  | MEDIUM => 1
  | LOW => 0
  end.

(** [list(MessagePriority)], in definition order. *)
Definition all_priorities : list MessagePriority := [CRITICAL; HIGH; MEDIUM; LOW].

Inductive MessageStatus := QUEUED | PROCESSING | COMPLETED | FAILED | TIMEOUT | DROPPED.

#[global] Instance MessageStatus_eq_dec : EqDecision MessageStatus.
Proof. solve_decision. Defined.

(** Instants ([datetime], [time.time()]) are microseconds on one clock. *)
Record TimeConstraints := mkTimeConstraints {
  max_latency_ms : Q;
  deadline_timestamp : option Z;
  timeout_ms : Q;
  allowed_retry_count : Z
}.

(** [TimeConstraints(...)] with its [__post_init__]. *)
Definition TimeConstraints_new (max_latency : Q) (deadline : option Z) (timeout : Q)
    (retries : Z) : result TimeConstraints :=
  if Qle_bool max_latency 0 then raise (ValueError "max_latency_ms must be positive")
  else if Qle_bool timeout 0 then raise (ValueError "timeout_ms must be positive")
  else if retries <? 0 then raise (ValueError "retry_count must be non-negative")
  else ret (mkTimeConstraints max_latency deadline timeout retries).

(** The fields of [Message] that the scheduler reads or writes. *)
Record Message := mkMessage {
  message_id : string;
  priority : MessagePriority;
  bandwidth_required : Z;
  processing_time_estimate : Q;
  time_constraints : TimeConstraints;
  creation_timestamp : Z;
  last_update_timestamp : Z;
  status : MessageStatus;
  retry_count : Z;
  error_history : list string;
  queue_time : option Z;
  processing_start_time : option Z;
  processing_end_time : option Z
}.

(** [Message.__lt__] *)
Definition Message_lt (a b : Message) : bool :=
  if negb (priority_value (priority a) =? priority_value (priority b))
  then priority_value (priority b) <? priority_value (priority a)
  else creation_timestamp a <? creation_timestamp b.

(** [message.update_status(new_status, error_msg)] at instant [now]. *)
Definition update_status (new_status : MessageStatus) (error_msg : option string)
    (now : Z) (m : Message) : Message :=
  mkMessage (message_id m) (priority m) (bandwidth_required m)
    (processing_time_estimate m) (time_constraints m) (creation_timestamp m)
    now new_status (retry_count m)
    (match error_msg with
     | Some e => error_history m ++ [e]
     | None => error_history m
     end)
    (queue_time m) (processing_start_time m) (processing_end_time m).

Definition set_queue_time (t : Z) (m : Message) : Message :=
  mkMessage (message_id m) (priority m) (bandwidth_required m)
    (processing_time_estimate m) (time_constraints m) (creation_timestamp m)
    (last_update_timestamp m) (status m) (retry_count m) (error_history m)
    (Some t) (processing_start_time m) (processing_end_time m).

Definition set_processing_start_time (t : Z) (m : Message) : Message :=
  mkMessage (message_id m) (priority m) (bandwidth_required m)
    (processing_time_estimate m) (time_constraints m) (creation_timestamp m)
    (last_update_timestamp m) (status m) (retry_count m) (error_history m)
    (queue_time m) (Some t) (processing_end_time m).

Definition set_processing_end_time (t : Z) (m : Message) : Message :=
  mkMessage (message_id m) (priority m) (bandwidth_required m)
    (processing_time_estimate m) (time_constraints m) (creation_timestamp m)
    (last_update_timestamp m) (status m) (retry_count m) (error_history m)
    (queue_time m) (processing_start_time m) (Some t).

(** [message.is_expired()] at instant [now]. *)
Definition is_expired (now : Z) (m : Message) : bool :=
  match deadline_timestamp (time_constraints m) with
  | Some deadline => deadline <? now
  | None => false
  end.

(** *** Performance metrics *)

(** The counters of [PerformanceMetrics] that the summary of processed
    messages reads. *)
Record PerformanceMetrics := mkMetrics {
  _message_counts : MessagePriority -> Z;
  _processing_times : MessagePriority -> list Q;
  _error_counts : MessagePriority -> Z
}.

(** [PerformanceMetrics()] *)
Definition PerformanceMetrics_new : PerformanceMetrics :=
  mkMetrics (fun _ => 0) (fun _ => []) (fun _ => 0).

Definition record_message_processed (t : PerformanceMetrics) (message : Message)
    (processing_time : Q) (success : bool) : PerformanceMetrics :=
  let p := priority message in
  mkMetrics (<[p := _message_counts t p + 1]> (_message_counts t))
            (<[p := deque_append 1000 (_processing_times t p) (processing_time * 1000)%Q]>
               (_processing_times t))
            (if success then _error_counts t
             else <[p := _error_counts t p + 1]> (_error_counts t)).

(** The entries [total_messages] and [error_rates] of [get_metrics_summary]. *)
Definition total_messages (t : PerformanceMetrics) : Z :=
  foldr Z.add 0 (map (_message_counts t) all_priorities).

Definition error_rate (t : PerformanceMetrics) (p : MessagePriority) : Q :=
  (inject_Z (_error_counts t p) / inject_Z (Z.max (_message_counts t p) 1))%Q.

(** The metrics after a run of recorded messages. *)
Definition record_all (events : list (Message * Q * bool)) : PerformanceMetrics :=
  foldl (fun t '(message, processing_time, success) =>
           record_message_processed t message processing_time success)
        PerformanceMetrics_new events.

(** Message objects live in the Python heap and are shared by reference
    between the caller, the queues, the active index and the history. *)
Definition ref : Type := nat.

#[global] Instance Message_inhabited : Inhabited Message :=
  populate (mkMessage "" LOW 0 0 (mkTimeConstraints 0 None 0 0) 0 0 QUEUED 0 [] None None None).

(** [a < b] for two message objects of the heap [objs]. *)
Definition ref_lt (objs : gmap ref Message) (a b : ref) : bool :=
  Message_lt (objs !!! a) (objs !!! b).

Record MessageScheduler := mkScheduler {
  max_bandwidth : Z;
  max_queue_size : Z;
  _priority_queues : MessagePriority -> list ref;
  _consecutive_errors : MessagePriority -> Z;
  _degraded_mode : bool;
  _active_messages : gmap string ref;
  _message_history : list ref;
  objects : gmap ref Message
}.

(** [MessageScheduler(max_bandwidth, max_queue_size, ..., memory_limit_mb)] *)
Definition MessageScheduler_new (bandwidth queue_size memory_limit_mb : Z)
    : result MessageScheduler :=
  if bandwidth <=? 0 then raise (ValueError "max_bandwidth must be positive")
  else if queue_size <=? 0 then raise (ValueError "max_queue_size must be positive")
  else if memory_limit_mb <=? 0 then raise (ValueError "memory_limit_mb must be positive")
  else ret (mkScheduler bandwidth queue_size (fun _ => []) (fun _ => 0) false ∅ [] ∅).

Definition set_queue (s : MessageScheduler) (p : MessagePriority) (queue : list ref)
    : MessageScheduler :=
  mkScheduler (max_bandwidth s) (max_queue_size s) (<[p := queue]> (_priority_queues s))
    (_consecutive_errors s) (_degraded_mode s) (_active_messages s)
    (_message_history s) (objects s).

Definition set_errors (s : MessageScheduler) (p : MessagePriority) (n : Z)
    : MessageScheduler :=
  mkScheduler (max_bandwidth s) (max_queue_size s) (_priority_queues s)
    (<[p := n]> (_consecutive_errors s)) (_degraded_mode s) (_active_messages s)
    (_message_history s) (objects s).

Definition set_degraded (s : MessageScheduler) (b : bool) : MessageScheduler :=
  mkScheduler (max_bandwidth s) (max_queue_size s) (_priority_queues s)
    (_consecutive_errors s) b (_active_messages s) (_message_history s) (objects s).

Definition set_active (s : MessageScheduler) (active : gmap string ref) : MessageScheduler :=
  mkScheduler (max_bandwidth s) (max_queue_size s) (_priority_queues s)
    (_consecutive_errors s) (_degraded_mode s) active (_message_history s) (objects s).

Definition set_history (s : MessageScheduler) (history : list ref) : MessageScheduler :=
  mkScheduler (max_bandwidth s) (max_queue_size s) (_priority_queues s)
    (_consecutive_errors s) (_degraded_mode s) (_active_messages s) history (objects s).

Definition set_objects (s : MessageScheduler) (objs : gmap ref Message) : MessageScheduler :=
  mkScheduler (max_bandwidth s) (max_queue_size s) (_priority_queues s)
    (_consecutive_errors s) (_degraded_mode s) (_active_messages s)
    (_message_history s) objs.

(** A method call on the object behind [r]. *)
Definition mutate (s : MessageScheduler) (r : ref) (f : Message -> Message)
    : MessageScheduler :=
  set_objects s (alter f r (objects s)).

(** [self._active_messages.pop(message_id, None)] *)
Definition active_pop (s : MessageScheduler) (id : string) : MessageScheduler :=
  set_active s (delete id (_active_messages s)).

(** *** Admission *)

(** The [for msg in queue] loop of [_cleanup_expired_messages]: the
    scheduler after the loop, [valid_messages] and [expired_count]. *)
Fixpoint cleanup_scan (s : MessageScheduler) (queue : list ref) (now : Z)
    : MessageScheduler * list ref * Z :=
  match queue with
  | [] => (s, [], 0)
  | r :: rest =>
      let msg := objects s !!! r in
      if is_expired now msg then
        let s := mutate s r (update_status TIMEOUT (Some "Message expired") now) in
        let s := active_pop s (message_id msg) in
        let '(s, valid_messages, expired_count) := cleanup_scan s rest now in
        (s, valid_messages, expired_count + 1)
      else
        let '(s, valid_messages, expired_count) := cleanup_scan s rest now in
        (s, r :: valid_messages, expired_count)
  end.

Definition _cleanup_expired_messages (s : MessageScheduler) (p : MessagePriority) (now : Z)
    : MessageScheduler * Z :=
  let '(s, valid_messages, expired_count) := cleanup_scan s (_priority_queues s p) now in
  if 0 <? expired_count
  then (set_queue s p (foldl (heappush (ref_lt (objects s))) [] valid_messages),
        expired_count)
  else (s, expired_count).

Definition priority_name (p : MessagePriority) : string :=
  match p with
  | CRITICAL => "CRITICAL"
  | HIGH => "HIGH"
  | MEDIUM => "MEDIUM"
  | LOW => "LOW"
  end.

Fixpoint make_room_loop (s : MessageScheduler) (p : MessagePriority)
    (lower_priorities : list MessagePriority) (now : Z) : MessageScheduler * bool :=
  match lower_priorities with
  | [] => (s, false)
  | lower_priority :: rest =>
      if priority_value p <=? priority_value lower_priority
      then make_room_loop s p rest now
      else
        match heappop (ref_lt (objects s)) (_priority_queues s lower_priority) with
        | None => make_room_loop s p rest now
        | Some (removed_msg, queue) =>
            let id := message_id (objects s !!! removed_msg) in
            let s := set_queue s lower_priority queue in
            let s := mutate s removed_msg
                       (update_status DROPPED
                          (Some ("Dropped for " +:+ priority_name p +:+ " priority message"))
                          now) in
            (active_pop s id, true)
        end
  end.

Definition _make_room_for_priority (s : MessageScheduler) (p : MessagePriority) (now : Z)
    : MessageScheduler * bool :=
  make_room_loop s p (reverse all_priorities) now.

(** The tail of [_add_message_internal]: stamp, push, register. *)
Definition enqueue (s : MessageScheduler) (r : ref) (now : Z) : MessageScheduler * bool :=
  let s := mutate s r (set_queue_time now) in
  let msg := objects s !!! r in
  let s := set_queue s (priority msg)
             (heappush (ref_lt (objects s)) (_priority_queues s (priority msg)) r) in
  (set_active s (<[message_id msg := r]> (_active_messages s)), true).

Definition high_class (p : MessagePriority) : bool :=
  bool_decide (p ∈ [CRITICAL; HIGH]).

Definition _add_message_internal (s : MessageScheduler) (r : ref) (now : Z)
    : MessageScheduler * bool :=
  let p := priority (objects s !!! r) in
  if max_queue_size s <=? Z.of_nat (length (_priority_queues s p)) then
    let s := (_cleanup_expired_messages s p now).1 in
    if max_queue_size s <=? Z.of_nat (length (_priority_queues s p)) then
      if high_class p then
        let s := (_make_room_for_priority s p now).1 in
        enqueue s r now
      else
        (mutate s r (update_status DROPPED (Some "Queue full") now), false)
    else enqueue s r now
  else enqueue s r now.

(** [add_message(message, timeout_seconds)] for the message object [r].
    [asyncio.wait_for] can cancel the inner coroutine only while it is
    suspended, and [_add_message_internal] suspends only to acquire a
    queue lock, before it has changed anything; [cancelled] says that the
    timeout struck there. *)
Definition add_message (s : MessageScheduler) (r : ref) (now : Z) (cancelled : bool)
    : MessageScheduler * result bool :=
  let message := objects s !!! r in
  if String.eqb (message_id message) "" then
    (s, raise (ValueError "Message must have a valid message_id"))
  else if bandwidth_required message <=? 0 then
    (s, raise (ValueError "bandwidth_required must be positive"))
  else if bool_decide (is_Some (_active_messages s !! message_id message)) then
    (s, ret false)
  else if _degraded_mode s && negb (high_class (priority message)) then
    (s, ret false)
  else if cancelled then
    (mutate s r (update_status TIMEOUT (Some "Queue add timeout") now), raise TimeoutError)
  else
    let '(s, admitted) := _add_message_internal s r now in
    (s, ret admitted).

(** The caller builds a new [Message] object and hands it to
    [add_message]. *)
Definition new_object (s : MessageScheduler) (m : Message) : MessageScheduler * ref :=
  let r := fresh (dom (objects s)) in
  (set_objects s (<[r := m]> (objects s)), r).

Definition submit (s : MessageScheduler) (m : Message) (now : Z) (cancelled : bool)
    : MessageScheduler * ref * result bool :=
  let '(s, r) := new_object s m in
  let '(s, outcome) := add_message s r now cancelled in
  (s, r, outcome).

(** *** Dispatch *)

(** What awaiting the processor (or the default sleep) ends in. *)
Inductive processor_outcome :=
| Returned (success : bool)
| ProcessorTimeout
| ProcessorRaised (error_msg : string).

(** [_process_next_message] up to the point where [_process_single_message]
    awaits the processor: the pop under the queue lock, the PROCESSING
    stamp and the expiry check.  The result names the popped message and
    says whether it had expired, in which case the call is over. *)
Definition process_pop (s : MessageScheduler) (p : MessagePriority) (now : Z)
    : option (MessageScheduler * ref * bool) :=
  match heappop (ref_lt (objects s)) (_priority_queues s p) with
  | None => None
  | Some (message, queue) =>
      let s := set_queue s p queue in
      let s := mutate s message (set_processing_start_time now) in
      let s := mutate s message (update_status PROCESSING None now) in
      if is_expired now (objects s !!! message) then
        let s := mutate s message
                   (update_status TIMEOUT (Some "Message expired before processing") now) in
        Some (set_errors s p (_consecutive_errors s p + 1), message, true)
      else Some (s, message, false)
  end.

(** The rest of the call, once the processor is done. *)
Definition process_finish (s : MessageScheduler) (p : MessagePriority) (message : ref)
    (outcome : processor_outcome) (now : Z) : MessageScheduler :=
  match outcome with
  | Returned success =>
      let s := mutate s message (set_processing_end_time now) in
      let s := if success
               then mutate s message (update_status COMPLETED None now)
               else mutate s message
                      (update_status FAILED (Some "Processor returned False") now) in
      let s := set_history s (deque_append 1000 (_message_history s) message) in
      let s := active_pop s (message_id (objects s !!! message)) in
      if success then set_errors s p 0
      else set_errors s p (_consecutive_errors s p + 1)
  | ProcessorTimeout =>
      let s := mutate s message
                 (update_status TIMEOUT (Some "Processing timeout") now) in
      set_errors s p (_consecutive_errors s p + 1)
  | ProcessorRaised error_msg =>
      let s := mutate s message
                 (update_status FAILED (Some ("Processing error: " +:+ error_msg)) now) in
      set_errors s p (_consecutive_errors s p + 1)
  end.

(** [_process_next_message(priority, processor)] run to its end. *)
Definition _process_next_message (s : MessageScheduler) (p : MessagePriority)
    (outcome : processor_outcome) (now_start now_end : Z) : MessageScheduler * bool :=
  match process_pop s p now_start with
  | None => (s, false)
  | Some (s, _, true) => (s, true)
  | Some (s, message, false) => (process_finish s p message outcome now_end, true)
  end.

(** *** Maintenance *)

Definition finished_status (st : MessageStatus) : bool :=
  bool_decide (st ∈ [COMPLETED; FAILED]).

(** [_handle_memory_pressure] when [psutil] reports [memory_percent]. *)
Definition _handle_memory_pressure (s : MessageScheduler) (memory_percent : Q)
    : MessageScheduler :=
  let s := set_history s (drop (length (_message_history s) - 500) (_message_history s)) in
  let completed_messages :=
    (filter (fun entry => finished_status (status (objects s !!! entry.2)) = true)
            (map_to_list (_active_messages s))).*1 in
  let s := foldl active_pop s (take 100 completed_messages) in
  if Qltb 90 memory_percent then set_degraded s true else s.

(** One round of [_maintenance_loop]: the expiry sweep over every class and
    the exit from degraded mode. *)
Definition maintenance (s : MessageScheduler) (now : Z) (memory_percent : Q)
    : MessageScheduler :=
  let s := foldl (fun s p => (_cleanup_expired_messages s p now).1) s all_priorities in
  if _degraded_mode s && Qltb memory_percent 75 then set_degraded s false else s.

(** *** Processing frequencies *)

Definition base_frequency (p : MessagePriority) : Q :=
  match p with
  | CRITICAL => 1000
  | HIGH => 500
  | MEDIUM => 100
  | LOW => 10
  end.

(** Python's [min(a, b)]: [b] only when [b < a]. *)
Definition py_min (a b : Q) : Q := if Qltb b a then b else a.

(** [_get_processing_frequency(priority)]; the scheduler has the attribute
    [metrics] exactly when it was built with [enable_performance_monitoring]. *)
Definition _get_processing_frequency
    (enable_adaptive_scheduling enable_performance_monitoring : bool)
    (s : MessageScheduler) (p : MessagePriority) : Q :=
  let base_freq := base_frequency p in
  let base_freq :=
    if enable_adaptive_scheduling && enable_performance_monitoring then
      let queue_size := Z.of_nat (length (_priority_queues s p)) in
      let error_rate :=
        (inject_Z (_consecutive_errors s p) / inject_Z (Z.max queue_size 1))%Q in
      let base_freq :=
        if Qltb (inject_Z (max_queue_size s) * (8 # 10)) (inject_Z queue_size)
        then (base_freq * (15 # 10))%Q
        else if Qltb (inject_Z (max_queue_size s) * (5 # 10)) (inject_Z queue_size)
             then (base_freq * (12 # 10))%Q
             else base_freq in
      if Qltb (1 # 10) error_rate then (base_freq * (8 # 10))%Q else base_freq
    else base_freq in
  py_min base_freq 2000.

(** *** Reachable states

    The states of a scheduler observed between the atomic sections of its
    coroutines, together with the message objects admitted so far.  Every
    submitted message is a new object in status QUEUED (the default of the
    dataclass), and objects are changed by the scheduler only. *)
Inductive reachable : list ref -> MessageScheduler -> Prop :=
| reach_init bandwidth queue_size memory_limit_mb s :
    MessageScheduler_new bandwidth queue_size memory_limit_mb = inr s ->
    reachable [] s
| reach_submit adm s m now cancelled s' r outcome :
    reachable adm s ->
    status m = QUEUED ->
    submit s m now cancelled = (s', r, outcome) ->
    reachable (match outcome with inr true => r :: adm | _ => adm end) s'
| reach_pop adm s p now s' r expired :
    reachable adm s ->
    process_pop s p now = Some (s', r, expired) ->
    reachable adm s'
| reach_finish adm s r m outcome now :
    reachable adm s ->
    objects s !! r = Some m ->
    status m = PROCESSING ->
    reachable adm (process_finish s (priority m) r outcome now)
| reach_cleanup adm s p now :
    reachable adm s ->
    reachable adm (_cleanup_expired_messages s p now).1
| reach_memory_pressure adm s memory_percent :
    reachable adm s ->
    reachable adm (_handle_memory_pressure s memory_percent)
| reach_degraded adm s b :
    reachable adm s ->
    reachable adm (set_degraded s b).

(** *** The order of messages *)

Lemma Message_lt_asym a b : Message_lt a b = true -> Message_lt b a = false.
Proof.
  unfold Message_lt.
  destruct (priority_value (priority a) =? priority_value (priority b)) eqn:E1;
    destruct (priority_value (priority b) =? priority_value (priority a)) eqn:E2;
    cbn; lia.
Qed.

Lemma Message_lt_negtrans a b c :
  Message_lt a b = false -> Message_lt b c = false -> Message_lt a c = false.
Proof.
  unfold Message_lt.
  destruct (priority_value (priority a) =? priority_value (priority b)) eqn:E1;
    destruct (priority_value (priority b) =? priority_value (priority c)) eqn:E2;
    destruct (priority_value (priority a) =? priority_value (priority c)) eqn:E3;
    cbn; lia.
Qed.

Lemma ref_lt_asym objs a b : ref_lt objs a b = true -> ref_lt objs b a = false.
Proof. apply Message_lt_asym. Qed.

Lemma ref_lt_negtrans objs a b c :
  ref_lt objs a b = false -> ref_lt objs b c = false -> ref_lt objs a c = false.
Proof. apply Message_lt_negtrans. Qed.

(** What no method of the scheduler changes in a message. *)
Definition frame (m m' : Message) : Prop :=
  message_id m' = message_id m /\ priority m' = priority m /\
  creation_timestamp m' = creation_timestamp m /\
  time_constraints m' = time_constraints m.

Lemma frame_refl m : frame m m.
Proof. by repeat split. Qed.

Lemma frame_update_status st e now m : frame m (update_status st e now m).
Proof. by repeat split. Qed.

Lemma frame_set_queue_time t m : frame m (set_queue_time t m).
Proof. by repeat split. Qed.

Lemma frame_set_processing_start_time t m : frame m (set_processing_start_time t m).
Proof. by repeat split. Qed.

Lemma frame_set_processing_end_time t m : frame m (set_processing_end_time t m).
Proof. by repeat split. Qed.

Lemma frame_trans m1 m2 m3 : frame m1 m2 -> frame m2 m3 -> frame m1 m3.
Proof. unfold frame. intros (? & ? & ? & ?) (? & ? & ? & ?). repeat split; congruence. Qed.

Lemma Message_lt_frame a a' b b' :
  frame a a' -> frame b b' -> Message_lt a' b' = Message_lt a b.
Proof.
  intros (_ & Hpa & Hca & _) (_ & Hpb & Hcb & _).
  unfold Message_lt. by rewrite Hpa, Hpb, Hca, Hcb.
Qed.

(** The order of two objects is the same in two heaps that hold them
    unchanged. *)
Lemma ref_lt_same (objs objs' : gmap ref Message) a b :
  objs' !! a = objs !! a -> objs' !! b = objs !! b -> ref_lt objs' a b = ref_lt objs a b.
Proof.
  intros Ha Hb. unfold ref_lt. rewrite !lookup_total_alt. by rewrite Ha, Hb.
Qed.

Lemma heap_inv_ext (lt lt' : ref -> ref -> bool) (heap : list ref) :
  (forall a b, a ∈ heap -> b ∈ heap -> lt' a b = lt a b) ->
  heap_inv lt heap -> heap_inv lt' heap.
Proof.
  intros Hext Hinv i x p Hi Hx Hp. unfold le.
  rewrite Hext; [by eapply Hinv | by eapply list_elem_of_lookup_2 ..].
Qed.

(** *** The invariant of the scheduler *)

Record inv (s : MessageScheduler) : Prop := mkInv {
  inv_heap : forall p, heap_inv (ref_lt (objects s)) (_priority_queues s p);
  inv_queued : forall p r, r ∈ _priority_queues s p ->
    exists m, objects s !! r = Some m /\ status m = QUEUED /\ priority m = p /\
              _active_messages s !! message_id m = Some r;
  inv_nodup : forall p, NoDup (_priority_queues s p);
  inv_processing : forall r m, objects s !! r = Some m -> status m = PROCESSING ->
    _active_messages s !! message_id m = Some r;
  inv_capacity : forall p, high_class p = false ->
    Z.of_nat (length (_priority_queues s p)) <= max_queue_size s
}.

(** Every admitted message that is still QUEUED sits in the queue of its
    class. *)
Definition adm_inv (adm : list ref) (s : MessageScheduler) : Prop :=
  forall r, r ∈ adm ->
    exists m, objects s !! r = Some m /\
              (status m = QUEUED -> r ∈ _priority_queues s (priority m)).

(** The step from [s] to [s'] takes the messages [R] out of the queue of
    class [p] and out of status QUEUED, and touches nothing else but
    their entries of the active index. *)
Record retire_effect (s s' : MessageScheduler) (p : MessagePriority) (R : list ref)
    : Prop := mkRetire {
  ret_max : max_queue_size s' = max_queue_size s;
  ret_queue_elem : forall r,
    r ∈ _priority_queues s' p <-> r ∈ _priority_queues s p /\ r ∉ R;
  ret_queue_nodup : NoDup (_priority_queues s' p);
  ret_queue_len : (length (_priority_queues s' p) <= length (_priority_queues s p))%nat;
  ret_queue_heap : heap_inv (ref_lt (objects s')) (_priority_queues s' p);
  ret_queue_other : forall p', p' <> p -> _priority_queues s' p' = _priority_queues s p';
  ret_R : forall r, r ∈ R -> r ∈ _priority_queues s p;
  ret_obj_R : forall r m, r ∈ R -> objects s !! r = Some m ->
    exists m', objects s' !! r = Some m' /\ frame m m' /\ status m' <> QUEUED /\
               (status m' = PROCESSING ->
                _active_messages s' !! message_id m = _active_messages s !! message_id m);
  ret_obj_other : forall r, r ∉ R -> objects s' !! r = objects s !! r;
  ret_active : forall i,
    _active_messages s' !! i = _active_messages s !! i \/
    (_active_messages s' !! i = None /\
     exists r m, r ∈ R /\ objects s !! r = Some m /\ message_id m = i)
}.

(** The step from [s] to [s'] leaves the queues alone: it creates objects,
    moves objects that are in no queue to a status other than PROCESSING,
    and drops index entries of objects that are neither QUEUED nor
    PROCESSING. *)
Record outside_effect (s s' : MessageScheduler) : Prop := mkOutside {
  out_max : max_queue_size s' = max_queue_size s;
  out_queues : _priority_queues s' = _priority_queues s;
  out_obj : forall r,
    objects s' !! r = objects s !! r \/
    ((forall p, r ∉ _priority_queues s p) /\
     exists m', objects s' !! r = Some m' /\ status m' <> PROCESSING /\
                (status m' = QUEUED -> objects s !! r = None));
  out_active : forall i,
    _active_messages s' !! i = _active_messages s !! i \/
    (_active_messages s' !! i = None /\
     exists r m', _active_messages s !! i = Some r /\ objects s' !! r = Some m' /\
                  status m' <> QUEUED /\ status m' <> PROCESSING)
}.

Lemma queued_not_retired s s' p R p' r :
  inv s -> retire_effect s s' p R -> p' <> p -> r ∈ _priority_queues s p' -> r ∉ R.
Proof.
  intros Hinv Heff Hne Hr HR.
  apply (ret_R _ _ _ _ Heff) in HR.
  destruct (inv_queued _ Hinv _ _ Hr) as (m & Hm & _ & Hp & _).
  destruct (inv_queued _ Hinv _ _ HR) as (m2 & Hm2 & _ & Hp2 & _).
  congruence.
Qed.

Lemma retire_active_kept s s' p R r m :
  inv s -> retire_effect s s' p R ->
  r ∉ R -> objects s !! r = Some m -> _active_messages s !! message_id m = Some r ->
  _active_messages s' !! message_id m = Some r.
Proof.
  intros Hinv Heff HR Hm Hact.
  destruct (ret_active _ _ _ _ Heff (message_id m)) as [-> | (_ & r2 & m2 & HR2 & Hm2 & Hid)];
    [done |].
  destruct (inv_queued _ Hinv _ _ (ret_R _ _ _ _ Heff _ HR2)) as (m3 & Hm3 & _ & _ & Hact2).
  assert (r2 = r) by congruence. congruence.
Qed.

Lemma retire_inv s s' p R : inv s -> retire_effect s s' p R -> inv s'.
Proof.
  intros Hinv Heff. split.
  - intros p'. destruct (decide (p' = p)) as [-> | Hne].
    + apply (ret_queue_heap _ _ _ _ Heff).
    + rewrite (ret_queue_other _ _ _ _ Heff) by done.
      eapply heap_inv_ext; [| apply (inv_heap _ Hinv)].
      intros a b Ha Hb.
      apply ref_lt_same; apply (ret_obj_other _ _ _ _ Heff);
        by eapply queued_not_retired.
  - intros p' r Hr.
    assert (r ∈ _priority_queues s p' /\ r ∉ R) as [Hr0 HR].
    { destruct (decide (p' = p)) as [-> | Hne].
      - by apply (ret_queue_elem _ _ _ _ Heff).
      - rewrite (ret_queue_other _ _ _ _ Heff) in Hr by done.
        split; [done | by eapply queued_not_retired]. }
    destruct (inv_queued _ Hinv _ _ Hr0) as (m & Hm & Hst & Hp & Hact).
    exists m. rewrite (ret_obj_other _ _ _ _ Heff) by done.
    repeat split; try done. by eapply retire_active_kept.
  - intros p'. destruct (decide (p' = p)) as [-> | Hne].
    + apply (ret_queue_nodup _ _ _ _ Heff).
    + rewrite (ret_queue_other _ _ _ _ Heff) by done. apply (inv_nodup _ Hinv).
  - intros r m' Hm' Hst.
    destruct (decide (r ∈ R)) as [HR | HR].
    + destruct (inv_queued _ Hinv _ _ (ret_R _ _ _ _ Heff _ HR)) as (m & Hm & _ & _ & Hact).
      destruct (ret_obj_R _ _ _ _ Heff _ _ HR Hm) as (m2 & Hm2 & Hfr & _ & Hkeep).
      simplify_eq. destruct Hfr as (Hid & _). rewrite Hid.
      by rewrite Hkeep.
    + rewrite (ret_obj_other _ _ _ _ Heff) in Hm' by done.
      eapply retire_active_kept; [done | done | done | done |].
      by eapply (inv_processing _ Hinv).
  - intros p' Hp'. rewrite (ret_max _ _ _ _ Heff).
    destruct (decide (p' = p)) as [-> | Hne].
    + pose proof (ret_queue_len _ _ _ _ Heff). pose proof (inv_capacity _ Hinv p Hp'). lia.
    + rewrite (ret_queue_other _ _ _ _ Heff) by done. by apply (inv_capacity _ Hinv).
Qed.

Lemma retire_admitted adm s s' p R :
  inv s -> retire_effect s s' p R -> adm_inv adm s -> adm_inv adm s'.
Proof.
  intros Hinv Heff Hadm r Hr.
  destruct (Hadm r Hr) as (m & Hm & Hq).
  destruct (decide (r ∈ R)) as [HR | HR].
  - destruct (ret_obj_R _ _ _ _ Heff _ _ HR Hm) as (m' & Hm' & _ & Hst & _).
    exists m'. split; [done | done].
  - exists m. rewrite (ret_obj_other _ _ _ _ Heff) by done. split; [done |].
    intros Hst. specialize (Hq Hst).
    destruct (decide (priority m = p)) as [<- | Hne].
    + by apply (ret_queue_elem _ _ _ _ Heff).
    + by rewrite (ret_queue_other _ _ _ _ Heff).
Qed.

Lemma outside_inv s s' : inv s -> outside_effect s s' -> inv s'.
Proof.
  intros Hinv Heff.
  assert (Hsame : forall p r, r ∈ _priority_queues s p -> objects s' !! r = objects s !! r).
  { intros p r Hr. destruct (out_obj _ _ Heff r) as [-> | (Hno & _)]; [done |].
    by destruct (Hno p). }
  assert (Hkeep : forall r m, objects s' !! r = Some m ->
             status m = QUEUED \/ status m = PROCESSING ->
             _active_messages s !! message_id m = Some r ->
             _active_messages s' !! message_id m = Some r).
  { intros r m Hm Hst Hact.
    destruct (out_active _ _ Heff (message_id m))
      as [-> | (_ & r2 & m2 & Hact2 & Hm2 & Hn1 & Hn2)]; [done |].
    assert (r2 = r) by congruence. simplify_eq. by destruct Hst. }
  split.
  - intros p. rewrite (out_queues _ _ Heff).
    eapply heap_inv_ext; [| apply (inv_heap _ Hinv)].
    intros a b Ha Hb. apply ref_lt_same; by eapply Hsame.
  - intros p r. rewrite (out_queues _ _ Heff). intros Hr.
    destruct (inv_queued _ Hinv _ _ Hr) as (m & Hm & Hst & Hp & Hact).
    exists m. rewrite (Hsame _ _ Hr). repeat split; try done.
    apply Hkeep; [by rewrite (Hsame _ _ Hr) | by left | done].
  - intros p. rewrite (out_queues _ _ Heff). apply (inv_nodup _ Hinv).
  - intros r m Hm Hst.
    apply Hkeep; [done | by right |].
    destruct (out_obj _ _ Heff r) as [Heq | (_ & m' & Hm' & Hnp & _)].
    + rewrite Heq in Hm. by eapply (inv_processing _ Hinv).
    + congruence.
  - intros p Hp. rewrite (out_max _ _ Heff), (out_queues _ _ Heff).
    by apply (inv_capacity _ Hinv).
Qed.

Lemma outside_admitted adm s s' :
  outside_effect s s' -> adm_inv adm s -> adm_inv adm s'.
Proof.
  intros Heff Hadm r Hr.
  destruct (Hadm r Hr) as (m & Hm & Hq).
  destruct (out_obj _ _ Heff r) as [Heq | (_ & m' & Hm' & _ & Hfresh)].
  - exists m. rewrite Heq, (out_queues _ _ Heff). done.
  - exists m'. split; [done |]. intros Hst. specialize (Hfresh Hst). congruence.
Qed.

(** *** The expiry sweep *)

Lemma lookup_total_alter_frame (f : Message -> Message) (objs : gmap ref Message) r r' :
  (forall m, frame m (f m)) -> frame (objs !!! r') (alter f r objs !!! r').
Proof.
  intros Hf. rewrite !lookup_total_alt.
  destruct (decide (r = r')) as [-> | Hne].
  - rewrite lookup_alter_eq. destruct (objs !! r'); cbn; [apply Hf | apply frame_refl].
  - rewrite lookup_alter_ne by done. apply frame_refl.
Qed.

Lemma is_expired_frame now m m' : frame m m' -> is_expired now m' = is_expired now m.
Proof. intros (_ & _ & _ & Htc). unfold is_expired. by rewrite Htc. Qed.

(** [r] is due at [now] in the heap of [s]. *)
Definition due (s : MessageScheduler) (now : Z) (r : ref) : Prop :=
  is_expired now (objects s !!! r) = true.

#[global] Instance due_dec s now r : Decision (due s now r).
Proof. unfold due. apply _. Defined.

Lemma foldl_heappush_perm (lt : ref -> ref -> bool) (l acc : list ref) :
  foldl (heappush lt) acc l ≡ₚ acc ++ l.
Proof.
  revert acc. induction l as [| x l IH]; intros acc; cbn.
  - by rewrite app_nil_r.
  - rewrite IH, heappush_perm. cbn. apply Permutation_middle.
Qed.

Lemma foldl_heappush_heap (objs : gmap ref Message) (l acc : list ref) :
  heap_inv (ref_lt objs) acc -> heap_inv (ref_lt objs) (foldl (heappush (ref_lt objs)) acc l).
Proof.
  revert acc. induction l as [| x l IH]; intros acc Hacc; cbn; [done |].
  apply IH. apply heappush_heap; [apply ref_lt_asym | apply ref_lt_negtrans | done].
Qed.

Lemma heap_inv_nil (lt : ref -> ref -> bool) : heap_inv lt [].
Proof. intros i x p _ Hx. by rewrite lookup_nil in Hx. Qed.

Lemma cleanup_scan_spec s queue now s' valid_messages expired_count :
  cleanup_scan s queue now = (s', valid_messages, expired_count) ->
  NoDup queue ->
  max_queue_size s' = max_queue_size s /\
  _priority_queues s' = _priority_queues s /\
  (forall r, r ∈ valid_messages <-> r ∈ queue /\ ~ due s now r) /\
  NoDup valid_messages /\
  Z.of_nat (length valid_messages) + expired_count = Z.of_nat (length queue) /\
  0 <= expired_count /\
  (expired_count = 0 -> s' = s /\ forall r, r ∈ queue -> ~ due s now r) /\
  (forall r, ~ (r ∈ queue /\ due s now r) -> objects s' !! r = objects s !! r) /\
  (forall r m, r ∈ queue -> due s now r -> objects s !! r = Some m ->
     objects s' !! r = Some (update_status TIMEOUT (Some "Message expired") now m)) /\
  (forall i, _active_messages s' !! i = _active_messages s !! i \/
             (_active_messages s' !! i = None /\
              exists r, r ∈ queue /\ due s now r /\ message_id (objects s !!! r) = i)).
Proof.
  revert s s' valid_messages expired_count.
  induction queue as [| r rest IH]; intros s s' valid count Hscan Hnd.
  { cbn in Hscan. simplify_eq. split_and!.
    - done.
    - done.
    - intros r. rewrite elem_of_nil. tauto.
    - constructor.
    - done.
    - done.
    - intros _. split; [done |]. intros r Hr. by apply elem_of_nil in Hr.
    - done.
    - intros r m Hr. by apply elem_of_nil in Hr.
    - by left. }
  apply list.NoDup_cons in Hnd as [Hr_rest Hnd].
  cbn [cleanup_scan] in Hscan.
  destruct (is_expired now (objects s !!! r)) eqn:Hexp.
  - set (s1 := active_pop (mutate s r (update_status TIMEOUT (Some "Message expired") now))
                 (message_id (objects s !!! r))) in *.
    destruct (cleanup_scan s1 rest now) as [[s2 valid2] count2] eqn:Hrec.
    simplify_eq.
    destruct (IH _ _ _ _ Hrec Hnd)
      as (Hmax & Hq & Hvalid & Hvnd & Hlen & Hpos & _ & Hsame & Hupd & Hact).
    assert (Hdue : forall r', due s1 now r' <-> due s now r').
    { intros r'. unfold due. subst s1. cbn.
      by rewrite (is_expired_frame _ _ _
                    (lookup_total_alter_frame _ (objects s) r r'
                       (frame_update_status TIMEOUT _ now))). }
    split_and!.
    + done.
    + done.
    + intros r'. rewrite Hvalid, Hdue, elem_of_cons. split; [tauto |].
      intros [[-> | Hin] Hnd']; [by destruct Hnd' | done].
    + done.
    + cbn [length]. lia.
    + lia.
    + lia.
    + intros r' Hr'.
      assert (r' <> r) as Hne.
      { intros ->. apply Hr'. split; [by left | done]. }
      rewrite Hsame.
      * subst s1. cbn. by rewrite lookup_alter_ne.
      * intros [Hin Hd]. apply Hr'. split; [by right | by apply Hdue].
    + intros r' m Hin Hd Hm.
      apply elem_of_cons in Hin as [-> | Hin].
      * rewrite Hsame by (intros [? _]; done).
        subst s1. cbn. by rewrite lookup_alter_eq, Hm.
      * apply Hupd; [done | by apply Hdue |].
        subst s1. cbn. rewrite lookup_alter_ne; [done |].
        intros ->. done.
    + intros i.
      destruct (Hact i) as [Heq | (Hnone & r' & Hin & Hd & Hid)].
      * rewrite Heq. subst s1. cbn.
        destruct (decide (message_id (objects s !!! r) = i)) as [<- | Hne].
        -- right. rewrite lookup_delete_eq. split; [done |].
           exists r. split; [by left | done].
        -- left. by rewrite lookup_delete_ne.
      * right. split; [done |]. exists r'. split; [by right |].
        split; [by apply Hdue |].
        rewrite <- Hid. subst s1. cbn. symmetry.
        apply (lookup_total_alter_frame _ (objects s) r r'
                 (frame_update_status TIMEOUT _ now)).
  - destruct (cleanup_scan s rest now) as [[s2 valid2] count2] eqn:Hrec.
    simplify_eq.
    destruct (IH _ _ _ _ Hrec Hnd)
      as (Hmax & Hq & Hvalid & Hvnd & Hlen & Hpos & Hzero & Hsame & Hupd & Hact).
    assert (Hnot : ~ due s now r) by (unfold due; congruence).
    split_and!.
    + done.
    + done.
    + intros r'. rewrite !elem_of_cons, Hvalid. split.
      * intros [-> | [? ?]]; split; auto.
      * intros [[-> | Hin] Hnd']; [by left | by right].
    + apply list.NoDup_cons. split; [| done].
      intros Hin. apply Hvalid in Hin as [? _]. done.
    + cbn [length]. lia.
    + done.
    + intros Hc. destruct (Hzero Hc) as [-> Hnone]. split; [done |].
      intros r' [-> | Hin]%elem_of_cons; [done | by apply Hnone].
    + intros r' Hr'. apply Hsame. intros [Hin Hd]. apply Hr'. split; [by right | done].
    + intros r' m Hin Hd Hm.
      apply elem_of_cons in Hin as [-> | Hin]; [done |]. by apply Hupd.
    + intros i. destruct (Hact i) as [Heq | (Hnone & r' & Hin & Hd & Hid)]; [by left |].
      right. split; [done |]. exists r'. split; [by right | done].
Qed.


Lemma cleanup_effect s p now :
  inv s ->
  retire_effect s (_cleanup_expired_messages s p now).1 p
    (filter (due s now) (_priority_queues s p)).
Proof.
  intros Hinv. unfold _cleanup_expired_messages.
  destruct (cleanup_scan s (_priority_queues s p) now) as [[s1 valid] count] eqn:Hscan.
  destruct (cleanup_scan_spec _ _ _ _ _ _ Hscan (inv_nodup _ Hinv p))
    as (Hmax & Hq & Hvalid & Hvnd & Hlen & Hpos & Hzero & Hsame & Hupd & Hact).
  assert (HR : forall r, r ∈ filter (due s now) (_priority_queues s p) <->
                         r ∈ _priority_queues s p /\ due s now r).
  { intros r. rewrite list_elem_of_filter. tauto. }
  assert (Hobj_R : forall r m, r ∈ filter (due s now) (_priority_queues s p) ->
            objects s !! r = Some m ->
            exists m', objects s1 !! r = Some m' /\ frame m m' /\ status m' <> QUEUED /\
              (status m' = PROCESSING ->
               _active_messages s1 !! message_id m = _active_messages s !! message_id m)).
  { intros r m [Hin Hd]%HR Hm. eexists. split; [by apply Hupd |].
    split; [apply frame_update_status |]. split; [done | discriminate]. }
  assert (Hobj_other : forall r, r ∉ filter (due s now) (_priority_queues s p) ->
            objects s1 !! r = objects s !! r).
  { intros r Hr. apply Hsame. by rewrite <- HR. }
  assert (Hactive : forall i,
            _active_messages s1 !! i = _active_messages s !! i \/
            (_active_messages s1 !! i = None /\
             exists r m, r ∈ filter (due s now) (_priority_queues s p) /\
                         objects s !! r = Some m /\ message_id m = i)).
  { intros i. destruct (Hact i) as [? | (Hnone & r & Hin & Hd & Hid)]; [by left |].
    right. split; [done |].
    destruct (inv_queued _ Hinv _ _ Hin) as (m & Hm & _).
    exists r, m. split; [by apply HR |]. split; [done |].
    rewrite lookup_total_alt, Hm in Hid. done. }
  destruct (0 <? count) eqn:Hc; cbn [fst].
  - pose proof (foldl_heappush_perm (ref_lt (objects s1)) valid []) as Hperm.
    cbn [app] in Hperm.
    split; cbn.
    + done.
    + intros r. rewrite fn_lookup_insert, Hperm, Hvalid, HR. tauto.
    + rewrite fn_lookup_insert, Hperm. done.
    + rewrite fn_lookup_insert, Hperm. lia.
    + rewrite fn_lookup_insert. apply foldl_heappush_heap, heap_inv_nil.
    + intros p' Hne. rewrite fn_lookup_insert_ne by done. by rewrite Hq.
    + intros r. rewrite HR. tauto.
    + done.
    + done.
    + done.
  - destruct Hzero as [-> Hnone]; [lia |].
    split.
    + done.
    + intros r. rewrite HR. split; [| tauto].
      intros Hin. split; [done |]. intros [_ Hd]. by eapply Hnone.
    + apply (inv_nodup _ Hinv).
    + lia.
    + apply (inv_heap _ Hinv).
    + done.
    + intros r. rewrite HR. tauto.
    + done.
    + done.
    + done.
Qed.

(** *** Taking the head of a queue *)

Lemma pop_retire s s' p r queue (g : Message -> Message) :
  inv s ->
  heappop (ref_lt (objects s)) (_priority_queues s p) = Some (r, queue) ->
  max_queue_size s' = max_queue_size s ->
  _priority_queues s' = <[p := queue]> (_priority_queues s) ->
  objects s' = alter g r (objects s) ->
  (forall m, frame m (g m) /\ status (g m) <> QUEUED) ->
  (_active_messages s' = _active_messages s \/
   (_active_messages s' = delete (message_id (objects s !!! r)) (_active_messages s) /\
    forall m, status (g m) <> PROCESSING)) ->
  retire_effect s s' p [r].
Proof.
  intros Hinv Hpop Hmax Hq Hobj Hg Hact.
  pose proof (heappop_perm _ _ _ _ Hpop) as Hperm.
  pose proof (inv_nodup _ Hinv p) as Hnd. rewrite Hperm in Hnd.
  apply list.NoDup_cons in Hnd as [Hr Hnd].
  assert (Hin : r ∈ _priority_queues s p) by (rewrite Hperm; by left).
  destruct (inv_queued _ Hinv _ _ Hin) as (m & Hm & _).
  split.
  - done.
  - intros r0. rewrite Hq, fn_lookup_insert, Hperm, elem_of_cons, list_elem_of_singleton.
    split; [| tauto]. intros Hr0. split; [by right |]. by intros ->.
  - by rewrite Hq, fn_lookup_insert.
  - rewrite Hq, fn_lookup_insert, Hperm. cbn. lia.
  - rewrite Hq, fn_lookup_insert, Hobj.
    eapply heap_inv_ext.
    2: { eapply heappop_heap;
           [apply ref_lt_asym | apply ref_lt_negtrans | apply (inv_heap _ Hinv p) | done]. }
    intros a b Ha Hb. apply ref_lt_same; apply lookup_alter_ne; by intros ->.
  - intros p' Hne. by rewrite Hq, fn_lookup_insert_ne.
  - intros r0 ->%list_elem_of_singleton. done.
  - intros r0 m0 ->%list_elem_of_singleton Hm0.
    rewrite Hm in Hm0. injection Hm0 as <-.
    exists (g m). rewrite Hobj, lookup_alter_eq, Hm. cbn.
    destruct (Hg m) as [Hfr Hst]. split_and!; try done.
    intros Hproc. destruct Hact as [-> | [_ Hnp]]; [done |]. by destruct (Hnp m).
  - intros r0 Hr0. rewrite Hobj. apply lookup_alter_ne.
    intros ->. apply Hr0. by apply list_elem_of_singleton.
  - intros i. destruct Hact as [-> | [-> _]]; [by left |].
    rewrite lookup_total_alt, Hm. cbn.
    destruct (decide (message_id m = i)) as [<- | Hne].
    + right. rewrite lookup_delete_eq. split; [done |].
      exists r, m. split; [by apply list_elem_of_singleton | done].
    + left. by rewrite lookup_delete_ne.
Qed.

Lemma process_pop_effect s p now s' r expired :
  inv s -> process_pop s p now = Some (s', r, expired) ->
  retire_effect s s' p [r] /\
  exists m', objects s' !! r = Some m' /\
             status m' = (if expired then TIMEOUT else PROCESSING).
Proof.
  intros Hinv. unfold process_pop.
  destruct (heappop _ _) as [[message queue] |] eqn:Hpop; [| done].
  assert (Hin : message ∈ _priority_queues s p).
  { rewrite (heappop_perm _ _ _ _ Hpop). by left. }
  destruct (inv_queued _ Hinv _ _ Hin) as (m & Hm & _).
  cbn. destruct (is_expired now _) eqn:Hexp; intros [= <- <- <-].
  - split.
    + eapply (pop_retire _ _ _ _ _
                (update_status TIMEOUT (Some "Message expired before processing") now
                 ∘ update_status PROCESSING None now ∘ set_processing_start_time now));
        [done | done | done | done | | | by left].
      * cbn. by rewrite !alter_alter_eq.
      * intros m0. split; [by repeat split | done].
    + eexists. cbn. rewrite !lookup_alter_eq, Hm. cbn. done.
  - split.
    + eapply (pop_retire _ _ _ _ _
                (update_status PROCESSING None now ∘ set_processing_start_time now));
        [done | done | done | done | | | by left].
      * cbn. by rewrite !alter_alter_eq.
      * intros m0. split; [by repeat split | done].
    + eexists. cbn. rewrite !lookup_alter_eq, Hm. cbn. done.
Qed.

Lemma make_room_effect s p lower_priorities now s' made :
  inv s -> make_room_loop s p lower_priorities now = (s', made) ->
  (made = false /\ s' = s) \/
  (made = true /\ exists lower r,
     priority_value lower < priority_value p /\ retire_effect s s' lower [r]).
Proof.
  intros Hinv. induction lower_priorities as [| lower rest IH]; cbn [make_room_loop].
  { intros [= <- <-]. by left. }
  destruct (priority_value p <=? priority_value lower) eqn:Hle; [done |].
  destruct (heappop _ _) as [[removed queue] |] eqn:Hpop; [| done].
  intros [= <- <-]. right. split; [done |]. exists lower, removed. split; [lia |].
  eapply pop_retire; [done | done | done | done | done | |].
  - intros m0. split; [apply frame_update_status | done].
  - right. split; [done | done].
Qed.

(** *** Steps that leave the queues alone *)

Lemma outside_same s s' :
  max_queue_size s' = max_queue_size s ->
  _priority_queues s' = _priority_queues s ->
  objects s' = objects s ->
  _active_messages s' = _active_messages s ->
  outside_effect s s'.
Proof.
  intros Hmax Hq Hobj Hact. split; [done | done | |].
  - intros r. left. by rewrite Hobj.
  - intros i. left. by rewrite Hact.
Qed.

Lemma queued_in_objects s p r : inv s -> r ∈ _priority_queues s p -> is_Some (objects s !! r).
Proof. intros Hinv Hr. destruct (inv_queued _ Hinv _ _ Hr) as (m & -> & _). eauto. Qed.

Lemma new_object_fresh s m :
  objects s !! (new_object s m).2 = None.
Proof. cbn. apply not_elem_of_dom, is_fresh. Qed.

Lemma new_object_effect s m :
  inv s -> status m = QUEUED -> outside_effect s (new_object s m).1.
Proof.
  intros Hinv Hst. pose proof (new_object_fresh s m) as Hfresh. cbn in *.
  split; cbn; [done | done | |].
  - intros r. destruct (decide (r = fresh (dom (objects s)))) as [-> | Hne].
    + right. split.
      * intros p Hin. apply (queued_in_objects _ _ _ Hinv) in Hin as [? Hin]. congruence.
      * exists m. rewrite lookup_insert_eq. split; [done |]. split; [congruence | done].
    + left. by rewrite lookup_insert_ne.
  - intros i. by left.
Qed.

(** A method call that ends the life of an object that is in no queue,
    possibly followed by dropping its entry of the active index. *)
Lemma outside_mutate s s' r m (g : Message -> Message) :
  objects s !! r = Some m ->
  (forall p, r ∉ _priority_queues s p) ->
  max_queue_size s' = max_queue_size s ->
  _priority_queues s' = _priority_queues s ->
  objects s' = alter g r (objects s) ->
  status (g m) <> QUEUED -> status (g m) <> PROCESSING ->
  (_active_messages s' = _active_messages s \/
   (_active_messages s' = delete (message_id m) (_active_messages s) /\
    _active_messages s !! message_id m = Some r)) ->
  outside_effect s s'.
Proof.
  intros Hm Hno Hmax Hq Hobj Hst1 Hst2 Hact.
  assert (Hr' : objects s' !! r = Some (g m)) by (by rewrite Hobj, lookup_alter_eq, Hm).
  split; [done | done | |].
  - intros r0. destruct (decide (r0 = r)) as [-> | Hne].
    + right. split; [done |]. exists (g m). split; [done |]. split; [done | done].
    + left. by rewrite Hobj, lookup_alter_ne.
  - intros i. destruct Hact as [-> | [-> Hidx]]; [by left |].
    destruct (decide (message_id m = i)) as [<- | Hne].
    + right. rewrite lookup_delete_eq. split; [done |]. by exists r, (g m).
    + left. by rewrite lookup_delete_ne.
Qed.

Lemma processing_not_queued s r m p :
  inv s -> objects s !! r = Some m -> status m <> QUEUED -> r ∉ _priority_queues s p.
Proof.
  intros Hinv Hm Hst Hin.
  destruct (inv_queued _ Hinv _ _ Hin) as (m' & Hm' & Hq & _). congruence.
Qed.

Lemma process_finish_effect s r m outcome now :
  inv s -> objects s !! r = Some m -> status m = PROCESSING ->
  outside_effect s (process_finish s (priority m) r outcome now).
Proof.
  intros Hinv Hm Hst.
  assert (Hno : forall p, r ∉ _priority_queues s p).
  { intros p. eapply processing_not_queued; [done | done | congruence]. }
  pose proof (inv_processing _ Hinv _ _ Hm Hst) as Hidx.
  destruct outcome as [[|] | | error_msg]; cbn.
  - eapply (outside_mutate _ _ r m
              (update_status COMPLETED None now ∘ set_processing_end_time now));
      [done | done | done | done | | done | done |].
    + cbn. by rewrite alter_alter_eq.
    + right. cbn. rewrite !lookup_total_alt, !lookup_alter_eq, Hm. cbn. done.
  - eapply (outside_mutate _ _ r m
              (update_status FAILED (Some "Processor returned False") now
               ∘ set_processing_end_time now));
      [done | done | done | done | | done | done |].
    + cbn. by rewrite alter_alter_eq.
    + right. cbn. rewrite !lookup_total_alt, !lookup_alter_eq, Hm. cbn. done.
  - eapply (outside_mutate _ _ r m); [done | done | done | done | done | done | done |].
    by left.
  - eapply (outside_mutate _ _ r m); [done | done | done | done | done | done | done |].
    by left.
Qed.

Lemma foldl_active_pop s ids :
  let s' := foldl active_pop s ids in
  max_queue_size s' = max_queue_size s /\
  _priority_queues s' = _priority_queues s /\
  objects s' = objects s /\
  forall i, _active_messages s' !! i =
            if decide (i ∈ ids) then None else _active_messages s !! i.
Proof.
  revert s. induction ids as [| id ids IH]; intros s; cbn.
  { split_and!; done. }
  destruct (IH (active_pop s id)) as (Hmax & Hq & Hobj & Hact). cbn in *.
  split_and!; try done.
  intros i. rewrite Hact.
  destruct (decide (i ∈ ids)) as [Hin | Hnin].
  - rewrite decide_True; [done | by right].
  - destruct (decide (i = id)) as [-> | Hne].
    + rewrite decide_True by (by left). apply lookup_delete_eq.
    + rewrite decide_False; [by rewrite lookup_delete_ne |].
      intros [? | ?]%elem_of_cons; done.
Qed.

Lemma handle_memory_pressure_effect s memory_percent :
  outside_effect s (_handle_memory_pressure s memory_percent).
Proof.
  unfold _handle_memory_pressure.
  set (s1 := set_history s _).
  set (ids := take 100 _).
  destruct (foldl_active_pop s1 ids) as (Hmax & Hq & Hobj & Hact).
  assert (Heff : outside_effect s (foldl active_pop s1 ids)).
  { split; [done | done | |].
    - intros r. left. by rewrite Hobj.
    - intros i. rewrite Hact. destruct (decide (i ∈ ids)) as [Hin | Hnin]; [| by left].
      right. split; [done |].
      apply (subseteq_take 100) in Hin.
      apply list_elem_of_fmap in Hin as ([i' r] & -> & Hin).
      apply list_elem_of_filter in Hin as [Hfin Hin]. cbn in *.
      apply elem_of_map_to_list in Hin.
      exists r. unfold finished_status in Hfin.
      apply bool_decide_eq_true in Hfin.
      rewrite Hobj. rewrite lookup_total_alt in Hfin.
      destruct (objects s !! r) as [m |] eqn:Hm; cbn in Hfin.
      + exists m. split; [done |]. split; [done |].
        split; intros Heq; rewrite Heq in Hfin;
          repeat (apply elem_of_cons in Hfin as [? | Hfin]; [done |]);
          by apply elem_of_nil in Hfin.
      + repeat (apply elem_of_cons in Hfin as [? | Hfin]; [done |]).
        by apply elem_of_nil in Hfin. }
  destruct (Qltb 90 memory_percent); [| done].
  destruct Heff as [H1 H2 H3 H4]. split; done.
Qed.

(** *** Enqueueing *)

Lemma enqueue_state s r m now :
  objects s !! r = Some m ->
  let s' := (enqueue s r now).1 in
  max_queue_size s' = max_queue_size s /\
  _priority_queues s' =
    <[priority m := heappush (ref_lt (alter (set_queue_time now) r (objects s)))
                      (_priority_queues s (priority m)) r]> (_priority_queues s) /\
  objects s' = alter (set_queue_time now) r (objects s) /\
  _active_messages s' = <[message_id m := r]> (_active_messages s).
Proof.
  intros Hm. unfold enqueue. cbn.
  rewrite !lookup_total_alt, !lookup_alter_eq, Hm. cbn. done.
Qed.

Section Enqueue.

Variables (s : MessageScheduler) (r : ref) (m : Message) (now : Z).
Hypothesis Hinv : inv s.
Hypothesis Hm : objects s !! r = Some m.
Hypothesis Hst : status m = QUEUED.
Hypothesis Hno : forall p, r ∉ _priority_queues s p.
Hypothesis Hidx : _active_messages s !! message_id m = None.
Hypothesis Hroom : high_class (priority m) = false ->
  Z.of_nat (length (_priority_queues s (priority m))) < max_queue_size s.

Lemma enqueue_other_object r0 :
  r0 <> r -> objects (enqueue s r now).1 !! r0 = objects s !! r0.
Proof.
  intros Hne. destruct (enqueue_state s r m now Hm) as (_ & _ & -> & _).
  by rewrite lookup_alter_ne.
Qed.

Lemma enqueue_elem p r0 :
  r0 ∈ _priority_queues (enqueue s r now).1 p <->
  (p = priority m /\ r0 = r) \/ r0 ∈ _priority_queues s p.
Proof.
  destruct (enqueue_state s r m now Hm) as (_ & -> & _ & _).
  destruct (decide (p = priority m)) as [-> | Hne].
  - rewrite fn_lookup_insert, heappush_perm, elem_of_cons. tauto.
  - rewrite fn_lookup_insert_ne by done. split; [tauto |]. intros [[? _] | ?]; done.
Qed.

Lemma enqueue_index_kept r0 m0 :
  objects s !! r0 = Some m0 -> _active_messages s !! message_id m0 = Some r0 ->
  _active_messages (enqueue s r now).1 !! message_id m0 = Some r0.
Proof.
  intros Hm0 Hact. destruct (enqueue_state s r m now Hm) as (_ & _ & _ & ->).
  rewrite lookup_insert_ne; [done |]. intros Heq. rewrite Heq in Hidx. congruence.
Qed.

Lemma enqueue_inv : inv (enqueue s r now).1.
Proof.
  pose proof (enqueue_state s r m now Hm) as (Hmax & Hq & Hobj & Hact).
  split.
  - intros p. rewrite Hq, Hobj.
    assert (Hold : forall p', heap_inv (ref_lt (alter (set_queue_time now) r (objects s)))
                                (_priority_queues s p')).
    { intros p'. eapply heap_inv_ext; [| apply (inv_heap _ Hinv p')].
      intros a b Ha Hb. apply ref_lt_same; apply lookup_alter_ne; intros ->; by eapply Hno. }
    destruct (decide (p = priority m)) as [-> | Hne].
    + rewrite fn_lookup_insert.
      apply heappush_heap; [apply ref_lt_asym | apply ref_lt_negtrans | apply Hold].
    + rewrite fn_lookup_insert_ne by done. apply Hold.
  - intros p r0 [[-> ->] | Hin]%enqueue_elem.
    + exists (set_queue_time now m). split_and!.
      * by rewrite Hobj, lookup_alter_eq, Hm.
      * done.
      * done.
      * rewrite Hact. apply lookup_insert_eq.
    + destruct (inv_queued _ Hinv _ _ Hin) as (m0 & Hm0 & Hst0 & Hp0 & Hact0).
      exists m0. rewrite enqueue_other_object by (intros ->; by eapply Hno).
      split_and!; try done. by apply enqueue_index_kept.
  - intros p. rewrite Hq.
    destruct (decide (p = priority m)) as [-> | Hne].
    + rewrite fn_lookup_insert, heappush_perm. apply list.NoDup_cons.
      split; [apply Hno | apply (inv_nodup _ Hinv)].
    + rewrite fn_lookup_insert_ne by done. apply (inv_nodup _ Hinv).
  - intros r0 m0 Hm0 Hst0.
    destruct (decide (r0 = r)) as [-> | Hne].
    + rewrite Hobj, lookup_alter_eq, Hm in Hm0. cbn in Hm0.
      injection Hm0 as <-. cbn in Hst0. congruence.
    + rewrite enqueue_other_object in Hm0 by done.
      apply enqueue_index_kept; [done |]. by eapply (inv_processing _ Hinv).
  - intros p Hp. rewrite Hmax, Hq.
    destruct (decide (p = priority m)) as [-> | Hne].
    + rewrite fn_lookup_insert, heappush_perm. cbn [length].
      specialize (Hroom Hp). lia.
    + rewrite fn_lookup_insert_ne by done. by apply (inv_capacity _ Hinv).
Qed.

Lemma enqueue_admitted adm : adm_inv adm s -> adm_inv (r :: adm) (enqueue s r now).1.
Proof.
  pose proof (enqueue_state s r m now Hm) as (_ & _ & Hobj & _).
  intros Hadm r0 Hr0.
  destruct (decide (r0 = r)) as [-> | Hne].
  - exists (set_queue_time now m). split.
    + by rewrite Hobj, lookup_alter_eq, Hm.
    + intros _. apply enqueue_elem. by left.
  - apply elem_of_cons in Hr0 as [? | Hr0]; [done |].
    destruct (Hadm r0 Hr0) as (m0 & Hm0 & Hq0).
    exists m0. rewrite enqueue_other_object by done. split; [done |].
    intros Hst0. apply enqueue_elem. right. by apply Hq0.
Qed.

End Enqueue.

(** *** Admission keeps the invariant *)

(** What [add_message] needs to know about the object it is given. *)
Definition submittable (s : MessageScheduler) (r : ref) (m : Message) : Prop :=
  objects s !! r = Some m /\ (forall p, r ∉ _priority_queues s p) /\
  _active_messages s !! message_id m = None.

Lemma retire_submittable s s' p R r m :
  retire_effect s s' p R -> submittable s r m -> submittable s' r m.
Proof.
  intros Heff (Hm & Hno & Hidx).
  assert (HR : r ∉ R) by (intros HR; by apply (ret_R _ _ _ _ Heff), Hno in HR).
  split_and!.
  - by rewrite (ret_obj_other _ _ _ _ Heff).
  - intros p' Hin. destruct (decide (p' = p)) as [-> | Hne].
    + apply (ret_queue_elem _ _ _ _ Heff) in Hin as [Hin _]. by eapply Hno.
    + rewrite (ret_queue_other _ _ _ _ Heff) in Hin by done. by eapply Hno.
  - destruct (ret_active _ _ _ _ Heff (message_id m)) as [-> | [-> _]]; done.
Qed.

Lemma add_message_internal_inv adm s r m now :
  inv s -> adm_inv adm s -> submittable s r m -> status m = QUEUED -> r ∉ adm ->
  inv (_add_message_internal s r now).1 /\
  adm_inv (if (_add_message_internal s r now).2 then r :: adm else adm)
          (_add_message_internal s r now).1.
Proof.
  intros Hinv Hadm Hsub Hst Hnadm.
  pose proof Hsub as (Hm & Hno & Hidx).
  unfold _add_message_internal.
  rewrite lookup_total_alt, Hm. cbn [default from_option id].
  destruct (max_queue_size s <=? _) eqn:Hfull.
  2: { apply Z.leb_gt in Hfull.
       replace (enqueue s r now).2 with true by done.
       split; [eapply enqueue_inv | eapply enqueue_admitted]; try done. }
  pose proof (cleanup_effect s (priority m) now Hinv) as Heff1.
  set (s1 := (_cleanup_expired_messages s (priority m) now).1) in *.
  pose proof (retire_inv _ _ _ _ Hinv Heff1) as Hinv1.
  pose proof (retire_admitted _ _ _ _ _ Hinv Heff1 Hadm) as Hadm1.
  pose proof (retire_submittable _ _ _ _ _ _ Heff1 Hsub) as Hsub1.
  pose proof Hsub1 as (Hm1 & Hno1 & Hidx1).
  destruct (max_queue_size s1 <=? _) eqn:Hfull1.
  2: { apply Z.leb_gt in Hfull1.
       replace (enqueue s1 r now).2 with true by done.
       split; [eapply enqueue_inv | eapply enqueue_admitted]; try done. }
  destruct (high_class (priority m)) eqn:Hhigh.
  - destruct (_make_room_for_priority s1 (priority m) now) as [s2 made] eqn:Hroom.
    cbn [fst].
    assert (inv s2 /\ adm_inv adm s2 /\ submittable s2 r m) as (Hinv2 & Hadm2 & Hsub2).
    { unfold _make_room_for_priority in Hroom.
      destruct (make_room_effect _ _ _ _ _ _ Hinv1 Hroom)
        as [[_ ->] | (_ & lower & r0 & _ & Heff2)].
      - split_and!; done.
      - split_and!; [by eapply retire_inv | by eapply retire_admitted
                    | by eapply retire_submittable]. }
    destruct Hsub2 as (Hm2 & Hno2 & Hidx2).
    replace (enqueue s2 r now).2 with true by done.
    split; [eapply enqueue_inv | eapply enqueue_admitted]; try done. congruence.
  - cbn [fst snd].
    assert (Heff : outside_effect s1
              (mutate s1 r (update_status DROPPED (Some "Queue full") now))).
    { eapply (outside_mutate _ _ r m); try done. by left. }
    split; [by eapply outside_inv | by eapply outside_admitted].
Qed.

Lemma add_message_inv adm s r m now cancelled :
  inv s -> adm_inv adm s ->
  objects s !! r = Some m -> (forall p, r ∉ _priority_queues s p) ->
  status m = QUEUED -> r ∉ adm ->
  inv (add_message s r now cancelled).1 /\
  adm_inv (match (add_message s r now cancelled).2 with
           | inr true => r :: adm
           | _ => adm
           end) (add_message s r now cancelled).1.
Proof.
  intros Hinv Hadm Hm Hno Hst Hnadm.
  unfold add_message. rewrite lookup_total_alt, Hm. cbn [default from_option id].
  destruct (String.eqb _ _); [done |].
  destruct (bandwidth_required m <=? 0); [done |].
  destruct (bool_decide _) eqn:Hdup; [done |].
  apply bool_decide_eq_false in Hdup.
  assert (Hidx : _active_messages s !! message_id m = None).
  { destruct (_active_messages s !! message_id m) eqn:E; [| done]. destruct Hdup. eauto. }
  destruct (_degraded_mode s && _); [done |].
  destruct cancelled.
  - cbn [fst snd].
    assert (Heff : outside_effect s
              (mutate s r (update_status TIMEOUT (Some "Queue add timeout") now))).
    { eapply (outside_mutate _ _ r m); try done. by left. }
    split; [by eapply outside_inv | by eapply outside_admitted].
  - pose proof (add_message_internal_inv adm s r m now Hinv Hadm
                  (conj Hm (conj Hno Hidx)) Hst Hnadm) as [H1 H2].
    destruct (_add_message_internal s r now) as [s' admitted]. cbn in *.
    split; [done |]. by destruct admitted.
Qed.

Lemma submit_inv adm s m now cancelled :
  inv s -> adm_inv adm s -> status m = QUEUED ->
  inv (submit s m now cancelled).1.1 /\
  adm_inv (match (submit s m now cancelled).2 with
           | inr true => (submit s m now cancelled).1.2 :: adm
           | _ => adm
           end) (submit s m now cancelled).1.1.
Proof.
  intros Hinv Hadm Hst.
  pose proof (new_object_effect s m Hinv Hst) as Heff.
  pose proof (new_object_fresh s m) as Hfresh.
  unfold submit.
  destruct (new_object s m) as [s1 r] eqn:Hnew. cbn [fst snd] in *.
  assert (Hm1 : objects s1 !! r = Some m).
  { unfold new_object in Hnew. injection Hnew as <- <-. cbn. apply lookup_insert_eq. }
  assert (Hno1 : forall p, r ∉ _priority_queues s1 p).
  { intros p. rewrite (out_queues _ _ Heff). intros Hin.
    apply (queued_in_objects _ _ _ Hinv) in Hin as [? Hin]. congruence. }
  assert (Hnadm : r ∉ adm).
  { intros Hin. destruct (Hadm r Hin) as (? & ? & _). congruence. }
  pose proof (add_message_inv adm s1 r m now cancelled
                (outside_inv _ _ Hinv Heff) (outside_admitted _ _ _ Heff Hadm)
                Hm1 Hno1 Hst Hnadm) as [H1 H2].
  destruct (add_message s1 r now cancelled) as [s2 outcome]. done.
Qed.

(** Every reachable state satisfies the invariant. *)
Lemma reachable_inv adm s : reachable adm s -> inv s /\ adm_inv adm s.
Proof.
  induction 1 as [bw cap mem s Hnew
                 | adm s m now c s' r outcome _ [Hinv Hadm] Hst Hsub
                 | adm s p now s' r e _ [Hinv Hadm] Hpop
                 | adm s r m outcome now _ [Hinv Hadm] Hm Hst
                 | adm s p now _ [Hinv Hadm]
                 | adm s mem _ [Hinv Hadm]
                 | adm s b _ [Hinv Hadm]].
  - unfold MessageScheduler_new in Hnew.
    destruct (bw <=? 0); [done |]. destruct (cap <=? 0) eqn:Hcap; [done |].
    destruct (mem <=? 0); [done |]. injection Hnew as <-.
    split.
    + split; cbn.
      * intros p. apply heap_inv_nil.
      * intros p r Hr. by apply elem_of_nil in Hr.
      * intros p. constructor.
      * intros r m Hm. by rewrite lookup_empty in Hm.
      * intros p _. lia.
    + intros r Hr. by apply elem_of_nil in Hr.
  - pose proof (submit_inv adm s m now c Hinv Hadm Hst) as Hres.
    rewrite Hsub in Hres. done.
  - apply process_pop_effect in Hpop as [Heff _]; [| done].
    split; [by eapply retire_inv | by eapply retire_admitted].
  - pose proof (process_finish_effect s r m outcome now Hinv Hm Hst) as Heff.
    split; [by eapply outside_inv | by eapply outside_admitted].
  - pose proof (cleanup_effect s p now Hinv) as Heff.
    split; [by eapply retire_inv | by eapply retire_admitted].
  - pose proof (handle_memory_pressure_effect s mem) as Heff.
    split; [by eapply outside_inv | by eapply outside_admitted].
  - assert (Heff : outside_effect s (set_degraded s b)) by (by apply outside_same).
    split; [by eapply outside_inv | by eapply outside_admitted].
Qed.

(** *** Concrete runs *)

Definition demo_message (id : string) (p : MessagePriority) (created : Z) : Message :=
  mkMessage id p 1000 0 (mkTimeConstraints 50 None 5000 3) created created
    QUEUED 0 [] None None None.

(** [MessageScheduler(max_queue_size=queue_size)] *)
Definition scheduler_of (queue_size : Z) : MessageScheduler :=
  mkScheduler 50000 queue_size (fun _ => []) (fun _ => 0) false ∅ [] ∅.

Lemma reachable_scheduler_of queue_size : 0 < queue_size -> reachable [] (scheduler_of queue_size).
Proof.
  intros Hpos. apply (reach_init 50000 queue_size 512).
  unfold MessageScheduler_new. cbn.
  destruct (queue_size <=? 0) eqn:E; [lia | done].
Qed.

Lemma reach_submit_admitted adm s m now s' r :
  reachable adm s -> status m = QUEUED ->
  submit s m now false = (s', r, inr true) ->
  reachable (r :: adm) s'.
Proof. intros Hreach Hst Hsub. exact (reach_submit _ _ _ _ _ _ _ _ Hreach Hst Hsub). Qed.

(** A LOW message and then a CRITICAL message are admitted. *)
Definition low_then_critical : MessageScheduler :=
  let s := (submit (scheduler_of 10) (demo_message "l1" LOW 0) 10 false).1.1 in
  (submit s (demo_message "c1" CRITICAL 1) 11 false).1.1.

Lemma reachable_low_then_critical : reachable [1%nat; 0%nat] low_then_critical.
Proof.
  eapply (reach_submit_admitted [0%nat]
            (submit (scheduler_of 10) (demo_message "l1" LOW 0) 10 false).1.1
            (demo_message "c1" CRITICAL 1) 11); [| done | vm_compute; reflexivity].
  eapply (reach_submit_admitted [] (scheduler_of 10) (demo_message "l1" LOW 0) 10);
    [| done | vm_compute; reflexivity].
  by apply reachable_scheduler_of.
Qed.

(** *** Dispatch order *)

(** C3, as stated, fails: with a LOW and a CRITICAL message queued, the
    dispatch loop of class LOW pops the LOW message although the CRITICAL
    queue is not empty and its message comes first in the order of
    [Message.__lt__]. *)
Lemma low_popped_while_critical_queued :
  reachable [1%nat; 0%nat] low_then_critical /\
  _priority_queues low_then_critical CRITICAL = [1%nat] /\
  (exists s', process_pop low_then_critical LOW 20 = Some (s', 0%nat, false)) /\
  Message_lt (objects low_then_critical !!! 1%nat) (objects low_then_critical !!! 0%nat)
    = true.
Proof.
  split; [apply reachable_low_then_critical |].
  split; [vm_compute; reflexivity |].
  split; [eexists; vm_compute; reflexivity | vm_compute; reflexivity].
Qed.

(** C3, amended.  The message that the dispatch loop of a class pops is a
    least element of the queue of that class: every message of that queue
    has the class as its priority and was created no earlier.  Queues of
    other classes play no part. *)
Theorem pop_returns_least_of_class adm s p now s' r expired :
  reachable adm s ->
  process_pop s p now = Some (s', r, expired) ->
  exists m, objects s !! r = Some m /\ priority m = p /\ r ∈ _priority_queues s p /\
    forall r' m', r' ∈ _priority_queues s p -> objects s !! r' = Some m' ->
      priority m' = p /\ creation_timestamp m <= creation_timestamp m'.
Proof.
  intros [Hinv _]%reachable_inv Hpop. unfold process_pop in Hpop.
  destruct (heappop _ _) as [[message queue] |] eqn:Hheap; [| done].
  assert (message = r) as ->.
  { cbn in Hpop. by destruct (is_expired now _); injection Hpop. }
  assert (Hin : r ∈ _priority_queues s p).
  { rewrite (heappop_perm _ _ _ _ Hheap). by left. }
  destruct (inv_queued _ Hinv _ _ Hin) as (m & Hm & _ & Hp & _).
  exists m. split_and!; try done.
  intros r' m' Hin' Hm'.
  destruct (inv_queued _ Hinv _ _ Hin') as (m2 & Hm2 & _ & Hp2 & _).
  assert (m2 = m') as -> by congruence.
  split; [done |].
  pose proof (heappop_min _ (ref_lt_asym _) (ref_lt_negtrans _) _ _ _
                (inv_heap _ Hinv p) Hheap r' Hin') as Hmin.
  unfold ref_lt in Hmin. rewrite !lookup_total_alt, Hm, Hm' in Hmin. cbn in Hmin.
  unfold Message_lt in Hmin. rewrite Hp, Hp2, Z.eqb_refl in Hmin. cbn in Hmin. lia.
Qed.

Lemma pop_returns_least_of_class_witness :
  exists m, objects low_then_critical !! 0%nat = Some m /\ priority m = LOW /\
    0%nat ∈ _priority_queues low_then_critical LOW /\
    forall r' m', r' ∈ _priority_queues low_then_critical LOW ->
      objects low_then_critical !! r' = Some m' ->
      priority m' = LOW /\ creation_timestamp m <= creation_timestamp m'.
Proof.
  eapply (pop_returns_least_of_class [1%nat; 0%nat] low_then_critical LOW 20 _ 0%nat false).
  - apply reachable_low_then_critical.
  - vm_compute. reflexivity.
Defined.

(** *** Life cycle of an admitted message *)







(** *** Capacity *)

(** A scheduler with [max_queue_size = 1] after a LOW and two CRITICAL
    messages were submitted, in this order. *)
Definition two_critical : MessageScheduler :=
  let s := (submit (scheduler_of 1) (demo_message "l1" LOW 0) 10 false).1.1 in
  let s := (submit s (demo_message "c1" CRITICAL 1) 11 false).1.1 in
  (submit s (demo_message "c2" CRITICAL 2) 12 false).1.1.

(** C5.  The second CRITICAL message finds its queue full.  The LOW
    message is evicted and marked DROPPED, which frees no room in the
    CRITICAL queue; the message is pushed all the same and the queue holds
    two messages, one more than [max_queue_size]. *)
Lemma critical_queue_exceeds_capacity :
  reachable [2%nat; 1%nat; 0%nat] two_critical /\
  max_queue_size two_critical = 1 /\
  _priority_queues two_critical CRITICAL = [1%nat; 2%nat] /\
  _priority_queues two_critical LOW = [] /\
  status (objects two_critical !!! 0%nat) = DROPPED.
Proof.
  split.
  { eapply (reach_submit_admitted [1%nat; 0%nat]
              (submit (submit (scheduler_of 1) (demo_message "l1" LOW 0) 10 false).1.1
                 (demo_message "c1" CRITICAL 1) 11 false).1.1
              (demo_message "c2" CRITICAL 2) 12); [| done | vm_compute; reflexivity].
    eapply (reach_submit_admitted [0%nat]
              (submit (scheduler_of 1) (demo_message "l1" LOW 0) 10 false).1.1
              (demo_message "c1" CRITICAL 1) 11); [| done | vm_compute; reflexivity].
    eapply (reach_submit_admitted [] (scheduler_of 1) (demo_message "l1" LOW 0) 10);
      [| done | vm_compute; reflexivity].
    by apply reachable_scheduler_of. }
  repeat split; vm_compute; reflexivity.
Qed.

(** The bound does hold for the classes that are rejected when full. *)
Corollary medium_low_within_capacity adm s p :
  reachable adm s -> high_class p = false ->
  Z.of_nat (length (_priority_queues s p)) <= max_queue_size s.
Proof. intros [Hinv _]%reachable_inv. apply (inv_capacity _ Hinv). Qed.

(** *** Rejected admissions *)





(** *** The order of messages, as a whole *)

(** X16.  [Message.__lt__] is a strict weak order in which a message of a
    higher class comes before every message of a lower class, and within a
    class the older message comes first. *)
Theorem Message_lt_strict_weak_order :
  (forall a, Message_lt a a = false) /\
  (forall a b, Message_lt a b = true -> Message_lt b a = false) /\
  (forall a b c, Message_lt a b = true -> Message_lt b c = true -> Message_lt a c = true) /\
  (forall a b c, Message_lt a b = false -> Message_lt b c = false -> Message_lt a c = false) /\
  (forall a b, priority_value (priority b) < priority_value (priority a) ->
               Message_lt a b = true) /\
  (forall a b, priority a = priority b ->
               Message_lt a b = (creation_timestamp a <? creation_timestamp b)).
Proof.
  split_and!.
  - intros a. unfold Message_lt. rewrite Z.eqb_refl. cbn. apply Z.ltb_irrefl.
  - apply Message_lt_asym.
  - intros a b c. unfold Message_lt.
    destruct (priority_value (priority a) =? priority_value (priority b)) eqn:E1;
      destruct (priority_value (priority b) =? priority_value (priority c)) eqn:E2;
      destruct (priority_value (priority a) =? priority_value (priority c)) eqn:E3;
      cbn; lia.
  - apply Message_lt_negtrans.
  - intros a b Hlt. unfold Message_lt.
    destruct (priority_value (priority a) =? priority_value (priority b)) eqn:E; cbn; lia.
  - intros a b Heq. unfold Message_lt. by rewrite Heq, Z.eqb_refl.
Qed.

(** *** The expiry sweep, end to end *)

Lemma due_frame_alter (s : MessageScheduler) now r r' (f : Message -> Message) :
  (forall m, frame m (f m)) ->
  due (mutate s r f) now r' <-> due s now r'.
Proof.
  intros Hf. unfold due, mutate. cbn.
  by rewrite (is_expired_frame _ _ _ (lookup_total_alter_frame f (objects s) r r' Hf)).
Qed.

(** The index entries of the messages that the scan found expired are gone. *)
Lemma cleanup_scan_removed s queue now s' valid_messages expired_count :
  cleanup_scan s queue now = (s', valid_messages, expired_count) ->
  NoDup queue ->
  forall r, r ∈ queue -> due s now r ->
    _active_messages s' !! message_id (objects s !!! r) = None.
Proof.
  revert s s' valid_messages expired_count.
  induction queue as [| r0 rest IH]; intros s s' valid count Hscan Hnd r Hin Hdue.
  { by apply elem_of_nil in Hin. }
  apply list.NoDup_cons in Hnd as [Hr0 Hnd].
  cbn [cleanup_scan] in Hscan.
  destruct (is_expired now (objects s !!! r0)) eqn:Hexp.
  - set (s1 := active_pop (mutate s r0 (update_status TIMEOUT (Some "Message expired") now))
                 (message_id (objects s !!! r0))) in *.
    destruct (cleanup_scan s1 rest now) as [[s2 valid2] count2] eqn:Hrec.
    simplify_eq.
    assert (Hid : forall r', message_id (objects s1 !!! r') = message_id (objects s !!! r')).
    { intros r'. subst s1. cbn.
      apply (lookup_total_alter_frame _ (objects s) r0 r' (frame_update_status TIMEOUT _ now)). }
    assert (Hdue1 : forall r', due s1 now r' <-> due s now r').
    { intros r'. subst s1. unfold due. cbn.
      by rewrite (is_expired_frame _ _ _
                    (lookup_total_alter_frame _ (objects s) r0 r'
                       (frame_update_status TIMEOUT _ now))). }
    apply elem_of_cons in Hin as [-> | Hin].
    + destruct (cleanup_scan_spec _ _ _ _ _ _ Hrec Hnd)
        as (_ & _ & _ & _ & _ & _ & _ & _ & _ & Hact).
      destruct (Hact (message_id (objects s !!! r0))) as [-> | [-> _]]; [| done].
      subst s1. cbn. apply lookup_delete_eq.
    + rewrite <- Hid. eapply IH; [exact Hrec | done | done | by apply Hdue1].
  - destruct (cleanup_scan s rest now) as [[s2 valid2] count2] eqn:Hrec.
    simplify_eq.
    apply elem_of_cons in Hin as [-> | Hin]; [unfold due in Hdue; congruence |].
    eapply IH; [exact Hrec | done | done | done].
Qed.

Lemma filter_split_length {A} (P : A -> Prop) `{forall x, Decision (P x)} (l : list A) :
  (length (filter P l) + length (filter (fun x => ~ P x) l) = length l)%nat.
Proof.
  induction l as [| x l IH]; [done |].
  rewrite !filter_cons. destruct (decide (P x)); destruct (decide (~ P x)); cbn; tauto || lia.
Qed.

(** What the sweep of one class does, in terms of the scheduler before it. *)
Lemma cleanup_spec s p now :
  inv s ->
  let s' := (_cleanup_expired_messages s p now).1 in
  let queue := _priority_queues s p in
  (_cleanup_expired_messages s p now).2 = Z.of_nat (length (filter (due s now) queue)) /\
  _priority_queues s' p ≡ₚ filter (fun r => ~ due s now r) queue /\
  (forall p', p' <> p -> _priority_queues s' p' = _priority_queues s p') /\
  (forall r m, r ∈ queue -> due s now r -> objects s !! r = Some m ->
     objects s' !! r = Some (update_status TIMEOUT (Some "Message expired") now m) /\
     _active_messages s' !! message_id m = None) /\
  (forall r, ~ (r ∈ queue /\ due s now r) -> objects s' !! r = objects s !! r).
Proof.
  intros Hinv. cbn zeta. unfold _cleanup_expired_messages.
  destruct (cleanup_scan s (_priority_queues s p) now) as [[s1 valid] count] eqn:Hscan.
  pose proof (cleanup_scan_removed _ _ _ _ _ _ Hscan (inv_nodup _ Hinv p)) as Hgone.
  destruct (cleanup_scan_spec _ _ _ _ _ _ Hscan (inv_nodup _ Hinv p))
    as (Hmax & Hq & Hvalid & Hvnd & Hlen & Hpos & Hzero & Hsame & Hupd & Hact).
  assert (Hperm : valid ≡ₚ filter (fun r => ~ due s now r) (_priority_queues s p)).
  { apply NoDup_Permutation; [done | apply list.NoDup_filter, (inv_nodup _ Hinv) |].
    intros r. rewrite Hvalid, list_elem_of_filter. tauto. }
  assert (Hcount : count = Z.of_nat (length (filter (due s now) (_priority_queues s p)))).
  { pose proof (filter_split_length (due s now) (_priority_queues s p)) as Hsplit.
    rewrite <- Hperm in Hsplit. lia. }
  assert (Hobj : forall r m, r ∈ _priority_queues s p -> due s now r ->
            objects s !! r = Some m ->
            objects s1 !! r = Some (update_status TIMEOUT (Some "Message expired") now m) /\
            _active_messages s1 !! message_id m = None).
  { intros r m Hin Hdue Hm. split; [by apply Hupd |].
    specialize (Hgone r Hin Hdue). by rewrite lookup_total_alt, Hm in Hgone. }
  destruct (0 <? count) eqn:Hc; cbn [fst snd].
  - split_and!; cbn.
    + done.
    + rewrite fn_lookup_insert. by rewrite (foldl_heappush_perm _ valid []).
    + intros p' Hne. rewrite fn_lookup_insert_ne by done. by rewrite Hq.
    + done.
    + done.
  - destruct Hzero as [-> Hnone]; [lia |].
    split_and!; try done.
    rewrite <- Hperm. apply NoDup_Permutation; [apply (inv_nodup _ Hinv) | done |].
    intros r. rewrite Hvalid. split; [| tauto]. intros Hin. split; [done | by apply Hnone].
Qed.

Lemma due_same (s s' : MessageScheduler) now r :
  objects s' !! r = objects s !! r -> (due s' now r <-> due s now r).
Proof. intros Heq. unfold due. by rewrite !lookup_total_alt, Heq. Qed.

Lemma is_expired_mono (now now' : Z) (m : Message) :
  now' <= now -> is_expired now' m = true -> is_expired now m = true.
Proof.
  unfold is_expired. destruct (deadline_timestamp _); [| done].
  intros Hle Hexp. apply Z.ltb_lt in Hexp. apply Z.ltb_lt. lia.
Qed.

(** After the sweep no message of the class is due, and the messages of
    the other classes are as they were. *)
Lemma cleanup_clean s p now :
  inv s ->
  let s' := (_cleanup_expired_messages s p now).1 in
  (forall r, r ∈ _priority_queues s' p -> ~ due s' now r) /\
  (forall p' r, p' <> p -> r ∈ _priority_queues s p' -> objects s' !! r = objects s !! r).
Proof.
  intros Hinv. destruct (cleanup_spec s p now Hinv) as (_ & Hperm & _ & _ & Hsame).
  cbn zeta in *. split.
  - intros r Hin. rewrite Hperm in Hin. apply list_elem_of_filter in Hin as [Hnd Hin].
    rewrite due_same; [done |]. apply Hsame. tauto.
  - intros p' r Hne Hin. apply Hsame. intros [Hin' _].
    destruct (inv_queued _ Hinv _ _ Hin) as (m & Hm & _ & Hp & _).
    destruct (inv_queued _ Hinv _ _ Hin') as (m' & Hm' & _ & Hp' & _).
    congruence.
Qed.

Lemma cleanup_scan_none s queue now :
  (forall r, r ∈ queue -> ~ due s now r) -> cleanup_scan s queue now = (s, queue, 0).
Proof.
  induction queue as [| r rest IH]; intros Hnone; [done |].
  cbn [cleanup_scan].
  destruct (is_expired now (objects s !!! r)) eqn:Hexp.
  { destruct (Hnone r); [by left | done]. }
  rewrite IH; [done |]. intros r' Hin. apply Hnone. by right.
Qed.

Lemma cleanup_none s p now :
  (forall r, r ∈ _priority_queues s p -> ~ due s now r) ->
  _cleanup_expired_messages s p now = (s, 0).
Proof.
  intros Hnone. unfold _cleanup_expired_messages. by rewrite cleanup_scan_none.
Qed.

(** X17.  The expiry sweep of a class removes exactly the expired messages
    of its queue.  In a reachable state, [_cleanup_expired_messages]
    returns the number of expired messages of the queue; the queue
    afterwards holds the other messages, none of them expired, and the
    other queues are as before; every expired message has status TIMEOUT,
    the note "Message expired" and no entry in the active index; no other
    message object is touched. *)
Theorem cleanup_removes_exactly_expired adm s p now :
  reachable adm s ->
  let s' := (_cleanup_expired_messages s p now).1 in
  let queue := _priority_queues s p in
  (_cleanup_expired_messages s p now).2 = Z.of_nat (length (filter (due s now) queue)) /\
  _priority_queues s' p ≡ₚ filter (fun r => ~ due s now r) queue /\
  (forall r, r ∈ _priority_queues s' p -> ~ due s' now r) /\
  (forall p', p' <> p -> _priority_queues s' p' = _priority_queues s p') /\
  (forall r m, r ∈ queue -> due s now r -> objects s !! r = Some m ->
     objects s' !! r = Some (update_status TIMEOUT (Some "Message expired") now m) /\
     _active_messages s' !! message_id m = None) /\
  (forall r, ~ (r ∈ queue /\ due s now r) -> objects s' !! r = objects s !! r).
Proof.
  intros [Hinv _]%reachable_inv.
  destruct (cleanup_spec s p now Hinv) as (H1 & H2 & H3 & H4 & H5).
  destruct (cleanup_clean s p now Hinv) as (H6 & _).
  cbn zeta in *. split_and!; done.
Qed.

(** X18.  The sweep is idempotent: a second sweep of the same class at the
    same or an earlier instant finds nothing and changes nothing. *)
Theorem cleanup_twice adm s p now now' :
  reachable adm s -> now' <= now ->
  let s' := (_cleanup_expired_messages s p now).1 in
  _cleanup_expired_messages s' p now' = (s', 0).
Proof.
  intros [Hinv _]%reachable_inv Hle. cbn zeta.
  destruct (cleanup_clean s p now Hinv) as (Hclean & _). cbn zeta in Hclean.
  apply cleanup_none. intros r Hin Hdue.
  apply (Hclean r Hin). unfold due in *. by eapply is_expired_mono.
Qed.

(** The sweep writes queues, objects and the active index only. *)
Lemma cleanup_scan_fields s queue now s' valid_messages expired_count :
  cleanup_scan s queue now = (s', valid_messages, expired_count) ->
  _degraded_mode s' = _degraded_mode s /\
  _message_history s' = _message_history s /\
  _consecutive_errors s' = _consecutive_errors s /\
  max_bandwidth s' = max_bandwidth s.
Proof.
  revert s s' valid_messages expired_count.
  induction queue as [| r rest IH]; intros s s' valid count; cbn [cleanup_scan].
  - by intros [= <- _ _].
  - destruct (is_expired now _).
    + destruct (cleanup_scan _ rest now) as [[s2 v2] c2] eqn:Hrec.
      intros [= <- _ _]. by destruct (IH _ _ _ _ Hrec) as (-> & -> & -> & ->).
    + destruct (cleanup_scan _ rest now) as [[s2 v2] c2] eqn:Hrec.
      intros [= <- _ _]. by destruct (IH _ _ _ _ Hrec) as (-> & -> & -> & ->).
Qed.

Lemma cleanup_fields s p now :
  let s' := (_cleanup_expired_messages s p now).1 in
  _degraded_mode s' = _degraded_mode s /\
  _message_history s' = _message_history s /\
  _consecutive_errors s' = _consecutive_errors s /\
  max_bandwidth s' = max_bandwidth s.
Proof.
  cbn zeta. unfold _cleanup_expired_messages.
  destruct (cleanup_scan s (_priority_queues s p) now) as [[s1 valid] count] eqn:Hscan.
  apply cleanup_scan_fields in Hscan. by destruct (0 <? count).
Qed.

(** *** Eviction *)



(** *** Admission, case by case *)

(** A submission that passes the checks of [add_message] reaches
    [_add_message_internal] with the new object. *)
Lemma submit_passes s m now :
  message_id m <> "" -> 0 < bandwidth_required m ->
  _active_messages s !! message_id m = None ->
  (_degraded_mode s = true -> high_class (priority m) = true) ->
  submit s m now false =
    ((_add_message_internal (new_object s m).1 (new_object s m).2 now).1,
     (new_object s m).2,
     inr (_add_message_internal (new_object s m).1 (new_object s m).2 now).2).
Proof.
  intros Hid Hbw Hfresh Hdeg. unfold submit.
  destruct (new_object s m) as [s1 r] eqn:Hnew. cbn [fst snd].
  assert (Hm1 : objects s1 !! r = Some m).
  { unfold new_object in Hnew. injection Hnew as <- <-. cbn. apply lookup_insert_eq. }
  assert (Hs1 : _active_messages s1 = _active_messages s /\ _degraded_mode s1 = _degraded_mode s).
  { unfold new_object in Hnew. by injection Hnew as <- <-. }
  destruct Hs1 as [Hact Hd].
  unfold add_message. rewrite lookup_total_alt, Hm1. cbn [default from_option id].
  rewrite (proj2 (String.eqb_neq _ _) Hid).
  rewrite (proj2 (Z.leb_gt _ _) Hbw).
  rewrite Hact, Hfresh, Hd.
  rewrite bool_decide_eq_false_2 by (by intros [? ?]).
  assert (_degraded_mode s && negb (high_class (priority m)) = false) as ->.
  { destruct (_degraded_mode s); [| done]. by rewrite Hdeg. }
  by destruct (_add_message_internal s1 r now).
Qed.

Lemma new_object_state s m :
  let s1 := (new_object s m).1 in
  let r := (new_object s m).2 in
  objects s !! r = None /\ objects s1 = <[r := m]> (objects s) /\
  _priority_queues s1 = _priority_queues s /\ _active_messages s1 = _active_messages s /\
  max_queue_size s1 = max_queue_size s.
Proof. cbn. split; [apply not_elem_of_dom, is_fresh | done]. Qed.


Lemma new_object_ready s m :
  inv s -> status m = QUEUED -> _active_messages s !! message_id m = None ->
  inv (new_object s m).1 /\ submittable (new_object s m).1 (new_object s m).2 m.
Proof.
  intros Hinv Hst Hfresh.
  pose proof (new_object_effect s m Hinv Hst) as Heff.
  destruct (new_object_state s m) as (Hnone & Hobj & Hq & Hact & _). cbn zeta in *.
  split; [by eapply outside_inv |]. split_and!.
  - rewrite Hobj. apply lookup_insert_eq.
  - intros p. rewrite Hq. intros Hin.
    apply (queued_in_objects _ _ _ Hinv) in Hin as [? Hin]. congruence.
  - by rewrite Hact.
Qed.

(** For CRITICAL and HIGH every path of [_add_message_internal] ends in
    the push. *)
Lemma add_message_internal_high s r m now :
  inv s -> submittable s r m -> high_class (priority m) = true ->
  exists s2, _add_message_internal s r now = enqueue s2 r now /\
             inv s2 /\ submittable s2 r m.
Proof.
  intros Hinv Hsub Hhigh. pose proof Hsub as (Hm & Hno & Hidx).
  unfold _add_message_internal.
  rewrite lookup_total_alt, Hm. cbn [default from_option id].
  destruct (max_queue_size s <=? _); [| by exists s].
  pose proof (cleanup_effect s (priority m) now Hinv) as Heff1.
  set (s1 := (_cleanup_expired_messages s (priority m) now).1) in *.
  pose proof (retire_inv _ _ _ _ Hinv Heff1) as Hinv1.
  pose proof (retire_submittable _ _ _ _ _ _ Heff1 Hsub) as Hsub1.
  destruct (max_queue_size s1 <=? _); [| by exists s1].
  rewrite Hhigh.
  destruct (_make_room_for_priority s1 (priority m) now) as [s2 made] eqn:Hroom.
  cbn [fst]. exists s2. split; [done |].
  unfold _make_room_for_priority in Hroom.
  destruct (make_room_effect _ _ _ _ _ _ Hinv1 Hroom)
    as [[_ ->] | (_ & lower & r0 & _ & Heff2)]; [done |].
  split; [by eapply retire_inv | by eapply retire_submittable].
Qed.

(** X21.  CRITICAL and HIGH messages are never turned away for capacity or
    for degraded mode: in a reachable state, a valid CRITICAL or HIGH
    message with a new identifier is admitted whatever the length of its
    queue, and afterwards it is in the queue of its class, stamped with
    its queue time and registered under its identifier. *)
Theorem high_class_always_admitted adm s m now :
  reachable adm s -> status m = QUEUED ->
  high_class (priority m) = true ->
  message_id m <> "" -> 0 < bandwidth_required m ->
  _active_messages s !! message_id m = None ->
  let s' := (submit s m now false).1.1 in
  let r := (submit s m now false).1.2 in
  (submit s m now false).2 = inr true /\
  r ∈ _priority_queues s' (priority m) /\
  objects s' !! r = Some (set_queue_time now m) /\
  _active_messages s' !! message_id m = Some r.
Proof.
  intros [Hinv _]%reachable_inv Hst Hhigh Hid Hbw Hfresh. cbn zeta.
  rewrite (submit_passes s m now Hid Hbw Hfresh (fun _ => Hhigh)). cbn [fst snd].
  destruct (new_object_ready s m Hinv Hst Hfresh) as [Hinv1 Hsub1].
  set (s1 := (new_object s m).1) in *. set (r := (new_object s m).2) in *.
  destruct (add_message_internal_high s1 r m now Hinv1 Hsub1 Hhigh)
    as (s2 & -> & Hinv2 & Hm2 & _ & _).
  destruct (enqueue_state s2 r m now Hm2) as (_ & Hq' & Hobj' & Hact'). cbn zeta in *.
  split_and!.
  - done.
  - rewrite Hq', fn_lookup_insert, heappush_perm. by left.
  - by rewrite Hobj', lookup_alter_eq, Hm2.
  - rewrite Hact'. apply lookup_insert_eq.
Qed.

(** X22.  A full MEDIUM or LOW queue without expired messages rejects: in
    a reachable state, the submission of a valid message with a new
    identifier returns [False], the message is marked DROPPED, and the
    queues and the active index are as before. *)
Theorem full_queue_rejects adm s m now :
  reachable adm s -> status m = QUEUED ->
  high_class (priority m) = false ->
  message_id m <> "" -> 0 < bandwidth_required m ->
  _active_messages s !! message_id m = None ->
  _degraded_mode s = false ->
  max_queue_size s <= Z.of_nat (length (_priority_queues s (priority m))) ->
  (forall r, r ∈ _priority_queues s (priority m) -> ~ due s now r) ->
  let s' := (submit s m now false).1.1 in
  let r := (submit s m now false).1.2 in
  (submit s m now false).2 = inr false /\
  (exists m', objects s' !! r = Some m' /\ status m' = DROPPED) /\
  _priority_queues s' = _priority_queues s /\
  _active_messages s' = _active_messages s.
Proof.
  intros [Hinv _]%reachable_inv Hst Hlow Hid Hbw Hfresh Hdeg Hfull Hnone. cbn zeta.
  rewrite (submit_passes s m now Hid Hbw Hfresh) by (intros ?; congruence). cbn [fst snd].
  destruct (new_object_ready s m Hinv Hst Hfresh) as [Hinv1 (Hm1 & Hno1 & Hidx1)].
  destruct (new_object_state s m) as (Hnew & Hobj & Hq & Hact & Hmax). cbn zeta in *.
  set (s1 := (new_object s m).1) in *. set (r := (new_object s m).2) in *.
  assert (Hnone1 : forall r0, r0 ∈ _priority_queues s1 (priority m) -> ~ due s1 now r0).
  { intros r0 Hin. rewrite Hq in Hin. rewrite due_same; [by apply Hnone |].
    rewrite Hobj. apply lookup_insert_ne. intros <-.
    apply (queued_in_objects _ _ _ Hinv) in Hin as [? Hin]. congruence. }
  unfold _add_message_internal. rewrite lookup_total_alt, Hm1. cbn [default from_option id].
  rewrite (cleanup_none s1 (priority m) now Hnone1). cbn [fst].
  rewrite Hq, Hmax, (proj2 (Z.leb_le _ _) Hfull), Hlow. cbn [fst snd].
  split_and!; try done.
  exists (update_status DROPPED (Some "Queue full") now m). split; [| done].
  unfold mutate. cbn [objects set_objects]. by rewrite lookup_alter_eq, Hm1.
Qed.

(** X23.  Expired messages make room.  In a reachable state, if the queue
    of a valid new MEDIUM or LOW message is full but holds an expired
    message, the sweep that admission runs removes that message (status
    TIMEOUT, out of the queue) and the new message is admitted. *)
Theorem sweep_makes_room adm s m now r0 :
  reachable adm s -> status m = QUEUED ->
  high_class (priority m) = false ->
  message_id m <> "" -> 0 < bandwidth_required m ->
  _active_messages s !! message_id m = None ->
  _degraded_mode s = false ->
  max_queue_size s <= Z.of_nat (length (_priority_queues s (priority m))) ->
  r0 ∈ _priority_queues s (priority m) -> due s now r0 ->
  let s' := (submit s m now false).1.1 in
  let r := (submit s m now false).1.2 in
  (submit s m now false).2 = inr true /\
  r ∈ _priority_queues s' (priority m) /\
  (r0 ∉ _priority_queues s' (priority m)) /\
  (exists m0, objects s' !! r0 = Some m0 /\ status m0 = TIMEOUT) /\
  Z.of_nat (length (_priority_queues s' (priority m))) <= max_queue_size s.
Proof.
  intros [Hinv _]%reachable_inv Hst Hlow Hid Hbw Hfresh Hdeg Hfull Hin0 Hdue0. cbn zeta.
  rewrite (submit_passes s m now Hid Hbw Hfresh) by (intros ?; congruence). cbn [fst snd].
  destruct (new_object_ready s m Hinv Hst Hfresh) as [Hinv1 Hsub1].
  destruct (new_object_state s m) as (Hnew & Hobj & Hq & Hact & Hmax). cbn zeta in *.
  set (s1 := (new_object s m).1) in *. set (r := (new_object s m).2) in *.
  pose proof Hsub1 as (Hm1 & Hno1 & Hidx1).
  assert (Hne : r0 <> r).
  { intros ->. apply (queued_in_objects _ _ _ Hinv) in Hin0 as [? Hin0]. congruence. }
  assert (Hdue1 : due s1 now r0).
  { rewrite due_same; [done |]. rewrite Hobj. by apply lookup_insert_ne. }
  destruct (inv_queued _ Hinv _ _ Hin0) as (m0 & Hm0 & _).
  assert (Hm01 : objects s1 !! r0 = Some m0) by (by rewrite Hobj, lookup_insert_ne).
  unfold _add_message_internal. rewrite lookup_total_alt, Hm1. cbn [default from_option id].
  rewrite Hq, Hmax, (proj2 (Z.leb_le _ _) Hfull).
  pose proof (cleanup_effect s1 (priority m) now Hinv1) as Heff.
  destruct (cleanup_spec s1 (priority m) now Hinv1) as (_ & Hperm & _ & Hexp & _).
  cbn zeta in *.
  set (s2 := (_cleanup_expired_messages s1 (priority m) now).1) in *.
  pose proof (retire_submittable _ _ _ _ _ _ Heff Hsub1) as (Hm2 & Hno2 & Hidx2).
  assert (Hlen2 : Z.of_nat (length (_priority_queues s2 (priority m))) < max_queue_size s).
  { rewrite Hperm.
    pose proof (length_filter_lt (fun r => ~ due s1 now r) (_priority_queues s1 (priority m)) r0)
      as Hlt.
    rewrite Hq in Hlt. specialize (Hlt Hin0 (fun H => H Hdue1)).
    pose proof (inv_capacity _ Hinv _ Hlow). rewrite Hq. lia. }
  rewrite (ret_max _ _ _ _ Heff), Hmax, (proj2 (Z.leb_gt _ _) Hlen2).
  destruct (enqueue_state s2 r m now Hm2) as (_ & Hq' & Hobj' & _). cbn zeta in *.
  split_and!.
  - done.
  - rewrite Hq', fn_lookup_insert, heappush_perm. by left.
  - rewrite Hq', fn_lookup_insert, heappush_perm, Hperm.
    rewrite not_elem_of_cons. split; [done |].
    intros [Hnd _]%list_elem_of_filter. by apply Hnd.
  - destruct (Hexp r0 m0) as [Hm0' _]; [by rewrite Hq | done | done |].
    eexists. rewrite Hobj', lookup_alter_ne by done. split; [exact Hm0' | done].
  - rewrite Hq', fn_lookup_insert, heappush_perm. cbn [length]. lia.
Qed.

(** *** Dispatch, case by case *)

(** What the pop of [_process_next_message] does to a reachable state. *)
Lemma process_pop_spec s p now s1 r expired :
  inv s -> process_pop s p now = Some (s1, r, expired) ->
  exists m queue,
    heappop (ref_lt (objects s)) (_priority_queues s p) = Some (r, queue) /\
    objects s !! r = Some m /\ status m = QUEUED /\ priority m = p /\
    _active_messages s !! message_id m = Some r /\
    expired = is_expired now m /\
    _priority_queues s1 = <[p := queue]> (_priority_queues s) /\
    _active_messages s1 = _active_messages s /\
    _message_history s1 = _message_history s /\
    _consecutive_errors s1 =
      (if expired then <[p := _consecutive_errors s p + 1]> (_consecutive_errors s)
       else _consecutive_errors s) /\
    objects s1 =
      <[r := let m1 := update_status PROCESSING None now (set_processing_start_time now m) in
             if expired
             then update_status TIMEOUT (Some "Message expired before processing") now m1
             else m1]> (objects s) /\
    (forall q, r ∉ _priority_queues s1 q).
Proof.
  intros Hinv. unfold process_pop.
  destruct (heappop _ _) as [[message queue] |] eqn:Hpop; [| done].
  pose proof (heappop_perm _ _ _ _ Hpop) as Hperm.
  assert (Hin : message ∈ _priority_queues s p) by (rewrite Hperm; by left).
  destruct (inv_queued _ Hinv _ _ Hin) as (m & Hm & Hst & Hp & Hact).
  assert (Hexp : is_expired now
                   (objects (mutate (mutate (set_queue s p queue) message
                                       (set_processing_start_time now))
                               message (update_status PROCESSING None now)) !!! message)
                 = is_expired now m).
  { cbn. rewrite lookup_total_alt, !lookup_alter_eq, Hm. done. }
  rewrite Hexp.
  assert (Hnot : forall q, message ∉ <[p := queue]> (_priority_queues s) q).
  { intros q. destruct (decide (q = p)) as [-> | Hne].
    - rewrite fn_lookup_insert. pose proof (inv_nodup _ Hinv p) as Hnd.
      rewrite Hperm in Hnd. by apply list.NoDup_cons in Hnd as [? _].
    - rewrite fn_lookup_insert_ne by done. intros Hin'.
      destruct (inv_queued _ Hinv _ _ Hin') as (m' & Hm' & _ & Hp' & _). congruence. }
  destruct (is_expired now m) eqn:Hexpired; intros [= <- <- <-];
    exists m, queue; split_and!; try done; cbn.
  - apply map_eq. intros i. destruct (decide (i = message)) as [-> | Hne].
    + by rewrite !lookup_alter_eq, lookup_insert_eq, Hm.
    + by rewrite !lookup_alter_ne, lookup_insert_ne.
  - apply map_eq. intros i. destruct (decide (i = message)) as [-> | Hne].
    + by rewrite !lookup_alter_eq, lookup_insert_eq, Hm.
    + by rewrite !lookup_alter_ne, lookup_insert_ne.
Qed.

(** X24.  A dispatched message whose processor returns is retired.  In a
    reachable state, when [_process_next_message] pops a message that has
    not expired and the processor returns [success], the message was the
    oldest of its class queue; afterwards it is in no queue, its status is
    COMPLETED or FAILED according to [success], it carries both processing
    times, it is the newest entry of the history and has no entry in the
    active index, and the error counter of the class is reset or
    incremented. *)
Theorem returned_message_is_retired adm s p now now' s1 r success :
  reachable adm s ->
  process_pop s p now = Some (s1, r, false) ->
  let s2 := process_finish s1 p r (Returned success) now' in
  exists m m2,
    objects s !! r = Some m /\ r ∈ _priority_queues s p /\
    (forall r' m', r' ∈ _priority_queues s p -> objects s !! r' = Some m' ->
                   creation_timestamp m <= creation_timestamp m') /\
    objects s2 !! r = Some m2 /\
    status m2 = (if success then COMPLETED else FAILED) /\
    processing_start_time m2 = Some now /\ processing_end_time m2 = Some now' /\
    (forall q, r ∉ _priority_queues s2 q) /\
    _active_messages s2 = delete (message_id m) (_active_messages s) /\
    list.last (_message_history s2) = Some r /\
    _consecutive_errors s2 p = (if success then 0 else _consecutive_errors s p + 1).
Proof.
  intros [Hinv _]%reachable_inv Hpop. cbn zeta.
  destruct (process_pop_spec s p now s1 r false Hinv Hpop)
    as (m & queue & Hheap & Hm & Hst & Hp & Hact & Hexp & Hq1 & Hact1 & Hh1 & He1 & Hobj1 & Hno1).
  cbn zeta in Hobj1.
  assert (Hin : r ∈ _priority_queues s p).
  { rewrite (heappop_perm _ _ _ _ Hheap). by left. }
  set (m1 := update_status PROCESSING None now (set_processing_start_time now m)) in *.
  assert (Hm1 : objects s1 !! r = Some m1) by (rewrite Hobj1; apply lookup_insert_eq).
  exists m, (update_status (if success then COMPLETED else FAILED)
               (if success then None else Some "Processor returned False") now'
               (set_processing_end_time now' m1)).
  split_and!; try done.
  - intros r' m' Hin' Hm'.
    destruct (inv_queued _ Hinv _ _ Hin') as (m3 & Hm3 & _ & Hp3 & _).
    assert (m3 = m') as -> by congruence.
    pose proof (heappop_min _ (ref_lt_asym _) (ref_lt_negtrans _) _ _ _
                  (inv_heap _ Hinv p) Hheap r' Hin') as Hmin.
    unfold ref_lt in Hmin. rewrite !lookup_total_alt, Hm, Hm' in Hmin. cbn in Hmin.
    unfold Message_lt in Hmin. rewrite Hp, Hp3, Z.eqb_refl in Hmin. cbn in Hmin. lia.
  - destruct success; cbn; by rewrite !lookup_alter_eq, Hm1.
  - destruct success; cbn; apply Hno1.
  - destruct success; cbn; rewrite lookup_total_alt, !lookup_alter_eq, Hm1; cbn;
      by rewrite Hact1.
  - destruct success; cbn; apply LDPC.last_deque_append; lia.
  - destruct success; cbn; rewrite fn_lookup_insert; [done |].
    by rewrite He1.
Qed.

(** *** Memory pressure *)

Lemma memory_pressure_index s memory_percent i :
  _active_messages (_handle_memory_pressure s memory_percent) !! i =
    _active_messages s !! i \/
  (_active_messages (_handle_memory_pressure s memory_percent) !! i = None /\
   exists r, _active_messages s !! i = Some r /\
             finished_status (status (objects s !!! r)) = true).
Proof.
  unfold _handle_memory_pressure.
  set (s1 := set_history s _).
  set (ids := take 100 _).
  destruct (foldl_active_pop s1 ids) as (_ & _ & _ & Hact).
  assert (Hres : _active_messages (foldl active_pop s1 ids) !! i = _active_messages s !! i \/
                 (_active_messages (foldl active_pop s1 ids) !! i = None /\
                  exists r, _active_messages s !! i = Some r /\
                            finished_status (status (objects s !!! r)) = true)).
  { rewrite Hact. destruct (decide (i ∈ ids)) as [Hin | Hnin]; [| by left].
    right. split; [done |].
    apply (subseteq_take 100) in Hin.
    apply list_elem_of_fmap in Hin as ([i' r] & -> & Hin).
    apply list_elem_of_filter in Hin as [Hfin Hin]. cbn in *.
    apply elem_of_map_to_list in Hin. by exists r. }
  by destruct (Qltb 90 memory_percent).
Qed.


(** *** Messages that time out *)

(** X25.  A message that times out keeps its entry of the active index.
    In a reachable state, when a popped message had expired, or when its
    processor times out, the message ends in status TIMEOUT and is still
    registered under its identifier; [_handle_memory_pressure] does not
    remove the entry, and no later submission with this identifier is
    admitted while the entry is there. *)
Theorem timed_out_message_stays_indexed adm s p now now' s1 r expired :
  reachable adm s ->
  process_pop s p now = Some (s1, r, expired) ->
  let s2 := if expired then s1 else process_finish s1 p r ProcessorTimeout now' in
  exists m2,
    objects s2 !! r = Some m2 /\ status m2 = TIMEOUT /\
    _active_messages s2 !! message_id m2 = Some r /\
    (forall memory_percent,
       _active_messages (_handle_memory_pressure s2 memory_percent) !! message_id m2
       = Some r) /\
    (forall m' now2 cancelled,
       message_id m' = message_id m2 -> (submit s2 m' now2 cancelled).2 <> inr true).
Proof.
  intros [Hinv _]%reachable_inv Hpop. cbn zeta.
  destruct (process_pop_spec s p now s1 r expired Hinv Hpop)
    as (m & queue & _ & Hm & _ & _ & Hact & _ & _ & Hact1 & _ & _ & Hobj1 & _).
  cbn zeta in Hobj1.
  set (m1 := update_status PROCESSING None now (set_processing_start_time now m)) in *.
  set (s2 := if expired then s1 else process_finish s1 p r ProcessorTimeout now').
  assert (Hs2 : exists m2, objects s2 !! r = Some m2 /\ status m2 = TIMEOUT /\
                           message_id m2 = message_id m /\
                           _active_messages s2 = _active_messages s).
  { subst s2. destruct expired.
    - eexists. rewrite Hobj1, lookup_insert_eq. by split_and!.
    - eexists. cbn. rewrite Hobj1, lookup_alter_eq, lookup_insert_eq. cbn. by split_and!. }
  destruct Hs2 as (m2 & Hm2 & Hst2 & Hid2 & Hact2).
  assert (Hidx2 : _active_messages s2 !! message_id m2 = Some r) by (by rewrite Hact2, Hid2).
  exists m2. split_and!; try done.
  - intros mem. destruct (memory_pressure_index s2 mem (message_id m2))
      as [-> | (_ & r' & Hr' & Hfin)]; [done |].
    assert (r' = r) as -> by congruence.
    rewrite lookup_total_alt, Hm2 in Hfin. cbn in Hfin. by rewrite Hst2 in Hfin.
  - intros m' now2 cancelled Hid'. unfold submit.
    destruct (new_object s2 m') as [s3 r3] eqn:Hnew.
    assert (Hm3 : objects s3 !! r3 = Some m' /\ _active_messages s3 = _active_messages s2).
    { unfold new_object in Hnew. injection Hnew as <- <-. cbn.
      split; [apply lookup_insert_eq | done]. }
    destruct Hm3 as [Hm3 Hact3].
    unfold add_message. rewrite lookup_total_alt, Hm3. cbn [default from_option id].
    destruct (String.eqb _ _); [done |].
    destruct (bandwidth_required m' <=? 0); [done |].
    rewrite Hact3, Hid', Hidx2. by rewrite bool_decide_eq_true_2 by eauto.
Qed.

(** *** Queues of reachable states *)


(** *** Frequencies of the dispatch loops *)

Local Ltac split_frequency_cases s :=
  repeat match goal with
         | |- context [Qltb (inject_Z (max_queue_size s) * ?c) ?x] =>
             destruct (Qltb (inject_Z (max_queue_size s) * c) x)
         | |- context [Qltb (1 # 10) (?x / ?y)] => destruct (Qltb (1 # 10) (x / y))
         end.

(** X28.  The processing frequency of a class stays between 80 and 150
    percent of its base frequency, so the cap of 2000 Hz is never reached,
    and whatever the load and the error counters, a higher class is
    processed at a strictly higher frequency than a lower one.  Without
    adaptive scheduling or without monitoring it is the base frequency. *)
Theorem processing_frequency_bounds (adaptive monitoring : bool) (s : MessageScheduler)
    (p : MessagePriority) :
  let f := _get_processing_frequency adaptive monitoring s in
  (base_frequency p * (8 # 10) <= f p)%Q /\
  (f p <= base_frequency p * (15 # 10))%Q /\
  (f p < 2000)%Q /\
  (forall q, priority_value q < priority_value p -> (f q < f p)%Q) /\
  (adaptive && monitoring = false -> f p = base_frequency p).
Proof.
  cbn zeta. unfold _get_processing_frequency. cbn zeta.
  destruct (adaptive && monitoring).
  - split_and!.
    + split_frequency_cases s; destruct p; vm_compute; discriminate.
    + split_frequency_cases s; destruct p; vm_compute; discriminate.
    + split_frequency_cases s; destruct p; vm_compute; reflexivity.
    + intros q Hq. split_frequency_cases s;
        destruct p, q; cbn in Hq; try lia; vm_compute; reflexivity.
    + discriminate.
  - split_and!.
    + destruct p; vm_compute; discriminate.
    + destruct p; vm_compute; discriminate.
    + destruct p; vm_compute; reflexivity.
    + intros q Hq. destruct p, q; cbn in Hq; try lia; vm_compute; reflexivity.
    + intros _. by destruct p.
Qed.

(** *** Counters of the performance metrics *)

Lemma record_all_snoc events message processing_time success :
  record_all (events ++ [(message, processing_time, success)]) =
    record_message_processed (record_all events) message processing_time success.
Proof. unfold record_all. by rewrite foldl_app. Qed.

Lemma record_all_counts events p :
  _message_counts (record_all events) p =
    Z.of_nat (length (filter (fun e : Message * Q * bool => priority e.1.1 = p) events)) /\
  _error_counts (record_all events) p =
    Z.of_nat (length (filter (fun e : Message * Q * bool =>
                                priority e.1.1 = p /\ e.2 = false) events)).
Proof.
  induction events as [| [[message time] success] events [IHc IHe]] using rev_ind; [done |].
  rewrite record_all_snoc, !list.filter_app, !length_app, !filter_cons, !filter_nil. cbn.
  destruct (decide (priority message = p)) as [<- | Hne].
  - rewrite fn_lookup_insert. split.
    + rewrite IHc. cbn. lia.
    + destruct success.
      * rewrite decide_False by (by intros [_ ?]). rewrite IHe. cbn. lia.
      * rewrite decide_True by done. rewrite fn_lookup_insert, IHe. cbn. lia.
  - rewrite fn_lookup_insert_ne by done. split.
    + rewrite IHc. cbn. lia.
    + rewrite decide_False by (by intros [? _]).
      destruct success; [| rewrite fn_lookup_insert_ne by done]; rewrite IHe; cbn; lia.
Qed.

Lemma record_all_total events :
  total_messages (record_all events) = Z.of_nat (length events).
Proof.
  induction events as [| [[message time] success] events IH] using rev_ind; [done |].
  rewrite record_all_snoc, length_app. cbn [length].
  unfold total_messages in *. cbn in *.
  destruct (priority message);
    repeat (rewrite fn_lookup_insert || rewrite fn_lookup_insert_ne by done); lia.
Qed.

(** X29.  After any run of recorded messages, the metrics count every
    message once under its class, count as errors of a class exactly its
    messages recorded with [success = False], report as [total_messages]
    the number of recorded messages, and report an error rate between 0
    and 1 for every class. *)
Theorem metrics_error_rate_bounded (events : list (Message * Q * bool))
    (p : MessagePriority) :
  let t := record_all events in
  _message_counts t p =
    Z.of_nat (length (filter (fun e : Message * Q * bool => priority e.1.1 = p) events)) /\
  _error_counts t p =
    Z.of_nat (length (filter (fun e : Message * Q * bool =>
                                priority e.1.1 = p /\ e.2 = false) events)) /\
  total_messages t = Z.of_nat (length events) /\
  (0 <= error_rate t p <= 1)%Q.
Proof.
  cbn zeta. destruct (record_all_counts events p) as [Hc He].
  split_and!; [done | done | apply record_all_total | |].
  - unfold error_rate. apply Qle_shift_div_l.
    + unfold Qlt. cbn. lia.
    + rewrite He. unfold Qle. cbn. rewrite ?Pos.mul_1_l. lia.
  - unfold error_rate. apply Qle_shift_div_r.
    + unfold Qlt. cbn. lia.
    + assert (Hle : _error_counts (record_all events) p
                    <= _message_counts (record_all events) p).
      { rewrite Hc, He. apply inj_le. clear.
        induction events as [| e events IH]; [done |].
        rewrite !filter_cons.
        destruct (decide (priority e.1.1 = p)); destruct (decide (_ /\ _));
          cbn [length]; tauto || lia. }
      unfold Qle. cbn. rewrite ?Pos.mul_1_l. lia.
Qed.

(** *** Further concrete runs *)

(** A message with a deadline. *)
Definition deadline_message (id : string) (p : MessagePriority) (created deadline : Z)
    : Message :=
  mkMessage id p 1000 0 (mkTimeConstraints 50 (Some deadline) 5000 3) created created
    QUEUED 0 [] None None None.

(** A scheduler with [max_queue_size = 1] whose LOW queue holds a message
    that expires at instant 15. *)
Definition one_expiring : MessageScheduler :=
  (submit (scheduler_of 1) (deadline_message "l1" LOW 0 15) 10 false).1.1.

Lemma reachable_one_expiring : reachable [0%nat] one_expiring.
Proof.
  eapply (reach_submit_admitted [] (scheduler_of 1) (deadline_message "l1" LOW 0 15) 10);
    [| done | vm_compute; reflexivity].
  by apply reachable_scheduler_of.
Qed.

(** The same with a message that has no deadline. *)
Definition one_low : MessageScheduler :=
  (submit (scheduler_of 1) (demo_message "l1" LOW 0) 10 false).1.1.

Lemma reachable_one_low : reachable [0%nat] one_low.
Proof.
  eapply (reach_submit_admitted [] (scheduler_of 1) (demo_message "l1" LOW 0) 10);
    [| done | vm_compute; reflexivity].
  by apply reachable_scheduler_of.
Qed.

Lemma cleanup_removes_exactly_expired_witness :
  (_cleanup_expired_messages one_expiring LOW 20).2 =
    Z.of_nat (length (filter (due one_expiring 20) (_priority_queues one_expiring LOW))) /\
  forall r, r ∈ _priority_queues (_cleanup_expired_messages one_expiring LOW 20).1 LOW ->
            ~ due (_cleanup_expired_messages one_expiring LOW 20).1 20 r.
Proof.
  destruct (cleanup_removes_exactly_expired [0%nat] one_expiring LOW 20
              reachable_one_expiring) as (Hcount & _ & Hclean & _).
  split; [exact Hcount | exact Hclean].
Defined.

Lemma cleanup_twice_witness :
  _cleanup_expired_messages (_cleanup_expired_messages one_expiring LOW 20).1 LOW 20 =
    ((_cleanup_expired_messages one_expiring LOW 20).1, 0).
Proof.
  apply (cleanup_twice [0%nat] one_expiring LOW 20 20 reachable_one_expiring). lia.
Defined.



Lemma high_class_always_admitted_witness :
  (submit two_critical (demo_message "c3" CRITICAL 3) 13 false).2 = inr true /\
  max_queue_size two_critical <
    Z.of_nat (length (_priority_queues two_critical CRITICAL)).
Proof.
  split; [| reflexivity].
  destruct (high_class_always_admitted [2%nat; 1%nat; 0%nat] two_critical
              (demo_message "c3" CRITICAL 3) 13) as (Hout & _).
  - eapply (reach_submit_admitted [1%nat; 0%nat]
              (submit (submit (scheduler_of 1) (demo_message "l1" LOW 0) 10 false).1.1
                 (demo_message "c1" CRITICAL 1) 11 false).1.1
              (demo_message "c2" CRITICAL 2) 12); [| done | vm_compute; reflexivity].
    eapply (reach_submit_admitted [0%nat]
              (submit (scheduler_of 1) (demo_message "l1" LOW 0) 10 false).1.1
              (demo_message "c1" CRITICAL 1) 11); [| done | vm_compute; reflexivity].
    exact reachable_one_low.
  - reflexivity.
  - reflexivity.
  - discriminate.
  - reflexivity.
  - reflexivity.
  - exact Hout.
Defined.

Lemma full_queue_rejects_witness :
  (submit one_low (demo_message "l2" LOW 5) 20 false).2 = inr false /\
  _priority_queues (submit one_low (demo_message "l2" LOW 5) 20 false).1.1 =
    _priority_queues one_low.
Proof.
  destruct (full_queue_rejects [0%nat] one_low (demo_message "l2" LOW 5) 20)
    as (Hout & _ & Hq & _).
  - exact reachable_one_low.
  - reflexivity.
  - reflexivity.
  - discriminate.
  - reflexivity.
  - reflexivity.
  - reflexivity.
  - vm_compute. discriminate.
  - intros r Hin Hdue. vm_compute in Hin.
    apply list_elem_of_singleton in Hin as ->. vm_compute in Hdue. discriminate.
  - split; [exact Hout | exact Hq].
Defined.

Lemma sweep_makes_room_witness :
  (submit one_expiring (demo_message "l2" LOW 5) 20 false).2 = inr true /\
  0%nat ∉ _priority_queues (submit one_expiring (demo_message "l2" LOW 5) 20 false).1.1 LOW.
Proof.
  destruct (sweep_makes_room [0%nat] one_expiring (demo_message "l2" LOW 5) 20 0%nat)
    as (Hout & _ & Hgone & _).
  - exact reachable_one_expiring.
  - reflexivity.
  - reflexivity.
  - discriminate.
  - reflexivity.
  - reflexivity.
  - reflexivity.
  - vm_compute. discriminate.
  - vm_compute. apply list_elem_of_here.
  - reflexivity.
  - split; [exact Hout | exact Hgone].
Defined.

(** [one_expiring] after its LOW message was popped at instant 12, before
    the deadline. *)
Definition popped_in_time : MessageScheduler :=
  match process_pop one_expiring LOW 12 with
  | Some (s', _, _) => s'
  | None => one_expiring
  end.

(** [one_expiring] after its LOW message was popped at instant 20, after
    the deadline. *)
Definition popped_late : MessageScheduler :=
  match process_pop one_expiring LOW 20 with
  | Some (s', _, _) => s'
  | None => one_expiring
  end.

Lemma returned_message_is_retired_witness :
  exists m2,
    objects (process_finish popped_in_time LOW 0%nat (Returned true) 14) !! 0%nat = Some m2 /\
    status m2 = COMPLETED /\
    list.last (_message_history
                 (process_finish popped_in_time LOW 0%nat (Returned true) 14)) = Some 0%nat.
Proof.
  destruct (returned_message_is_retired [0%nat] one_expiring LOW 12 14 popped_in_time
              0%nat true) as (m & m2 & _ & _ & _ & Hm2 & Hst & _ & _ & _ & _ & Hlast & _).
  - exact reachable_one_expiring.
  - vm_compute. reflexivity.
  - exists m2. split; [exact Hm2 |]. split; [exact Hst | exact Hlast].
Defined.

Lemma timed_out_message_stays_indexed_witness :
  exists m2,
    objects popped_late !! 0%nat = Some m2 /\ status m2 = TIMEOUT /\
    _active_messages popped_late !! message_id m2 = Some 0%nat /\
    forall m' now2 cancelled,
      message_id m' = message_id m2 -> (submit popped_late m' now2 cancelled).2 <> inr true.
Proof.
  destruct (timed_out_message_stays_indexed [0%nat] one_expiring LOW 20 21 popped_late
              0%nat true) as (m2 & Hm2 & Hst & Hidx & _ & Hdup).
  - exact reachable_one_expiring.
  - vm_compute. reflexivity.
  - exists m2. split; [exact Hm2 |]. split; [exact Hst |]. split; [exact Hidx | exact Hdup].
Defined.


End Sched.
